(** * The binary I/O core of the texture tool

    A shallow embedding of [io::StreamSink] (binary_io/stream_sink.h), of
    [mmo::tex::v1_0::loadHeader] (tex_v1_0/header_load.cpp) and of the
    texture tool (texture_tool/main.cpp: [BmpImageParser::Parse] and the
    save path of [main]), with the properties of the serialization core
    stated and settled against them. *)

From Stdlib Require Import ZArith List Bool Lia.
From coqutil Require Import Byte Word.LittleEndianList.
Import ListNotations.

Local Open Scope Z_scope.

(** ** Fixed-width integer conversions *)

Module Cast.

(** [static_cast] to an unsigned integer type of [w] bits. *)
Definition unsigned (w z : Z) : Z := z mod 2 ^ w.

(** [static_cast] to a signed (two's complement) integer type of [w] bits. *)
Definition signed (w z : Z) : Z := (z + 2 ^ (w - 1)) mod 2 ^ w - 2 ^ (w - 1).

Definition uint8 := unsigned 8.
Definition uint16 := unsigned 16.
Definition uint32 := unsigned 32.
Definition int32 := signed 32.
Definition size_t := unsigned 64.
Definition streamoff := signed 64.

End Cast.

(** ** The output stream under a sink

    [io::StreamSink] holds a [std::ostream &m_dest].  The stream is the
    standard library's; what the sink relies on is modelled here for a
    seekable stream over a file, the [std::ofstream] that [main] hands to
    the sink: the bytes of the file, the put position, the error state
    ([fail()], which is sticky: neither the sink nor the tool ever calls
    [clear()]), and the room the medium offers ([None]: no limit).

    The bytes of a write reach the file at the write.  A [std::ofstream]
    may hold the bytes of a small write back in its buffer until the next
    flush (that of a seek, or of the close); the bytes reach the medium in
    the same order and the medium cuts them at the same byte, so the file
    that is left is the same, while the error state of a write that was
    cut may rise at that later flush only.  What is stated below of a
    write that the medium cuts is stated of the file that is left. *)

Module OStream.

Record t := mk {
  content : list byte;
  pptr : nat;
  failed : bool;
  room : option nat
}.

(** A freshly opened (truncated) output file. *)
Definition fresh (room : option nat) : t := mk [] 0 false room.

(** Does the medium take a write that ends at byte position [upto]? *)
Definition accepts (s : t) (upto : nat) : bool :=
  match room s with
  | None => true
  | Some limit => (upto <=? limit)%nat
  end.

(** The file after [src] is stored at byte position [pos]: the bytes under
    the written region are replaced, the file grows when the region ends
    past its end, and a gap between the old end and [pos] reads as zero.
    Storing no byte leaves the file as it is, wherever [pos] lies. *)
Definition put_at (file : list byte) (pos : nat) (src : list byte) : list byte :=
  match src with
  | [] => file
  | _ :: _ =>
      firstn pos file ++ repeat Byte.x00 (pos - length file)
        ++ src ++ skipn (pos + length src) file
  end.

(** The bytes of [src] that the medium has room for at the put position. *)
Definition fitting (s : t) (src : list byte) : list byte :=
  match room s with
  | None => src
  | Some limit => firstn (limit - pptr s) src
  end.

(** [ostream::write]: nothing happens on a stream in error state; of a
    write that the medium cuts, the bytes that fit are stored, and the
    stream is in error state when a byte was left over. *)
Definition write (s : t) (src : list byte) : t :=
  if failed s then s
  else if accepts s (pptr s + length src) then
    mk (put_at (content s) (pptr s) src) (pptr s + length src) false (room s)
  else
    let stored := fitting s src in
    mk (put_at (content s) (pptr s) stored) (pptr s + length stored)
      (length stored <? length src)%nat (room s).

(** [ostream::tellp]: [pos_type(-1)] when [fail()]. *)
Definition tellp (s : t) : Z :=
  if failed s then -1 else Z.of_nat (pptr s).

(** [ostream::seekp]: no effect when [fail()]; a negative position cannot
    be sought and sets the error state. *)
Definition seekp (s : t) (pos : Z) : t :=
  if failed s then s
  else if pos <? 0 then mk (content s) (pptr s) true (room s)
  else mk (content s) (Z.to_nat pos) false (room s).

Definition flush (s : t) : t := s.

(** The highest position ever written. *)
Definition frontier (s : t) : nat := length (content s).

End OStream.

(** ** io::StreamSink (binary_io/stream_sink.h)

    The sink is its stream [m_dest]; every method returns its result and the
    stream it leaves.  A buffer [src, size] is the list of its bytes: a
    buffer in memory has fewer than 2^63 bytes, so the conversion of [size]
    to [std::streamsize] changes nothing. *)

Module StreamSink.

Definition write (m_dest : OStream.t) (src : list byte) : Z * OStream.t :=
  let m_dest := OStream.write m_dest src in
  (Z.of_nat (length src), m_dest).

Definition overwrite (m_dest : OStream.t) (position : Z) (src : list byte)
  : Z * OStream.t :=
  let previous := OStream.tellp m_dest in
  let m_dest := OStream.seekp m_dest (Cast.streamoff position) in
  let '(result, m_dest) := write m_dest src in
  let m_dest := OStream.seekp m_dest previous in
  (result, m_dest).

Definition position (m_dest : OStream.t) : Z :=
  Cast.size_t (OStream.tellp m_dest).

Definition flush (m_dest : OStream.t) : OStream.t := OStream.flush m_dest.

End StreamSink.

(** ** Integer types of the typed field operations *)

(** The integer types at which [io::read<T>], [io::skip<T>] and
    [io::write<T>] are used in the sources: [uint8], [uint16], [uint32] and
    [int32]. *)
Inductive int_type := U8 | U16 | U32 | I32.

Definition sizeof (T : int_type) : nat :=
  match T with U8 => 1 | U16 => 2 | U32 | I32 => 4 end%nat.

(** Modelled from the spec: the byte order of binary_io, which is not among
    the sources.  "all integers little-endian, fixed byte order
    throughout". *)
Definition decode (T : int_type) (bs : list byte) : Z :=
  match T with
  | I32 => Cast.int32 (le_combine bs)
  | _ => le_combine bs
  end.

Definition encode (T : int_type) (v : Z) : list byte := le_split (sizeof T) v.

Definition encode_range (T : int_type) (vs : list Z) : list byte :=
  flat_map (encode T) vs.

(** The [n] bytes of [data] from byte position [pos] on. *)
Definition slice (data : list byte) (pos n : nat) : list byte :=
  firstn n (skipn pos data).

(** The values of [count] consecutive elements of type [T] at the head of
    [bs]. *)
Fixpoint decode_range (T : int_type) (count : nat) (bs : list byte) : list Z :=
  match count with
  | O => []
  | S count =>
      decode T (firstn (sizeof T) bs) :: decode_range T count (skipn (sizeof T) bs)
  end.

(** ** Source and Reader (binary_io/stream_source.h, binary_io/reader.h) *)

Module Source.

(** Modelled from the spec: [io::StreamSource] of binary_io is not among the
    sources.  "attributes: underlying byte provider, current read cursor";
    here the bytes of the stream and the cursor, which starts at 0. *)
Record t := mk { data : list byte; cursor : nat }.

(** Modelled from the spec: a source bound to a stream, "bound once at
    construction", at the start of its bytes. *)
Definition over (data : list byte) : t := mk data 0.

(** Modelled from the spec: [ISource::read] of binary_io is not among the
    sources.  "read(n) -> exactly n bytes or Failure"; "reads beyond size
    fail without advancing the cursor". *)
Definition read (s : t) (n : nat) : option (list byte) * t :=
  if (cursor s + n <=? length (data s))%nat
  then (Some (slice (data s) (cursor s) n), mk (data s) (cursor s + n))
  else (None, s).

(** Modelled from the spec: [ISource::seek] of binary_io is not among the
    sources.  "seek(absolute_pos) -> Success/Failure", under the invariant
    "cursor in [0, size]". *)
Definition seek (s : t) (pos : Z) : bool * t :=
  if (0 <=? pos) && (pos <=? Z.of_nat (length (data s)))
  then (true, mk (data s) (Z.to_nat pos))
  else (false, s).

(** Modelled from the spec: "position() -> current cursor". *)
Definition position (s : t) : nat := cursor s.

End Source.

Module Reader.

(** Modelled from the spec: [io::Reader] of binary_io is not among the
    sources.  "reference to a Source, accumulated success flag (starts
    true, becomes permanently false on first failed primitive)". *)
Record t := mk { source : Source.t; success : bool }.

(** Modelled from the spec: a fresh reader over a source, its flag "starts
    true". *)
Definition over (s : Source.t) : t := mk s true.

(** Modelled from the spec: the primitive under every typed operation of
    [io::Reader].  On a reader that has failed it is a no-op; otherwise it
    asks the source for [n] bytes and fails when the source does. *)
Definition fetch (r : t) (n : nat) : option (list byte) * t :=
  if success r then
    match Source.read (source r) n with
    | (Some bs, s) => (Some bs, mk s true)
    | (None, s) => (None, mk s false)
    end
  else (None, r).

(** Modelled from the spec: [reader >> io::read<T>(dest)], for a
    destination that is a local variable: the new value of [dest] and the
    reader.  "on failure: leaves the destination's prior value". *)
Definition get (T : int_type) (r : t) (dest : Z) : t * Z :=
  match fetch r (sizeof T) with
  | (Some bs, r) => (r, decode T bs)
  | (None, r) => (r, dest)
  end.

(** Modelled from the spec: [reader >> io::skip<T>()], "consumes exactly
    sizeof(T) bytes from the Source without producing a value". *)
Definition skip (T : int_type) (r : t) : t := snd (fetch r (sizeof T)).

(** Modelled from the spec: the operations a chained expression
    [reader >> f1 >> ... >> fk] is made of ([io::read<T>(dest)],
    [io::skip<T>()], [io::read_range(container)]), over the record [D] that
    holds the destinations. *)
Inductive field (D : Type) : Type :=
| read (T : int_type) (store : Z -> D -> D)
| skip_field (T : int_type)
| read_range (T : int_type) (size : D -> nat) (store : nat -> Z -> D -> D).

Arguments read {D} T store.
Arguments skip_field {D} T.
Arguments read_range {D} T size store.

(** Modelled from the spec: [reader >> io::read<T>(dest)] for a destination
    in [D]: "on success: stores the decoded value, advances the Source
    cursor by the field width"; on failure the destination keeps its prior
    value. *)
Definition read_into {D : Type} (T : int_type) (store : Z -> D -> D)
  (st : t * D) : t * D :=
  match fetch (fst st) (sizeof T) with
  | (Some bs, r) => (r, store (decode T bs) (snd st))
  | (None, r) => (r, snd st)
  end.

(** Modelled from the spec: "read_range(container): decodes len(container)
    homogeneous fixed-width elements in sequence into the container's
    existing slots". *)
Definition read_slots {D : Type} (T : int_type) (store : nat -> Z -> D -> D)
  (slots : list nat) (st : t * D) : t * D :=
  fold_left (fun st i => read_into T (store i) st) slots st.

(** Modelled from the spec: one operation of a chain. *)
Definition step {D : Type} (f : field D) (st : t * D) : t * D :=
  match f with
  | read T store => read_into T store st
  | skip_field T => (skip T (fst st), snd st)
  | read_range T size store => read_slots T store (seq 0 (size (snd st))) st
  end.

(** Modelled from the spec: [reader >> f1 >> ... >> fk], from the left;
    "overall success is the logical AND of every step". *)
Definition chain {D : Type} (fs : list (field D)) (st : t * D) : t * D :=
  fold_left (fun st f => step f st) fs st.

End Reader.

(** ** Writer (binary_io/writer.h) *)

Module Writer.

(** Modelled from the spec: [io::Writer] of binary_io is not among the
    sources.  "Symmetric mirror of Reader: typed field writes append
    fixed-width encoded bytes to the Sink"; "a failed write - e.g. the
    underlying Sink rejecting the write - poisons the remainder of the
    chain".  The writer learns of a rejection from what [ISink::write]
    returns. *)
Record t := mk { sink : OStream.t; success : bool }.

(** Modelled from the spec: a fresh writer over a sink. *)
Definition over (s : OStream.t) : t := mk s true.

(** Modelled from the spec: the primitive under every typed write, a no-op
    on a writer that has failed. *)
Definition put (w : t) (bs : list byte) : t :=
  if success w then
    let '(n, s) := StreamSink.write (sink w) bs in
    mk s (n =? Z.of_nat (length bs))
  else w.

(** Modelled from the spec: [writer << io::write<T>(v)]. *)
Definition write (T : int_type) (v : Z) (w : t) : t := put w (encode T v).

(** Modelled from the spec: "write_range is the write-side counterpart of
    read_range". *)
Definition write_range (T : int_type) (vs : list Z) (w : t) : t :=
  fold_left (fun w v => write T v w) vs w.

End Writer.

(** ** The texture container (tex/pre_header.h, tex_v1_0/header.h)

    The declarations of the format are not among the sources; the constants
    they fix are taken as parameters. *)

Class TexFormat := {
  (** the literal tag that opens a texture file *)
  magic : list byte;
  (** the enumerator [Version_1_0] *)
  Version_1_0 : Z;
  (** the fixed number of slots of [mipmapOffsets] and of [mipmapLengths] *)
  MipCount : nat
}.

(** Modelled from the spec: the enumerator [v1_0::NotCompressed] of
    tex_v1_0/header.h, "0 = uncompressed". *)
Definition NotCompressed : Z := 0.

(** Modelled from the spec: [tex::PreHeader] of tex/pre_header.h is not
    among the sources.  Of "magic" and "version" the version is kept; the
    magic is checked on load. *)
Record PreHeader := mkPreHeader { pre_version : Z }.

(** Modelled from the spec: [v1_0::Header] of tex_v1_0/header.h is not
    among the sources.  "{compression: enumerated code, hasMips: boolean,
    width: unsigned 16-bit, height: unsigned 16-bit, mipmapOffsets:
    fixed-length array of unsigned 32-bit absolute byte offsets,
    mipmapLengths: fixed-length array of unsigned 32-bit byte counts}", and
    the version it is constructed with. *)
Record Header := mkHeader {
  version : Z;
  compression : Z;
  hasMips : bool;
  width : Z;
  height : Z;
  mipmapOffsets : list Z;
  mipmapLengths : list Z
}.

(** [container[i] = v] on a fixed-size array.  An index out of range is
    undefined behaviour in the source; the model leaves the array as it is. *)
Fixpoint assign (i : nat) (v : Z) (a : list Z) : list Z :=
  match a, i with
  | [], _ => []
  | _ :: t, O => v :: t
  | x :: t, S j => x :: assign j v t
  end.

Definition set_compression (v : Z) (h : Header) : Header :=
  mkHeader (version h) v (hasMips h) (width h) (height h)
    (mipmapOffsets h) (mipmapLengths h).

Definition set_hasMips (v : Z) (h : Header) : Header :=
  mkHeader (version h) (compression h) (negb (v =? 0)) (width h) (height h)
    (mipmapOffsets h) (mipmapLengths h).

Definition set_width (v : Z) (h : Header) : Header :=
  mkHeader (version h) (compression h) (hasMips h) v (height h)
    (mipmapOffsets h) (mipmapLengths h).

Definition set_height (v : Z) (h : Header) : Header :=
  mkHeader (version h) (compression h) (hasMips h) (width h) v
    (mipmapOffsets h) (mipmapLengths h).

Definition set_mipmapOffset (i : nat) (v : Z) (h : Header) : Header :=
  mkHeader (version h) (compression h) (hasMips h) (width h) (height h)
    (assign i v (mipmapOffsets h)) (mipmapLengths h).

Definition set_mipmapLength (i : nat) (v : Z) (h : Header) : Header :=
  mkHeader (version h) (compression h) (hasMips h) (width h) (height h)
    (mipmapOffsets h) (assign i v (mipmapLengths h)).

(** The header with one of its arrays replaced. *)
Definition put_offsets (a : list Z) (h : Header) : Header :=
  mkHeader (version h) (compression h) (hasMips h) (width h) (height h)
    a (mipmapLengths h).

Definition put_lengths (a : list Z) (h : Header) : Header :=
  mkHeader (version h) (compression h) (hasMips h) (width h) (height h)
    (mipmapOffsets h) a.

Section Tex.

Context {fmt : TexFormat}.

(** Modelled from the spec: the constructor [v1_0::Header{version}] of
    tex_v1_0/header.h is not among the sources.  "unused trailing mip
    slots hold offset/length = 0". *)
Definition Header_new (version : Z) : Header :=
  mkHeader version 0 false 0 0 (repeat 0 MipCount) (repeat 0 MipCount).

(** tex_v1_0/header_load.cpp, [loadHeader]: one chained expression.  The
    offsets member is spelled [mimapOffsets] there and [mipmapOffsets] in
    main.cpp; it is the one member.  A range has as many elements as its
    container has slots. *)
Definition loadHeader_fields : list (Reader.field Header) :=
  [ Reader.read U8 set_compression;
    Reader.read U8 set_hasMips;
    Reader.read U16 set_width;
    Reader.read U16 set_height;
    Reader.read_range U32 (fun h => length (mipmapOffsets h)) set_mipmapOffset;
    Reader.read_range U32 (fun h => length (mipmapLengths h)) set_mipmapLength ].

Definition loadHeader (header : Header) (reader : Reader.t)
  : bool * Header * Reader.t :=
  let '(reader, header) := Reader.chain loadHeader_fields (reader, header) in
  (Reader.success reader, header, reader).

(** The bytes of a version 1.0 header. *)
Definition header_v1_size : nat := (6 + 4 * MipCount + 4 * MipCount)%nat.

(** The header whose fields are decoded, in the order of the chain, from
    the bytes at [c] on. *)
Definition header_at (version : Z) (data : list byte) (c : nat) : Header :=
  mkHeader version
    (decode U8 (slice data c 1))
    (negb (decode U8 (slice data (c + 1) 1) =? 0))
    (decode U16 (slice data (c + 2) 2))
    (decode U16 (slice data (c + 4) 2))
    (decode_range U32 MipCount (skipn (c + 6) data))
    (decode_range U32 MipCount (skipn (c + 6 + 4 * MipCount) data)).

(** Modelled from the spec: [loadPreHeader] of tex/pre_header_load.h is
    not among the sources.  "decode magic + version via Reader.  Magic
    mismatch or unknown version -> terminal failure". *)
Definition loadPreHeader (reader : Reader.t) : bool * PreHeader * Reader.t :=
  let '(tag, reader) := Reader.fetch reader (length magic) in
  let '(reader, v) := Reader.get U32 reader 0 in
  let tag_ok :=
    match tag with
    | Some bs => if list_eq_dec Byte.byte_eq_dec bs magic then true else false
    | None => false
    end in
  (Reader.success reader && tag_ok && (v =? Version_1_0), mkPreHeader v, reader).

(** Modelled from the spec: [v1_0::HeaderSaver] of tex_v1_0/header_save.h
    is not among the sources.  "Writes the header with offset/length
    fields populated as zero/placeholder, recording the absolute Sink
    position at which each placeholder field began (this is metadata kept
    in memory by the saver, not in the file)." *)
Record HeaderSaver := mkHeaderSaver {
  m_offsetsPosition : Z;
  m_lengthsPosition : Z
}.

(** Modelled from the spec: the constructor [HeaderSaver{sink, header}]:
    pre-header, scalar fields, and the two ranges as zero placeholders, in
    the layout of section 6 of the spec. *)
Definition HeaderSaver_new (sink : OStream.t) (header : Header)
  : HeaderSaver * OStream.t :=
  let w := Writer.over sink in
  let w := Writer.put w magic in
  let w := Writer.write U32 (version header) w in
  let w := Writer.write U8 (compression header) w in
  let w := Writer.write U8 (if hasMips header then 1 else 0) w in
  let w := Writer.write U16 (width header) w in
  let w := Writer.write U16 (height header) w in
  let offsetsPosition := StreamSink.position (Writer.sink w) in
  let w := Writer.write_range U32 (repeat 0 MipCount) w in
  let lengthsPosition := StreamSink.position (Writer.sink w) in
  let w := Writer.write_range U32 (repeat 0 MipCount) w in
  (mkHeaderSaver offsetsPosition lengthsPosition, Writer.sink w).

(** Modelled from the spec: [HeaderSaver::finish], which sees the header
    the caller has filled in since.  "for each recorded field position,
    invoke Sink.overwrite(fieldPosition, trueValueBytes) with the
    now-known offset/length". *)
Definition HeaderSaver_finish (saver : HeaderSaver) (sink : OStream.t)
  (header : Header) : OStream.t :=
  let '(_, sink) := StreamSink.overwrite sink (m_offsetsPosition saver)
                      (encode_range U32 (mipmapOffsets header)) in
  let '(_, sink) := StreamSink.overwrite sink (m_lengthsPosition saver)
                      (encode_range U32 (mipmapLengths header)) in
  sink.

(** The bytes before the payload: pre-header and header. *)
Definition header_size : nat :=
  (length magic + 4 + (1 + 1 + 2 + 2) + 4 * MipCount + 4 * MipCount)%nat.

(** texture_tool/main.cpp, [main], the branch of [--info] (lines 211-252):
    the exit status and the header that is described. *)
Definition main_info (srcFile : list byte) : Z * option Header :=
  let source := Source.over srcFile in
  let reader := Reader.over source in
  let '(ok, preHeader, reader) := loadPreHeader reader in
  if negb ok then (1, None)
  else if pre_version preHeader =? Version_1_0 then
    let header := Header_new (pre_version preHeader) in
    let '(ok, header, reader) := loadHeader header reader in
    if negb ok then (1, None) else (0, Some header)
  else (1, None).

End Tex.

(** ** The bitmap parser (texture_tool/main.cpp, lines 28-150) *)

Inductive ImageFormat := RGB | RGBA | DXT1 | DXT3 | DXT5.

(** [#define LOWORD(l) ((uint16)(((uint32)(l)) & 0xffff))] *)
Definition LOWORD (l : Z) : Z :=
  Cast.uint16 (Z.land (Cast.uint32 l) 65535).

(** [#define HIWORD(l) ((uint16)((((uint32)(l)) >> 16) & 0xffff))] *)
Definition HIWORD (l : Z) : Z :=
  Cast.uint16 (Z.land (Z.shiftr (Cast.uint32 l) 16) 65535).

(** [HIWORD(v) + ((uint32)LOWORD(v) << 16)], a sum in [uint32]. *)
Definition swap_words (v : Z) : Z :=
  Cast.uint32 (HIWORD v + Cast.uint32 (Z.shiftl (Cast.uint32 (LOWORD v)) 16)).

(** How a call ends: it returns, or it throws an exception that nothing
    between the call and the end of [main] catches ([main] catches
    [cxxopts::OptionException] only). *)
Inductive outcome (A : Type) : Type :=
| returned (a : A)
| thrown.

Arguments returned {A} a.
Arguments thrown {A}.

Module BmpImageParser.

(** What the references [width], [height], [format] and [pixels] of
    [Parse] hold. *)
Record out := mkOut {
  o_width : Z;
  o_height : Z;
  o_format : ImageFormat;
  o_pixels : list byte
}.

(** The loop over the pixels (lines 133-144): [count] rounds, each reading
    b, g, r in one chained expression and pushing r, g, b. *)
Fixpoint read_pixels (count : nat) (reader : Reader.t) (pixels : list byte)
  : bool * Reader.t * list byte :=
  match count with
  | O => (true, reader, pixels)
  | S count =>
      let '(reader, b) := Reader.get U8 reader 0 in
      let '(reader, g) := Reader.get U8 reader 0 in
      let '(reader, r) := Reader.get U8 reader 0 in
      if negb (Reader.success reader) then (false, reader, pixels)
      else read_pixels count reader
             (pixels ++ [byte.of_Z r; byte.of_Z g; byte.of_Z b])
  end.

Definition minSupportedPixelOffset : Z := 54.

(** Line 130, [pixels.reserve(width * height * 3)]: the two [uint16] are
    promoted to [int] and the product is an [int].  A product of 2^31 or
    more overflows the [int], which is undefined behaviour; the model takes
    the wrap-around that two's complement arithmetic gives. *)
Definition reserve_size (width height : Z) : Z :=
  Cast.int32 (Cast.int32 (width * height) * 3).

(** [reserve] takes a [size_t]: a negative [int] becomes a size above
    [max_size()], which is [2^63 - 1] for a vector of bytes, and [reserve]
    throws [std::length_error].  Memory for a size within [int] is taken to
    be there. *)
Definition reserve_throws (width height : Z) : bool :=
  2 ^ 63 - 1 <? Cast.size_t (reserve_size width height).

Definition Parse (data : list byte) (o : out) : outcome (bool * out) :=
  let source := Source.over data in
  let reader := Reader.over source in
  (* Read bitmap magic *)
  let '(reader, bmpMagic) := Reader.get U16 reader 0 in
  if negb (Reader.success reader) || negb (bmpMagic =? 19778)
  then returned (false, o)
  else
  let reader := Reader.skip U16 reader in
  let reader := Reader.skip U32 reader in
  let '(reader, pixelOffset) := Reader.get U32 reader 0 in
  if negb (Reader.success reader) || (pixelOffset <? minSupportedPixelOffset)
  then returned (false, o)
  else
  let reader := Reader.skip U32 reader in
  (* Read bitmap size in pixels *)
  let '(reader, bmWidth) := Reader.get I32 reader 0 in
  let '(reader, bmHeight) := Reader.get I32 reader 0 in
  if negb (Reader.success reader) then returned (false, o)
  else
  let bmWidth := Cast.int32 (swap_words bmWidth) in
  let bmHeight := Cast.int32 (swap_words bmHeight) in
  let width := Cast.uint16 bmWidth in
  let height := Cast.uint16 (Z.abs bmHeight) in
  let o := mkOut width height (o_format o) (o_pixels o) in
  if (width =? 0) || (height =? 0) then returned (false, o)
  else
  let reader := Reader.skip U32 reader in
  let '(reader, bpp) := Reader.get U16 reader 0 in
  if negb (Reader.success reader) then returned (false, o)
  else if negb (bpp =? 24) && negb (bpp =? 32) then returned (false, o)
  else
  (* Read compression value *)
  let '(reader, compression) := Reader.get U32 reader 0 in
  if negb (Reader.success reader) then returned (false, o)
  else
  (* Seek pixel offset in bytes *)
  let pixelOffset := swap_words pixelOffset in
  let source := snd (Source.seek (Reader.source reader) pixelOffset) in
  let reader := Reader.mk source (Reader.success reader) in
  if compression =? 0 then
    (* 24 bit rgb *)
    if reserve_throws width height then thrown
    else
    let o := mkOut width height RGB (o_pixels o) in
    let count := Z.to_nat (Cast.uint32 (Cast.uint32 width * Cast.uint32 height)) in
    let '(ok, reader, pixels) := read_pixels count reader (o_pixels o) in
    returned (ok, mkOut width height RGB pixels)
  else returned (true, o).

End BmpImageParser.

(** ** The save path of the texture tool (texture_tool/main.cpp, 274-346) *)

Section Tool.

Context {fmt : TexFormat}.

(** The loop of lines 311-325 over [i = 0 .. 15]:
    [(widthIsPow2, heightIsPow2, mipCount)]. *)
Definition mip_scan (w h : Z) : bool * bool * Z :=
  fold_left
    (fun '(widthIsPow2, heightIsPow2, mipCount) i =>
       let '(widthIsPow2, mipCount) :=
         if w =? Z.shiftl 1 i
         then (true, if mipCount =? 0 then Cast.uint32 (i + 1) else mipCount)
         else (widthIsPow2, mipCount) in
       let '(heightIsPow2, mipCount) :=
         if h =? Z.shiftl 1 i
         then (true, if mipCount =? 0 then Cast.uint32 (i + 1) else mipCount)
         else (heightIsPow2, mipCount) in
       (widthIsPow2, heightIsPow2, mipCount))
    (map Z.of_nat (seq 0 16)) (false, false, 0).

(** Lines 303-328: the header [main] sets up for an image. *)
Definition main_header (w h : Z) : Header :=
  let header := Header_new Version_1_0 in
  let header := set_width w header in
  let header := set_height h header in
  let header := set_compression NotCompressed header in
  let '(widthIsPow2, heightIsPow2, _) := mip_scan (width header) (height header) in
  mkHeader (version header) (compression header) (widthIsPow2 && heightIsPow2)
    (width header) (height header) (mipmapOffsets header) (mipmapLengths header).

(** Lines 296-346, "Write the file": the stream [dstFile] afterwards.  The
    saver refers to [header], so [finish] sees the two assignments made
    after the saver was built. *)
Definition main_write (dstFile : OStream.t) (w h : Z) (pixelData : list byte)
  : OStream.t :=
  let sink := dstFile in
  let header := main_header w h in
  let '(saver, sink) := HeaderSaver_new sink header in
  let header :=
    set_mipmapOffset 0 (Cast.uint32 (StreamSink.position sink)) header in
  let header :=
    set_mipmapLength 0 (Cast.uint32 (Z.of_nat (length pixelData))) header in
  let '(_, sink) := StreamSink.write sink pixelData in
  HeaderSaver_finish saver sink header.

(** Where the tool writes, as [std::ofstream dstFile{targetFile}] meets it:
    can the target be opened, and how many bytes the medium holds. *)
Record Target := mkTarget { can_open : bool; capacity : option nat }.

(** The status of a program that ends in [std::terminate] for an exception
    that left [main]: [abort()] raises [SIGABRT], which a shell reports as
    128 + 6. *)
Definition aborted : Z := 134.

(** Lines 274-357, the conversion branch of [main] for a source file that
    could be opened: the exit status, and the file at the target path
    afterwards ([None]: none was created).  [main] leaves [format]
    uninitialised before the call of [Parse]; the model starts it at [RGB]. *)
Definition main_convert (target : Target) (srcFile : list byte)
  : Z * option (list byte) :=
  let o := BmpImageParser.mkOut 0 0 RGB [] in
  match BmpImageParser.Parse srcFile o with
  | thrown => (aborted, None)
  | returned (ok, o) =>
      if negb ok then (1, None)
      else if negb (can_open target) then (1, None)
      else
        let dstFile := OStream.fresh (capacity target) in
        let dstFile :=
          main_write dstFile (BmpImageParser.o_width o) (BmpImageParser.o_height o)
            (BmpImageParser.o_pixels o) in
        (0, Some (OStream.content dstFile))
  end.

(** Modelled from the spec: step 2 of the save path for any number of
    payload segments, "recording, per payload segment (e.g. per mip level),
    the absolute offset at which it began and its length"; each segment is
    recorded the way [main] records its one segment (lines 339-342). *)
Fixpoint write_segments (i : nat) (segments : list (list byte))
  (sink : OStream.t) (header : Header) : OStream.t * Header :=
  match segments with
  | [] => (sink, header)
  | segment :: rest =>
      let header :=
        set_mipmapOffset i (Cast.uint32 (StreamSink.position sink)) header in
      let header :=
        set_mipmapLength i (Cast.uint32 (Z.of_nat (length segment))) header in
      let '(_, sink) := StreamSink.write sink segment in
      write_segments (S i) rest sink header
  end.

(** Modelled from the spec: the save path as a whole: saver, segments,
    [finish()]; the stream and the header as the segments left it. *)
Definition save (sink : OStream.t) (header : Header)
  (segments : list (list byte)) : OStream.t * Header :=
  let '(saver, sink) := HeaderSaver_new sink header in
  let '(sink, header) := write_segments 0 segments sink header in
  (HeaderSaver_finish saver sink header, header).

(** Modelled from the spec: the save sequence "{construct placeholder
    Header, open deferred-patch saver, write payload, finish()}" for a
    header whose offsets and lengths are already the true ones. *)
Definition save_header (sink : OStream.t) (header : Header)
  (payload : list byte) : OStream.t :=
  let '(saver, sink) := HeaderSaver_new sink header in
  let '(_, sink) := StreamSink.write sink payload in
  HeaderSaver_finish saver sink header.

(** ** Notions the properties are stated with *)

(** A stream in append position over [bytes]. *)
Definition appended (room : option nat) (bytes : list byte) : OStream.t :=
  OStream.mk bytes (length bytes) false room.

(** The medium holds [n] bytes. *)
Definition roomy (room : option nat) (n : nat) : Prop :=
  match room with
  | None => True
  | Some limit => (n <= limit)%nat
  end.

(** The layout of section 6: pre-header, the scalar fields, the two
    ranges. *)
Definition header_bytes (h : Header) (offsets lengths : list Z) : list byte :=
  magic ++ encode U32 (version h)
    ++ encode U8 (compression h)
    ++ encode U8 (if hasMips h then 1 else 0)
    ++ encode U16 (width h)
    ++ encode U16 (height h)
    ++ encode_range U32 offsets
    ++ encode_range U32 lengths.

(** The values a header can hold: the fields within their types, the
    arrays with their [MipCount] slots, the version the supported one. *)
Definition header_valid (h : Header) : Prop :=
  version h = Version_1_0
  /\ 0 <= version h < 2 ^ 32
  /\ 0 <= compression h < 2 ^ 8
  /\ 0 <= width h < 2 ^ 16
  /\ 0 <= height h < 2 ^ 16
  /\ length (mipmapOffsets h) = MipCount
  /\ length (mipmapLengths h) = MipCount
  /\ Forall (fun v => 0 <= v < 2 ^ 32) (mipmapOffsets h)
  /\ Forall (fun v => 0 <= v < 2 ^ 32) (mipmapLengths h).

(** What [write_segments] records in the header, for segments that start
    at byte [pos]. *)
Fixpoint record_segments (i : nat) (pos : nat) (segments : list (list byte))
  (header : Header) : Header :=
  match segments with
  | [] => header
  | segment :: rest =>
      record_segments (S i) (pos + length segment) rest
        (set_mipmapLength i (Cast.uint32 (Z.of_nat (length segment)))
           (set_mipmapOffset i (Cast.uint32 (Z.of_nat pos)) header))
  end.

End Tool.

(** A bitmap to run the definitions with: 1 x 1 pixel, 24 bits per pixel,
    not compressed, the pixel (b, g, r) = (10, 20, 30) at offset 54. *)
Definition example_bmp : list byte :=
  [Byte.x42; Byte.x4d; Byte.x3a; Byte.x00; Byte.x00; Byte.x00;
   Byte.x00; Byte.x00; Byte.x00; Byte.x00; Byte.x36; Byte.x00; Byte.x00; Byte.x00;
   Byte.x28; Byte.x00; Byte.x00; Byte.x00; Byte.x01; Byte.x00; Byte.x00; Byte.x00;
   Byte.x01; Byte.x00; Byte.x00; Byte.x00; Byte.x01; Byte.x00; Byte.x18; Byte.x00;
   Byte.x00; Byte.x00; Byte.x00; Byte.x00; Byte.x04; Byte.x00; Byte.x00; Byte.x00;
   Byte.x00; Byte.x00; Byte.x00; Byte.x00; Byte.x00; Byte.x00; Byte.x00; Byte.x00;
   Byte.x00; Byte.x00; Byte.x00; Byte.x00; Byte.x00; Byte.x00; Byte.x00; Byte.x00;
   Byte.x0a; Byte.x14; Byte.x1e; Byte.x00].

(** The same header with the compression field set to 1. *)
Definition example_bmp_compressed : list byte :=
  firstn 30 example_bmp ++ [Byte.x01; Byte.x00; Byte.x00; Byte.x00]
    ++ skipn 34 example_bmp.

(** A format to run the definitions with: the tag "HT", version 0x0100,
    two mip slots. *)
Definition example_format : TexFormat :=
  {| magic := [Byte.x48; Byte.x54]; Version_1_0 := 256; MipCount := 2 |}.


(** ** Strings

    A [std::string] is the list of its [char]s. *)

Module Str.

(** [s.find(ch)]: the first position of [ch] in [s], [None] for [npos]. *)
Fixpoint find (ch : byte) (s : list byte) : option nat :=
  match s with
  | [] => None
  | x :: t =>
      if Byte.eqb x ch then Some 0%nat
      else match find ch t with
           | Some i => Some (S i)
           | None => None
           end
  end.

(** Does [s] begin with [p]? *)
Fixpoint starts_with (p s : list byte) : bool :=
  match p, s with
  | [], _ => true
  | _ :: _, [] => false
  | a :: p, x :: s => Byte.eqb a x && starts_with p s
  end.

(** [s.rfind(p)]: the last position at which [p] occurs in [s], [None] for
    [npos]. *)
Fixpoint rfind (p s : list byte) : option nat :=
  match s with
  | [] => if starts_with p [] then Some 0%nat else None
  | _ :: t =>
      match rfind p t with
      | Some i => Some (S i)
      | None => if starts_with p s then Some 0%nat else None
      end
  end.

(** [s.substr(pos, n)] and [s.substr(pos)], for [pos] within [s]. *)
Definition substr (s : list byte) (pos n : nat) : list byte :=
  firstn n (skipn pos s).

Definition substr_from (s : list byte) (pos : nat) : list byte := skipn pos s.

(** [a == b] *)
Definition eqb (a b : list byte) : bool :=
  if list_eq_dec Byte.byte_eq_dec a b then true else false.

End Str.

(** ** The name of the target file (texture_tool/main.cpp, lines 256-272) *)

(** The literal [".htex"]. *)
Definition htex : list byte := [Byte.x2e; Byte.x68; Byte.x74; Byte.x65; Byte.x78].

(** [targetFile] after the block that checks "if target file has been set";
    [rfind('.')] is [rfind] of the one-character string. *)
Definition target_name (sourceFile targetFile : list byte) : list byte :=
  match targetFile with
  | [] =>
      (* Remove extension of source file *)
      match Str.rfind [Byte.x2e] sourceFile with
      | Some extensionDot => Str.substr sourceFile 0 extensionDot ++ htex
      | None => targetFile
      end
  | _ :: _ =>
      (* Make sure that the file extension is *.htex *)
      match Str.rfind htex targetFile with
      | None => targetFile ++ htex
      | Some _ => targetFile
      end
  end.

(** [p] occurs in [s], at whatever place. *)
Definition occurs (p s : list byte) : Prop :=
  exists a b, s = a ++ p ++ b.

(** The bytes the pixel loop pushes for the bytes it reads: each triple
    b, g, r becomes r, g, b. *)
Fixpoint bgr_to_rgb (bs : list byte) : list byte :=
  match bs with
  | b :: g :: r :: rest => r :: g :: b :: bgr_to_rgb rest
  | _ => []
  end.

(** What [Parse] takes from the bytes of a bitmap: the width and the height
    from the words of the fields it decodes at bytes 16 and 20, the place of
    the pixels from the field at byte 8, the bits per pixel at byte 28 and
    the compression at byte 30. *)
Definition bmp_width (data : list byte) : Z :=
  Cast.uint16 (Cast.int32 (swap_words (decode I32 (slice data 16 4)))).

Definition bmp_height (data : list byte) : Z :=
  Cast.uint16 (Z.abs (Cast.int32 (swap_words (decode I32 (slice data 20 4))))).

Definition bmp_pixels_at (data : list byte) : Z :=
  swap_words (decode U32 (slice data 8 4)).

Definition bmp_compression (data : list byte) : Z :=
  decode U32 (slice data 30 4).

(** The checks [Parse] makes of the 34 bytes it decodes. *)
Definition bmp_header_ok (data : list byte) : Prop :=
  (34 <= length data)%nat
  /\ decode U16 (slice data 0 2) = 19778
  /\ 54 <= decode U32 (slice data 8 4)
  /\ bmp_width data <> 0
  /\ bmp_height data <> 0
  /\ (decode U16 (slice data 28 2) = 24 \/ decode U16 (slice data 28 2) = 32).

(** The stores of a field of a chain keep [I]. *)
Definition field_keeps {D} (I : D -> Prop) (f : Reader.field D) : Prop :=
  match f with
  | Reader.read _ store => forall v d, I d -> I (store v d)
  | Reader.skip_field _ => True
  | Reader.read_range _ _ store => forall i v d, I d -> I (store i v d)
  end.

(** ** A sequence of calls on a sink *)

Inductive sink_call :=
| call_write (src : list byte)
| call_overwrite (position : Z) (src : list byte)
| call_flush.

Definition sink_do (m_dest : OStream.t) (c : sink_call) : OStream.t :=
  match c with
  | call_write src => snd (StreamSink.write m_dest src)
  | call_overwrite position src => snd (StreamSink.overwrite m_dest position src)
  | call_flush => StreamSink.flush m_dest
  end.


(** ** A [std::map] as an association list

    The keys of a [std::map] are unique up to the equivalence of its
    comparator, [same]; the list holds one entry for each key. *)

Module KeyMap.

Section WithKeys.

Context {K V : Type}.
Variable same : K -> K -> bool.

(** [m.find(k)]: the value under a key equivalent to [k], [None] for
    [m.end()]. *)
Fixpoint find (m : list (K * V)) (k : K) : option V :=
  match m with
  | [] => None
  | (k', v) :: t => if same k' k then Some v else find t k
  end.

(** [m.erase(it)] for the iterator of [k]. *)
Fixpoint erase (m : list (K * V)) (k : K) : list (K * V) :=
  match m with
  | [] => []
  | (k', v) :: t => if same k' k then erase t k else (k', v) :: erase t k
  end.

(** [m.emplace(k, v)] and [m[k] = v] on a map that has no key equivalent
    to [k]. *)
Definition emplace (m : list (K * V)) (k : K) (v : V) : list (K * V) :=
  (k, v) :: m.

End WithKeys.

End KeyMap.

(** ** The console (console.cpp) *)

Module Console.

Section WithHandlers.

(** What console.h declares is not among the sources: the callable a
    [ConsoleCommandHandler] holds and the enumeration
    [ConsoleCommandCategory] are type parameters, the equivalence of keys
    under the comparator [StrCaseIComp] of [s_consoleCommands] is a
    parameter. *)
Context {Handler Category : Type}.
Variable same_name : list byte -> list byte -> bool.

(** [Console::ConsoleCommand]; a [std::function] can be empty. *)
Record ConsoleCommand := mkConsoleCommand {
  category : Category;
  help : list byte;
  handler : option Handler
}.

(** [s_consoleCommands] *)
Definition Commands := list (list byte * ConsoleCommand).

(** [Console::RegisterCommand] (lines 146-161) *)
Definition RegisterCommand (s_consoleCommands : Commands) (command : list byte)
  (h : option Handler) (c : Category) (help : list byte) : Commands :=
  match KeyMap.find same_name s_consoleCommands command with
  | Some _ => s_consoleCommands
  | None =>
      let cmd := mkConsoleCommand c help h in
      KeyMap.emplace s_consoleCommands command cmd
  end.

(** [Console::UnregisterCommand] (lines 163-171) *)
Definition UnregisterCommand (s_consoleCommands : Commands) (command : list byte)
  : Commands :=
  match KeyMap.find same_name s_consoleCommands command with
  | Some _ => KeyMap.erase same_name s_consoleCommands command
  | None => s_consoleCommands
  end.

(** What a call of [Console::ExecuteCommand] does. *)
Inductive execution :=
| Ignored
| Unknown (command : list byte)
| Called (h : Handler) (command arguments : list byte)
| NoHandler.

(** The split of the command line at its first space (lines 175-189). *)
Definition split_command (commandLine : list byte) : list byte * list byte :=
  match Str.find Byte.x20 commandLine with
  | None => (commandLine, [])
  | Some space =>
      (Str.substr commandLine 0 space, Str.substr_from commandLine (space + 1))
  end.

(** [Console::ExecuteCommand] (lines 173-210) *)
Definition ExecuteCommand (s_consoleCommands : Commands) (commandLine : list byte)
  : execution :=
  let '(command, arguments) := split_command commandLine in
  match command with
  | [] => Ignored
  | _ :: _ =>
      match KeyMap.find same_name s_consoleCommands command with
      | None => Unknown command
      | Some cmd =>
          match handler cmd with
          | Some h => Called h command arguments
          | None => NoHandler
          end
      end
  end.

End WithHandlers.

(** [s_consoleVisible] and [s_consoleWindowHeight] *)
Record window := mkWindow { s_consoleVisible : bool; s_consoleWindowHeight : Z }.

(** [Console::KeyDown] (lines 212-228): the result and the window. *)
Definition KeyDown (w : window) (key : Z) : bool * window :=
  if (key =? 192) || (key =? 220) then
    let visible := negb (s_consoleVisible w) in
    let height :=
      if visible && (s_consoleWindowHeight w <=? 0) then 200
      else s_consoleWindowHeight w in
    (false, mkWindow visible height)
  else (true, w).

(** The window after a sequence of key events. *)
Definition keys_down (w : window) (keys : list Z) : window :=
  fold_left (fun w key => snd (KeyDown w key)) keys w.

(** The two keys that toggle the console. *)
Definition console_key (key : Z) : bool := (key =? 192) || (key =? 220).

(** [Console::KeyUp] (lines 230-233) *)
Definition KeyUp (key : Z) : bool := true.

(** The log signal's slot (lines 94-104): [s_consoleLog] after an entry. *)
Definition log_entry {M : Type} (s_consoleLog : list M) (message : M) : list M :=
  let s_consoleLog := message :: s_consoleLog in
  if (50 <? length s_consoleLog)%nat then removelast s_consoleLog
  else s_consoleLog.

End Console.

(** ** Style (frame_ui/style.cpp) *)

Module Style.

Section WithImagery.

(** [StateImagery] is not among the sources: a type parameter with its
    [GetName]. *)
Context {StateImagery : Type}.
Variable GetName : StateImagery -> list byte.

(** [m_stateImageriesByName]; the name [m_name] plays no part. *)
Definition t := list (list byte * StateImagery).

(** [Style::AddStateImagery] (lines 19-25); a [std::unique_ptr] can be
    null.  [ASSERT] is taken as it is in a build that checks it: a false
    condition stops the program, [None]. *)
Definition AddStateImagery (m : t) (stateImagery : option StateImagery) : option t :=
  match stateImagery with
  | None => None
  | Some imagery =>
      match KeyMap.find Str.eqb m (GetName imagery) with
      | Some _ => None
      | None => Some (KeyMap.emplace m (GetName imagery) imagery)
      end
  end.

(** [Style::RemoveStateImagery] (lines 27-33) *)
Definition RemoveStateImagery (m : t) (name : list byte) : option t :=
  match KeyMap.find Str.eqb m name with
  | None => None
  | Some _ => Some (KeyMap.erase Str.eqb m name)
  end.

(** [Style::GetStateImageryByName] (lines 35-39), [None] for [nullptr]. *)
Definition GetStateImageryByName (m : t) (name : list byte) : option StateImagery :=
  KeyMap.find Str.eqb m name.

End WithImagery.

End Style.


(** ** The configuration of the login server (login_server/configuration.cpp) *)

Module Configuration.

(** The constants of base/constants.h and the type of [maxPlayers] are not
    among the sources: parameters. *)
Class Constants := {
  DefaultLoginPlayerPort : Z;
  DefaultLoginRealmPort : Z;
  MaxRealmCount : Z;
  DefaultMySQLPort : Z;
  (** [std::numeric_limits<decltype(maxPlayers)>::max()] *)
  maxPlayers_max : Z
}.

(** The tree of simple_file_format that [load] reads is not among the
    sources: a type parameter with the four queries [load] makes.
    [tryGetInteger] gives the value it stores on success. *)
Class Sff := {
  Table : Type;
  getTable : Table -> list byte -> option Table;
  tryGetInteger : Table -> list byte -> option Z;
  getInteger : Table -> list byte -> Z -> Z;
  getString : Table -> list byte -> list byte -> list byte
}.

(** The literals of the file, as characters. *)
Definition k_version : list byte := (* "version" *)
  [Byte.x76; Byte.x65; Byte.x72; Byte.x73; Byte.x69; Byte.x6f; Byte.x6e].
Definition k_mysqlDatabase : list byte := (* "mysqlDatabase" *)
  [Byte.x6d; Byte.x79; Byte.x73; Byte.x71; Byte.x6c; Byte.x44; Byte.x61; Byte.x74; Byte.x61; Byte.x62; Byte.x61; Byte.x73; Byte.x65].
Definition k_port : list byte := (* "port" *)
  [Byte.x70; Byte.x6f; Byte.x72; Byte.x74].
Definition k_host : list byte := (* "host" *)
  [Byte.x68; Byte.x6f; Byte.x73; Byte.x74].
Definition k_user : list byte := (* "user" *)
  [Byte.x75; Byte.x73; Byte.x65; Byte.x72].
Definition k_password : list byte := (* "password" *)
  [Byte.x70; Byte.x61; Byte.x73; Byte.x73; Byte.x77; Byte.x6f; Byte.x72; Byte.x64].
Definition k_database : list byte := (* "database" *)
  [Byte.x64; Byte.x61; Byte.x74; Byte.x61; Byte.x62; Byte.x61; Byte.x73; Byte.x65].
Definition k_webServer : list byte := (* "webServer" *)
  [Byte.x77; Byte.x65; Byte.x62; Byte.x53; Byte.x65; Byte.x72; Byte.x76; Byte.x65; Byte.x72].
Definition k_ssl_port : list byte := (* "ssl_port" *)
  [Byte.x73; Byte.x73; Byte.x6c; Byte.x5f; Byte.x70; Byte.x6f; Byte.x72; Byte.x74].
Definition k_playerManager : list byte := (* "playerManager" *)
  [Byte.x70; Byte.x6c; Byte.x61; Byte.x79; Byte.x65; Byte.x72; Byte.x4d; Byte.x61; Byte.x6e; Byte.x61; Byte.x67; Byte.x65; Byte.x72].
Definition k_maxCount : list byte := (* "maxCount" *)
  [Byte.x6d; Byte.x61; Byte.x78; Byte.x43; Byte.x6f; Byte.x75; Byte.x6e; Byte.x74].
Definition k_realmManager : list byte := (* "realmManager" *)
  [Byte.x72; Byte.x65; Byte.x61; Byte.x6c; Byte.x6d; Byte.x4d; Byte.x61; Byte.x6e; Byte.x61; Byte.x67; Byte.x65; Byte.x72].
Definition k_log : list byte := (* "log" *)
  [Byte.x6c; Byte.x6f; Byte.x67].
Definition k_active : list byte := (* "active" *)
  [Byte.x61; Byte.x63; Byte.x74; Byte.x69; Byte.x76; Byte.x65].
Definition k_fileName : list byte := (* "fileName" *)
  [Byte.x66; Byte.x69; Byte.x6c; Byte.x65; Byte.x4e; Byte.x61; Byte.x6d; Byte.x65].
Definition k_buffering : list byte := (* "buffering" *)
  [Byte.x62; Byte.x75; Byte.x66; Byte.x66; Byte.x65; Byte.x72; Byte.x69; Byte.x6e; Byte.x67].
Definition dot_updated : list byte := (* ".updated" *)
  [Byte.x2e; Byte.x75; Byte.x70; Byte.x64; Byte.x61; Byte.x74; Byte.x65; Byte.x64].
Definition lit_127_0_0_1 : list byte := (* "127.0.0.1" *)
  [Byte.x31; Byte.x32; Byte.x37; Byte.x2e; Byte.x30; Byte.x2e; Byte.x30; Byte.x2e; Byte.x31].
Definition lit_mmo : list byte := (* "mmo" *)
  [Byte.x6d; Byte.x6d; Byte.x6f].
Definition lit_mmo_login : list byte := (* "mmo_login" *)
  [Byte.x6d; Byte.x6d; Byte.x6f; Byte.x5f; Byte.x6c; Byte.x6f; Byte.x67; Byte.x69; Byte.x6e].
Definition lit_logs_login : list byte := (* "logs/login" *)
  [Byte.x6c; Byte.x6f; Byte.x67; Byte.x73; Byte.x2f; Byte.x6c; Byte.x6f; Byte.x67; Byte.x69; Byte.x6e].
Definition lit_mmo_web : list byte := (* "mmo-web" *)
  [Byte.x6d; Byte.x6d; Byte.x6f; Byte.x2d; Byte.x77; Byte.x65; Byte.x62].
Definition lit_test : list byte := (* "test" *)
  [Byte.x74; Byte.x65; Byte.x73; Byte.x74].

Definition LoginConfigVersion : Z := 1.

Record t := mk {
  playerPort : Z;
  realmPort : Z;
  maxPlayers : Z;
  maxRealms : Z;
  mysqlPort : Z;
  mysqlHost : list byte;
  mysqlUser : list byte;
  mysqlPassword : list byte;
  mysqlDatabase : list byte;
  isLogActive : bool;
  logFileName : list byte;
  isLogFileBuffering : bool;
  webPort : Z;
  webSSLPort : Z;
  webUser : list byte;
  webPassword : list byte
}.

(** What [save] hands to the writer of simple_file_format, call by call. *)
Inductive value :=
| v_integer (z : Z)
| v_string (s : list byte)
| v_bool (b : bool).

Inductive item :=
| addKey (name : list byte) (v : value)
| newLine
| table (name : list byte) (keys : list (list byte * value)).

Section WithLibraries.

Context {constants : Constants} {sff : Sff}.

(** [Configuration::Configuration()] (lines 16-34) *)
Definition default : t :=
  mk DefaultLoginPlayerPort DefaultLoginRealmPort maxPlayers_max MaxRealmCount
    DefaultMySQLPort lit_127_0_0_1 lit_mmo [] lit_mmo_login
    true lit_logs_login false
    8090 8091 lit_mmo_web lit_test.

(** [static_cast<unsigned>(b)] *)
Definition unsigned_of_bool (b : bool) : Z := if b then 1 else 0.

(** The calls of [Configuration::save] on the writer (lines 162-213). *)
Definition save_items (c : t) : list item :=
  [ addKey k_version (v_integer LoginConfigVersion);
    newLine;
    table k_mysqlDatabase
      [ (k_port, v_integer (mysqlPort c));
        (k_host, v_string (mysqlHost c));
        (k_user, v_string (mysqlUser c));
        (k_password, v_string (mysqlPassword c));
        (k_database, v_string (mysqlDatabase c)) ];
    newLine;
    table k_webServer
      [ (k_port, v_integer (webPort c));
        (k_ssl_port, v_integer (webSSLPort c));
        (k_user, v_string (webUser c));
        (k_password, v_string (webPassword c)) ];
    newLine;
    table k_playerManager
      [ (k_port, v_integer (playerPort c));
        (k_maxCount, v_integer (maxPlayers c)) ];
    newLine;
    table k_realmManager
      [ (k_port, v_integer (realmPort c));
        (k_maxCount, v_integer (maxRealms c)) ];
    newLine;
    table k_log
      [ (k_active, v_integer (unsigned_of_bool (isLogActive c)));
        (k_fileName, v_string (logFileName c));
        (k_buffering, v_bool (isLogFileBuffering c)) ] ].

(** [Configuration::save] (lines 146-216): the result, and the files it
    has written, by name.  [writable] tells for which names the
    [std::ofstream] opens. *)
Definition save (writable : list byte -> bool) (c : t) (fileName : list byte)
  : bool * list (list byte * list item) :=
  if negb (writable fileName) then (false, [])
  else (true, [(fileName, save_items c)]).

(** What opening and parsing the file gives [load]: no file that opens, a
    file on which [sff::loadTableFromFile] throws its [ParseException], or
    the table of the file. *)
Inductive file_state :=
| unreadable
| malformed
| parsed (global : Table).

(** Lines 83-90 *)
Definition load_mysqlDatabase (global : Table) (c : t) : t :=
  match getTable global k_mysqlDatabase with
  | Some mysqlDatabaseTable =>
      mk (playerPort c) (realmPort c) (maxPlayers c) (maxRealms c)
        (getInteger mysqlDatabaseTable k_port (mysqlPort c))
        (getString mysqlDatabaseTable k_host (mysqlHost c))
        (getString mysqlDatabaseTable k_user (mysqlUser c))
        (getString mysqlDatabaseTable k_password (mysqlPassword c))
        (getString mysqlDatabaseTable k_database (mysqlDatabase c))
        (isLogActive c) (logFileName c) (isLogFileBuffering c)
        (webPort c) (webSSLPort c) (webUser c) (webPassword c)
  | None => c
  end.

(** Lines 92-98 *)
Definition load_webServer (global : Table) (c : t) : t :=
  match getTable global k_webServer with
  | Some mysqlDatabaseTable =>
      mk (playerPort c) (realmPort c) (maxPlayers c) (maxRealms c)
        (mysqlPort c) (mysqlHost c) (mysqlUser c) (mysqlPassword c) (mysqlDatabase c)
        (isLogActive c) (logFileName c) (isLogFileBuffering c)
        (getInteger mysqlDatabaseTable k_port (webPort c))
        (getInteger mysqlDatabaseTable k_ssl_port (webSSLPort c))
        (getString mysqlDatabaseTable k_user (webUser c))
        (getString mysqlDatabaseTable k_password (webPassword c))
  | None => c
  end.

(** Lines 100-104 *)
Definition load_playerManager (global : Table) (c : t) : t :=
  match getTable global k_playerManager with
  | Some playerManager =>
      mk (getInteger playerManager k_port (playerPort c)) (realmPort c)
        (getInteger playerManager k_maxCount (maxPlayers c)) (maxRealms c)
        (mysqlPort c) (mysqlHost c) (mysqlUser c) (mysqlPassword c) (mysqlDatabase c)
        (isLogActive c) (logFileName c) (isLogFileBuffering c)
        (webPort c) (webSSLPort c) (webUser c) (webPassword c)
  | None => c
  end.

(** Lines 106-119 *)
Definition load_realmManager (global : Table) (c : t) : t :=
  match getTable global k_realmManager with
  | Some realmManager =>
      let realmPort := getInteger realmManager k_port (realmPort c) in
      let maxRealms := getInteger realmManager k_maxCount (maxRealms c) in
      let maxRealms := if MaxRealmCount <? maxRealms then MaxRealmCount else maxRealms in
      mk (playerPort c) realmPort (maxPlayers c) maxRealms
        (mysqlPort c) (mysqlHost c) (mysqlUser c) (mysqlPassword c) (mysqlDatabase c)
        (isLogActive c) (logFileName c) (isLogFileBuffering c)
        (webPort c) (webSSLPort c) (webUser c) (webPassword c)
  | None => c
  end.

(** Lines 121-126 *)
Definition load_log (global : Table) (c : t) : t :=
  match getTable global k_log with
  | Some log =>
      mk (playerPort c) (realmPort c) (maxPlayers c) (maxRealms c)
        (mysqlPort c) (mysqlHost c) (mysqlUser c) (mysqlPassword c) (mysqlDatabase c)
        (negb (getInteger log k_active (unsigned_of_bool (isLogActive c)) =? 0))
        (getString log k_fileName (logFileName c))
        (negb (getInteger log k_buffering (unsigned_of_bool (isLogFileBuffering c)) =? 0))
        (webPort c) (webSSLPort c) (webUser c) (webPassword c)
  | None => c
  end.

(** [Configuration::load] (lines 36-138): the result, the configuration
    afterwards, and the files written on the way.  Of the calls in the
    [try] block, [sff::loadTableFromFile] is the one that parses. *)
Definition load (writable : list byte -> bool) (c : t) (fileName : list byte)
  (file : file_state) : bool * t * list (list byte * list item) :=
  match file with
  | unreadable => (false, c, snd (save writable c fileName))
  | malformed => (false, c, [])
  | parsed global =>
      (* Read config version *)
      let version_ok :=
        match tryGetInteger global k_version with
        | Some fileVersion => fileVersion =? LoginConfigVersion
        | None => false
        end in
      if negb version_ok
      then (false, c, snd (save writable c (fileName ++ dot_updated)))
      else
        let c := load_mysqlDatabase global c in
        let c := load_webServer global c in
        let c := load_playerManager global c in
        let c := load_realmManager global c in
        let c := load_log global c in
        (true, c, [])
  end.

End WithLibraries.

End Configuration.

(** Libraries to run the definitions with: constants, and a file tree that
    is the list of its integer keys and has no tables. *)
Definition example_constants : Configuration.Constants :=
  {| Configuration.DefaultLoginPlayerPort := 8130;
     Configuration.DefaultLoginRealmPort := 6280;
     Configuration.MaxRealmCount := 255;
     Configuration.DefaultMySQLPort := 3306;
     Configuration.maxPlayers_max := 4294967295 |}.

Definition example_sff : Configuration.Sff :=
  {| Configuration.Table := list (list byte * Z);
     Configuration.getTable := fun _ _ => None;
     Configuration.tryGetInteger := fun t name => KeyMap.find Str.eqb t name;
     Configuration.getInteger := fun t name default =>
       match KeyMap.find Str.eqb t name with Some v => v | None => default end;
     Configuration.getString := fun _ _ default => default |}.

(** * Properties *)

(** ** Conversions *)

Module CastFacts.

Lemma unsigned_small w z : 0 <= z < 2 ^ w -> Cast.unsigned w z = z.
Proof. intros; unfold Cast.unsigned; apply Z.mod_small; assumption. Qed.

Lemma signed_small w z :
  0 < w -> - 2 ^ (w - 1) <= z < 2 ^ (w - 1) -> Cast.signed w z = z.
Proof.
  intros Hw Hz; unfold Cast.signed.
  assert (E : 2 ^ w = 2 * 2 ^ (w - 1)).
  { replace w with (Z.succ (w - 1)) at 1 by lia. apply Z.pow_succ_r; lia. }
  rewrite Z.mod_small by lia. lia.
Qed.

Lemma size_t_small z : 0 <= z < 2 ^ 64 -> Cast.size_t z = z.
Proof. apply unsigned_small. Qed.

Lemma streamoff_small z : 0 <= z < 2 ^ 63 -> Cast.streamoff z = z.
Proof. intros; apply signed_small; simpl; lia. Qed.

Lemma uint32_small z : 0 <= z < 2 ^ 32 -> Cast.uint32 z = z.
Proof. apply unsigned_small. Qed.

Lemma uint16_small z : 0 <= z < 2 ^ 16 -> Cast.uint16 z = z.
Proof. apply unsigned_small. Qed.

End CastFacts.

(** ** The sink *)

Module StreamSinkFacts.

Import OStream.

Lemma write_result s src :
  fst (StreamSink.write s src) = Z.of_nat (length src).
Proof. reflexivity. Qed.

Lemma overwrite_result s pos src :
  fst (StreamSink.overwrite s pos src) = Z.of_nat (length src).
Proof. reflexivity. Qed.

Lemma overwrite_stream s pos src :
  snd (StreamSink.overwrite s pos src) =
  seekp (write (seekp s (Cast.streamoff pos)) src) (tellp s).
Proof. reflexivity. Qed.

(** Once in error state, always in error state. *)
Lemma write_failed s src : failed s = true -> write s src = s.
Proof. intros H; unfold write; rewrite H; reflexivity. Qed.

Lemma seekp_failed s pos : failed s = true -> seekp s pos = s.
Proof. intros H; unfold seekp; rewrite H; reflexivity. Qed.

Lemma write_sticky s src : failed s = true -> failed (write s src) = true.
Proof. intros H; rewrite write_failed; assumption. Qed.


(** What a call of [overwrite] on a good stream does when the position is
    one the stream can seek and the medium takes the bytes. *)
Lemma overwrite_good s pos src :
  failed s = false ->
  0 <= pos < 2 ^ 63 ->
  accepts s (Z.to_nat pos + length src) = true ->
  StreamSink.overwrite s pos src =
  (Z.of_nat (length src),
   mk (put_at (content s) (Z.to_nat pos) src) (pptr s) false (room s)).
Proof.
  intros Hgood Hpos Hroom.
  unfold StreamSink.overwrite, StreamSink.write.
  rewrite CastFacts.streamoff_small by assumption.
  unfold tellp, seekp, write. rewrite Hgood.
  destruct (Z.ltb_spec pos 0) as [Hneg | _]; [lia |].
  cbn [failed pptr content room]. unfold accepts in *.
  cbn [room]. rewrite Hroom. cbn [failed pptr content room].
  destruct (Z.ltb_spec (Z.of_nat (pptr s)) 0) as [Hneg | _]; [lia |].
  rewrite Nat2Z.id. reflexivity.
Qed.

(** Storing at a place within the file, or storing a byte at all. *)
Lemma put_at_stored file pos src :
  (pos <= length file)%nat \/ src <> [] ->
  put_at file pos src
  = firstn pos file ++ repeat Byte.x00 (pos - length file)
      ++ src ++ skipn (pos + length src) file.
Proof.
  intros H. destruct src as [| x src]; [| reflexivity].
  destruct H as [H | H]; [| congruence].
  cbn [put_at length app]. replace (pos - length file)%nat with 0%nat by lia.
  cbn [repeat app]. rewrite Nat.add_0_r, firstn_skipn. reflexivity.
Qed.


Lemma fitting_prefix s src :
  fitting s src = firstn (length (fitting s src)) src.
Proof.
  unfold fitting. destruct (room s) as [limit |].
  - rewrite length_firstn, <- firstn_firstn, firstn_all. reflexivity.
  - rewrite firstn_all. reflexivity.
Qed.

(** Of a write that the medium cuts, a byte is left over. *)
Lemma fitting_cut s src :
  src <> [] -> accepts s (pptr s + length src) = false ->
  (length (fitting s src) < length src)%nat.
Proof.
  unfold accepts, fitting. destruct (room s) as [limit |]; [| discriminate].
  intros Hne H. apply Nat.leb_gt in H. rewrite length_firstn.
  destruct src as [| x src]; [congruence |]. cbn [length] in *. lia.
Qed.

Lemma put_at_end file src : put_at file (length file) src = file ++ src.
Proof.
  rewrite put_at_stored by (left; lia).
  rewrite firstn_all, Nat.sub_diag, skipn_all2 by lia.
  cbn [repeat app]. rewrite app_nil_r. reflexivity.
Qed.

(** In append position, [write] appends. *)
Lemma write_append s src :
  failed s = false ->
  pptr s = length (content s) ->
  accepts s (length (content s) + length src) = true ->
  StreamSink.write s src =
  (Z.of_nat (length src),
   mk (content s ++ src) (length (content s ++ src)) false (room s)).
Proof.
  intros Hgood Hend Hroom.
  unfold StreamSink.write, write. rewrite Hgood, Hend, Hroom.
  rewrite put_at_stored by (left; lia).
  rewrite firstn_all, Nat.sub_diag, skipn_all2 by lia.
  cbn [repeat app]. rewrite app_nil_r, length_app. reflexivity.
Qed.

(** Storing over a region that exists replaces that region only. *)
Lemma put_at_inside (a b c src : list byte) :
  length src = length b ->
  put_at (a ++ b ++ c) (length a) src = a ++ src ++ c.
Proof.
  intros Hlen. rewrite put_at_stored by (left; rewrite length_app; lia).
  rewrite firstn_app, firstn_all, Nat.sub_diag, firstn_O, app_nil_r.
  replace (length a - length (a ++ b ++ c))%nat with 0%nat
    by (rewrite !length_app; lia).
  cbn [repeat app].
  rewrite skipn_app, skipn_all2 by lia.
  replace (length a + length src - length a)%nat with (length b) by lia.
  rewrite skipn_app, skipn_all, Nat.sub_diag, skipn_O. reflexivity.
Qed.

End StreamSinkFacts.

Module PutAtFacts.

Import OStream.

Lemma put_at_length file pos src :
  (pos <= length file)%nat \/ src <> [] ->
  length (put_at file pos src) = Nat.max (length file) (pos + length src).
Proof.
  intros H. rewrite StreamSinkFacts.put_at_stored by exact H.
  rewrite !length_app, length_firstn, repeat_length, length_skipn. lia.
Qed.


End PutAtFacts.







(** C6, the code at a write that does not go through.  For a stream in
    error state, and for a good stream whose medium has no room for all the
    bytes, [write] returns the size it was asked to write although fewer
    bytes were stored: the file holds, at the put position, a head of the
    bytes that is shorter than the bytes (none on a stream in error state),
    and a writer that watches the returned count stays successful. *)
Theorem write_reports_size_when_refused (s : OStream.t) (src : list byte) :
  src <> [] ->
  OStream.failed s = true
  \/ OStream.accepts s (OStream.pptr s + length src) = false ->
  fst (StreamSink.write s src) = Z.of_nat (length src)
  /\ (exists stored,
        (length stored < length src)%nat
        /\ stored = firstn (length stored) src
        /\ OStream.content (snd (StreamSink.write s src))
           = OStream.put_at (OStream.content s) (OStream.pptr s) stored)
  /\ Writer.success (Writer.put (Writer.over s) src) = true.
Proof.
  intros Hne Hrefused. split; [reflexivity | split].
  - unfold StreamSink.write. cbn [snd]. unfold OStream.write.
    destruct (OStream.failed s) eqn:Hs.
    + exists []. destruct src as [| x src]; [congruence |].
      cbn [length firstn OStream.put_at]. repeat split. lia.
    + destruct Hrefused as [Hf | Hacc]; [discriminate |].
      rewrite Hacc. cbv zeta. cbn [OStream.content].
      exists (OStream.fitting s src). split; [| split].
      * apply StreamSinkFacts.fitting_cut; assumption.
      * apply StreamSinkFacts.fitting_prefix.
      * reflexivity.
  - unfold Writer.put, Writer.over. cbn [Writer.success Writer.sink].
    unfold StreamSink.write. cbn [Writer.success]. apply Z.eqb_refl.
Qed.

Lemma write_reports_size_when_refused_witness :
  let s := OStream.mk [Byte.x0a; Byte.x0b] 2 false (Some 3%nat) in
  let src := [Byte.x01; Byte.x02; Byte.x03; Byte.x04] in
  fst (StreamSink.write s src) = 4
  /\ (exists stored,
        (length stored < 4)%nat
        /\ stored = firstn (length stored) src
        /\ OStream.content (snd (StreamSink.write s src))
           = OStream.put_at [Byte.x0a; Byte.x0b] 2 stored)
  /\ Writer.success (Writer.put (Writer.over s) src) = true.
Proof.
  apply (write_reports_size_when_refused
           (OStream.mk [Byte.x0a; Byte.x0b] 2 false (Some 3%nat))
           [Byte.x01; Byte.x02; Byte.x03; Byte.x04]).
  - discriminate.
  - right. reflexivity.
Defined.

(** ** The reader *)

Module ReaderFacts.

Import Reader.

(** The primitive, as a function of the bytes that remain. *)
Lemma fetch_spec data c ok n :
  fetch (mk (Source.mk data c) ok) n =
  if ok && (c + n <=? length data)%nat
  then (Some (slice data c n), mk (Source.mk data (c + n)) true)
  else (None, mk (Source.mk data c) false).
Proof.
  unfold fetch, Source.read. cbn [success source Source.cursor Source.data].
  destruct ok; cbn [andb]; [| reflexivity].
  destruct (c + n <=? length data)%nat; reflexivity.
Qed.

Lemma get_spec T data c ok dest :
  get T (mk (Source.mk data c) ok) dest =
  if ok && (c + sizeof T <=? length data)%nat
  then (mk (Source.mk data (c + sizeof T)) true, decode T (slice data c (sizeof T)))
  else (mk (Source.mk data c) false, dest).
Proof.
  unfold get. rewrite fetch_spec.
  destruct (ok && (c + sizeof T <=? length data)%nat); reflexivity.
Qed.

Lemma skip_spec T data c ok :
  skip T (mk (Source.mk data c) ok) =
  if ok && (c + sizeof T <=? length data)%nat
  then mk (Source.mk data (c + sizeof T)) true
  else mk (Source.mk data c) false.
Proof.
  unfold skip. rewrite fetch_spec.
  destruct (ok && (c + sizeof T <=? length data)%nat); reflexivity.
Qed.

Lemma read_into_spec {D} T (store : Z -> D -> D) data c ok d :
  read_into T store (mk (Source.mk data c) ok, d) =
  if ok && (c + sizeof T <=? length data)%nat
  then (mk (Source.mk data (c + sizeof T)) true,
        store (decode T (slice data c (sizeof T))) d)
  else (mk (Source.mk data c) false, d).
Proof.
  unfold read_into. cbn [fst snd]. rewrite fetch_spec.
  destruct (ok && (c + sizeof T <=? length data)%nat); reflexivity.
Qed.

(** On a reader that has failed, every operation is a no-op. *)
Lemma fetch_failed r n : success r = false -> fetch r n = (None, r).
Proof. intros H; unfold fetch; rewrite H; reflexivity. Qed.

Lemma get_failed T r dest : success r = false -> get T r dest = (r, dest).
Proof. intros H; unfold get; rewrite fetch_failed by assumption; reflexivity. Qed.

Lemma skip_failed T r : success r = false -> skip T r = r.
Proof. intros H; unfold skip; rewrite fetch_failed by assumption; reflexivity. Qed.

Lemma read_into_failed {D} T (store : Z -> D -> D) st :
  success (fst st) = false -> read_into T store st = st.
Proof.
  intros H; unfold read_into; rewrite fetch_failed by assumption.
  destruct st; reflexivity.
Qed.

Lemma read_slots_failed {D} T (store : nat -> Z -> D -> D) slots st :
  success (fst st) = false -> read_slots T store slots st = st.
Proof.
  unfold read_slots. induction slots as [| i slots IH]; intros H; cbn [fold_left].
  - reflexivity.
  - rewrite read_into_failed by assumption. apply IH; assumption.
Qed.

Lemma step_failed {D} (f : field D) st :
  success (fst st) = false -> step f st = st.
Proof.
  intros H. destruct f as [T store | T | T size store]; cbn [step].
  - apply read_into_failed; assumption.
  - rewrite skip_failed by assumption. destruct st; reflexivity.
  - apply read_slots_failed; assumption.
Qed.

Lemma chain_failed {D} (fs : list (field D)) st :
  success (fst st) = false -> chain fs st = st.
Proof.
  unfold chain. induction fs as [| f fs IH]; intros H; cbn [fold_left].
  - reflexivity.
  - rewrite step_failed by assumption. apply IH; assumption.
Qed.

Lemma chain_app {D} (fs gs : list (field D)) st :
  chain (fs ++ gs) st = chain gs (chain fs st).
Proof. unfold chain. apply fold_left_app. Qed.

Lemma chain_snoc {D} (pre : list (field D)) op post st :
  chain (pre ++ op :: post) st = chain post (chain (pre ++ [op]) st).
Proof.
  rewrite <- chain_app, <- app_assoc. reflexivity.
Qed.

(** A chain has failed exactly when one of its steps has left the reader
    failed. *)
Lemma chain_fails_iff {D} (fs : list (field D)) st :
  fs <> [] ->
  success (fst (chain fs st)) = false <->
  exists pre op post,
    fs = pre ++ op :: post /\ success (fst (chain (pre ++ [op]) st)) = false.
Proof.
  intros Hne. split.
  - intros Hfail. destruct (exists_last Hne) as (pre & op & E).
    exists pre, op, []. subst fs. split; [reflexivity | assumption].
  - intros (pre & op & post & E & Hfail). subst fs.
    rewrite chain_snoc, chain_failed; assumption.
Qed.

End ReaderFacts.

(** C3.  In a chain of reader operations, once an operation has left the
    reader failed, the operations after it change nothing: after any number
    of them the destinations and the source, cursor included, are as that
    operation left them, and the chain as a whole reports failure. *)
Theorem reader_chain_short_circuit {D : Type}
  (pre : list (Reader.field D)) (op : Reader.field D)
  (post : list (Reader.field D)) (st : Reader.t * D) :
  Reader.success (fst (Reader.chain (pre ++ [op]) st)) = false ->
  (forall n, Reader.chain (pre ++ op :: firstn n post) st
             = Reader.chain (pre ++ [op]) st)
  /\ Reader.success (fst (Reader.chain (pre ++ op :: post) st)) = false.
Proof.
  intros Hfail. split.
  - intros n. rewrite ReaderFacts.chain_snoc.
    apply ReaderFacts.chain_failed; assumption.
  - rewrite ReaderFacts.chain_snoc, ReaderFacts.chain_failed; assumption.
Qed.

Lemma reader_chain_short_circuit_witness :
  let st := (Reader.over (Source.over [Byte.x07; Byte.x01]),
             mkHeader 0 0 false 0 0 [] []) in
  let pre := [Reader.read U8 set_compression] in
  let op := Reader.read U16 set_width in
  let post := [Reader.read U8 set_hasMips; Reader.skip_field U32] in
  (forall n, Reader.chain (pre ++ op :: firstn n post) st
             = Reader.chain (pre ++ [op]) st)
  /\ Reader.success (fst (Reader.chain (pre ++ op :: post) st)) = false.
Proof.
  apply (reader_chain_short_circuit
           [Reader.read U8 set_compression] (Reader.read U16 set_width)
           [Reader.read U8 set_hasMips; Reader.skip_field U32]
           (Reader.over (Source.over [Byte.x07; Byte.x01]),
            mkHeader 0 0 false 0 0 [] [])).
  reflexivity.
Defined.

(** ** Ranges *)

Module RangeFacts.

Import Reader.

Lemma decode_range_length T count bs : length (decode_range T count bs) = count.
Proof.
  revert bs; induction count as [| k IH]; intros bs; cbn [decode_range length].
  - reflexivity.
  - rewrite IH; reflexivity.
Qed.

(** A range that fits is read whole: the elements are stored slot by
    slot, from the bytes at the cursor on. *)
Lemma read_slots_ok {D} T (store : nat -> Z -> D -> D) data k :
  forall i c d,
    (c + k * sizeof T <= length data)%nat ->
    read_slots T store (seq i k) (mk (Source.mk data c) true, d) =
    (mk (Source.mk data (c + k * sizeof T)) true,
     fold_left (fun d jv => store (fst jv) (snd jv) d)
       (combine (seq i k) (decode_range T k (skipn c data))) d).
Proof.
  induction k as [| k IH]; intros i c d Hfit.
  - cbn. rewrite Nat.add_0_r. reflexivity.
  - cbn [seq decode_range combine fold_left fst snd]. unfold read_slots in *.
    cbn [fold_left]. rewrite ReaderFacts.read_into_spec. cbn [andb].
    destruct (Nat.leb_spec (c + sizeof T) (length data)) as [_ | Hshort];
      [| cbn in Hshort, Hfit; lia].
    rewrite IH by (cbn in Hfit |- *; lia).
    rewrite skipn_skipn, (Nat.add_comm (sizeof T) c).
    unfold slice. do 3 f_equal. cbn; lia.
Qed.

(** A range that does not fit leaves the reader failed. *)
Lemma read_slots_short {D} T (store : nat -> Z -> D -> D) data slots :
  forall c ok d,
    (c <= length data)%nat ->
    (length data < c + length slots * sizeof T)%nat ->
    success (fst (read_slots T store slots (mk (Source.mk data c) ok, d))) = false.
Proof.
  unfold read_slots.
  induction slots as [| i slots IH]; intros c ok d Hin Hshort; cbn [fold_left].
  - cbn in Hshort; lia.
  - rewrite ReaderFacts.read_into_spec.
    destruct ok; cbn [andb].
    + destruct (Nat.leb_spec (c + sizeof T) (length data)) as [Hfit | Hno].
      * apply IH; [assumption | cbn in Hshort |- *; lia].
      * fold (read_slots T store slots (mk (Source.mk data c) false, d)).
        rewrite ReaderFacts.read_slots_failed; reflexivity.
    + fold (read_slots T store slots (mk (Source.mk data c) false, d)).
      rewrite ReaderFacts.read_slots_failed; reflexivity.
Qed.

Lemma assign_app done v x todo :
  assign (length done) v (done ++ x :: todo) = done ++ v :: todo.
Proof.
  induction done as [| y done IH]; cbn [length app assign].
  - reflexivity.
  - rewrite IH; reflexivity.
Qed.

(** Storing values slot by slot into an array held by a record. *)
Lemma fold_store_array {D} (get : D -> list Z) (put : list Z -> D -> D)
  (store : nat -> Z -> D -> D) :
  (forall j v d, store j v d = put (assign j v (get d)) d) ->
  (forall a d, get (put a d) = a) ->
  (forall a b d, put a (put b d) = put a d) ->
  (forall d, put (get d) d = d) ->
  forall vs done todo d,
    get d = done ++ todo ->
    length todo = length vs ->
    fold_left (fun d jv => store (fst jv) (snd jv) d)
      (combine (seq (length done) (length vs)) vs) d
    = put (done ++ vs) d.
Proof.
  intros Hstore Hgp Hpp Hpg.
  induction vs as [| v vs IH]; intros done todo d Hd Hlen.
  - destruct todo; [| discriminate]. cbn [length seq combine fold_left].
    rewrite <- Hd. symmetry; apply Hpg.
  - destruct todo as [| x todo]; [discriminate |].
    cbn [length seq combine fold_left fst snd].
    rewrite Hstore, Hd, assign_app.
    replace (S (length done)) with (length (done ++ [v]))
      by (rewrite length_app; cbn; lia).
    rewrite (IH (done ++ [v]) todo).
    + rewrite Hpp, <- app_assoc. reflexivity.
    + rewrite Hgp, <- app_assoc. reflexivity.
    + cbn in Hlen; lia.
Qed.

Lemma store_offsets n vs h :
  length vs = n ->
  length (mipmapOffsets h) = n ->
  fold_left (fun d jv => set_mipmapOffset (fst jv) (snd jv) d)
    (combine (seq 0 n) vs) h
  = put_offsets vs h.
Proof.
  intros Hvs Hlen. subst n.
  apply (fold_store_array mipmapOffsets put_offsets set_mipmapOffset)
    with (done := []) (todo := mipmapOffsets h);
    try reflexivity; try assumption.
  intros d; destruct d; reflexivity.
Qed.

Lemma store_lengths n vs h :
  length vs = n ->
  length (mipmapLengths h) = n ->
  fold_left (fun d jv => set_mipmapLength (fst jv) (snd jv) d)
    (combine (seq 0 n) vs) h
  = put_lengths vs h.
Proof.
  intros Hvs Hlen. subst n.
  apply (fold_store_array mipmapLengths put_lengths set_mipmapLength)
    with (done := []) (todo := mipmapLengths h);
    try reflexivity; try assumption.
  intros d; destruct d; reflexivity.
Qed.

End RangeFacts.

(** ** Loading a header *)

Section LoadFacts.

Context {fmt : TexFormat}.

Lemma chain_cons {D} (f : Reader.field D) fs st :
  Reader.chain (f :: fs) st = Reader.chain fs (Reader.step f st).
Proof. reflexivity. Qed.

Lemma step_read_ok {D} T (store : Z -> D -> D) data c d :
  (c + sizeof T <= length data)%nat ->
  Reader.step (Reader.read T store) (Reader.mk (Source.mk data c) true, d) =
  (Reader.mk (Source.mk data (c + sizeof T)) true,
   store (decode T (slice data c (sizeof T))) d).
Proof.
  intros Hfit. cbn [Reader.step]. rewrite ReaderFacts.read_into_spec.
  cbn [andb]. destruct (Nat.leb_spec (c + sizeof T) (length data)); [reflexivity | lia].
Qed.

Lemma step_read_short {D} T (store : Z -> D -> D) data c ok d :
  (length data < c + sizeof T)%nat ->
  Reader.step (Reader.read T store) (Reader.mk (Source.mk data c) ok, d) =
  (Reader.mk (Source.mk data c) false, d).
Proof.
  intros Hshort. cbn [Reader.step]. rewrite ReaderFacts.read_into_spec.
  destruct (Nat.leb_spec (c + sizeof T) (length data)); [lia |].
  rewrite andb_false_r. reflexivity.
Qed.

Lemma step_range_ok {D} T (size : D -> nat) (store : nat -> Z -> D -> D) data c d :
  (c + size d * sizeof T <= length data)%nat ->
  Reader.step (Reader.read_range T size store) (Reader.mk (Source.mk data c) true, d) =
  (Reader.mk (Source.mk data (c + size d * sizeof T)) true,
   fold_left (fun d jv => store (fst jv) (snd jv) d)
     (combine (seq 0 (size d)) (decode_range T (size d) (skipn c data))) d).
Proof.
  intros Hfit. cbn [Reader.step snd]. apply RangeFacts.read_slots_ok; assumption.
Qed.

Lemma step_range_short {D} T (size : D -> nat) (store : nat -> Z -> D -> D)
  data c ok d :
  (c <= length data)%nat ->
  (length data < c + size d * sizeof T)%nat ->
  Reader.success
    (fst (Reader.step (Reader.read_range T size store)
            (Reader.mk (Source.mk data c) ok, d))) = false.
Proof.
  intros Hin Hshort. cbn [Reader.step snd].
  apply RangeFacts.read_slots_short; [assumption | rewrite length_seq; assumption].
Qed.

Lemma loadHeader_fits (h : Header) (data : list byte) (c : nat) :
  length (mipmapOffsets h) = MipCount ->
  length (mipmapLengths h) = MipCount ->
  (c + header_v1_size <= length data)%nat ->
  loadHeader h (Reader.mk (Source.mk data c) true) =
  (true, header_at (version h) data c,
   Reader.mk (Source.mk data (c + header_v1_size)) true).
Proof.
  intros Ho Hl Hfit. unfold header_v1_size in *.
  unfold loadHeader, loadHeader_fields.
  rewrite chain_cons, step_read_ok by (cbn [sizeof]; lia).
  rewrite chain_cons, step_read_ok by (cbn [sizeof]; lia).
  rewrite chain_cons, step_read_ok by (cbn [sizeof]; lia).
  rewrite chain_cons, step_read_ok by (cbn [sizeof]; lia).
  rewrite chain_cons, step_range_ok
    by (cbn [sizeof set_height set_width set_hasMips set_compression mipmapOffsets];
        rewrite Ho; lia).
  cbn [set_height set_width set_hasMips set_compression mipmapOffsets]. rewrite Ho.
  rewrite (RangeFacts.store_offsets MipCount)
    by (try apply RangeFacts.decode_range_length; exact Ho).
  rewrite chain_cons, step_range_ok
    by (cbn [sizeof set_height set_width set_hasMips set_compression put_offsets
               mipmapLengths]; rewrite Hl; lia).
  cbn [set_height set_width set_hasMips set_compression put_offsets mipmapLengths].
  rewrite Hl.
  rewrite (RangeFacts.store_lengths MipCount)
    by (try apply RangeFacts.decode_range_length; exact Hl).
  cbn [Reader.chain fold_left Reader.success].
  unfold header_at, put_lengths, put_offsets.
  cbn [set_height set_width set_hasMips set_compression
         version compression hasMips width height mipmapOffsets mipmapLengths sizeof].
  replace (c + 1 + 1 + 2 + 2 + MipCount * 4 + MipCount * 4)%nat
    with (c + (6 + 4 * MipCount + 4 * MipCount))%nat by lia.
  replace (c + 1 + 1 + 2 + 2 + MipCount * 4)%nat
    with (c + 6 + 4 * MipCount)%nat by lia.
  replace (c + 1 + 1 + 2 + 2)%nat with (c + 6)%nat by lia.
  replace (c + 1 + 1 + 2)%nat with (c + 4)%nat by lia.
  replace (c + 1 + 1)%nat with (c + 2)%nat by lia.
  reflexivity.
Qed.

Lemma loadHeader_result (h : Header) (r : Reader.t) :
  fst (fst (loadHeader h r))
  = Reader.success (fst (Reader.chain loadHeader_fields (r, h))).
Proof.
  unfold loadHeader. destruct (Reader.chain loadHeader_fields (r, h)).
  reflexivity.
Qed.

Local Ltac scalar_step c data n :=
  rewrite chain_cons;
  destruct (Nat.le_gt_cases (c + n) (length data)) as [? | ?];
  [ rewrite step_read_ok by (cbn [sizeof]; lia)
  | rewrite step_read_short by (cbn [sizeof]; lia);
    rewrite ReaderFacts.chain_failed; reflexivity ].

Lemma loadHeader_short (h : Header) (data : list byte) (c : nat) :
  length (mipmapOffsets h) = MipCount ->
  length (mipmapLengths h) = MipCount ->
  (length data < c + header_v1_size)%nat ->
  fst (fst (loadHeader h (Reader.mk (Source.mk data c) true))) = false.
Proof.
  intros Ho Hl Hshort. unfold header_v1_size in *.
  rewrite loadHeader_result. unfold loadHeader_fields.
  scalar_step c data 1%nat.
  scalar_step c data 2%nat.
  scalar_step c data 4%nat.
  scalar_step c data 6%nat.
  rewrite chain_cons.
  destruct (Nat.le_gt_cases (c + 6 + 4 * MipCount) (length data)) as [Hr | Hr].
  - rewrite step_range_ok
      by (cbn [sizeof set_height set_width set_hasMips set_compression mipmapOffsets];
          rewrite Ho; lia).
    cbn [set_height set_width set_hasMips set_compression mipmapOffsets].
    rewrite Ho.
    rewrite (RangeFacts.store_offsets MipCount)
      by (try apply RangeFacts.decode_range_length; exact Ho).
    rewrite chain_cons. cbn [Reader.chain fold_left].
    apply step_range_short;
      cbn [sizeof set_height set_width set_hasMips set_compression put_offsets
             mipmapLengths]; rewrite ?Hl; lia.
  - rewrite ReaderFacts.chain_failed; [| apply step_range_short];
      [ apply step_range_short | |];
      cbn [sizeof set_height set_width set_hasMips set_compression mipmapOffsets];
      rewrite ?Ho; lia.
Qed.

End LoadFacts.

(** C7.  On a reader that has not failed, standing at byte [c],
    [loadHeader] succeeds exactly when the bytes of a whole header remain,
    and then the header holds compression (1 byte), hasMips (1 byte), width
    (2 bytes), height (2 bytes), the offsets and then the lengths
    ([MipCount] times 4 bytes each), decoded in that order from [c] on, and
    the cursor stands after them; it returns false exactly when some step of
    its chain leaves the reader failed. *)
Theorem loadHeader_decodes_in_order {fmt : TexFormat}
  (h : Header) (data : list byte) (c : nat) :
  length (mipmapOffsets h) = MipCount ->
  length (mipmapLengths h) = MipCount ->
  (if (c + header_v1_size <=? length data)%nat
   then loadHeader h (Reader.mk (Source.mk data c) true)
        = (true, header_at (version h) data c,
           Reader.mk (Source.mk data (c + header_v1_size)) true)
   else fst (fst (loadHeader h (Reader.mk (Source.mk data c) true))) = false)
  /\ (fst (fst (loadHeader h (Reader.mk (Source.mk data c) true))) = false <->
      exists pre op post,
        loadHeader_fields = pre ++ op :: post
        /\ Reader.success
             (fst (Reader.chain (pre ++ [op])
                     (Reader.mk (Source.mk data c) true, h))) = false).
Proof.
  intros Ho Hl. split.
  - destruct (Nat.leb_spec (c + header_v1_size) (length data)).
    + apply loadHeader_fits; assumption.
    + apply loadHeader_short; assumption.
  - rewrite loadHeader_result. apply ReaderFacts.chain_fails_iff.
    discriminate.
Qed.

Lemma loadHeader_decodes_in_order_witness :
  let data := [Byte.x00; Byte.x01; Byte.x00; Byte.x01; Byte.x00; Byte.x01;
               Byte.x16; Byte.x00; Byte.x00; Byte.x00;
               Byte.x00; Byte.x00; Byte.x00; Byte.x00;
               Byte.x03; Byte.x00; Byte.x00; Byte.x00;
               Byte.x00; Byte.x00; Byte.x00; Byte.x00;
               Byte.x1e; Byte.x14; Byte.x0a] in
  let h := @Header_new example_format 256 in
  loadHeader h (Reader.mk (Source.mk data 0) true)
  = (true, mkHeader 256 0 true 256 256 [22; 0] [3; 0],
     Reader.mk (Source.mk data 22) true)
  /\ (fst (fst (loadHeader h (Reader.mk (Source.mk data 0) true))) = false <->
      exists pre op post,
        loadHeader_fields = pre ++ op :: post
        /\ Reader.success
             (fst (Reader.chain (pre ++ [op])
                     (Reader.mk (Source.mk data 0) true, h))) = false).
Proof.
  exact (@loadHeader_decodes_in_order example_format
           (@Header_new example_format 256)
           [Byte.x00; Byte.x01; Byte.x00; Byte.x01; Byte.x00; Byte.x01;
            Byte.x16; Byte.x00; Byte.x00; Byte.x00;
            Byte.x00; Byte.x00; Byte.x00; Byte.x00;
            Byte.x03; Byte.x00; Byte.x00; Byte.x00;
            Byte.x00; Byte.x00; Byte.x00; Byte.x00;
            Byte.x1e; Byte.x14; Byte.x0a] 0%nat eq_refl eq_refl).
Defined.

(** ** Encoding and decoding *)

Module CodecFacts.

Lemma encode_length T v : length (encode T v) = sizeof T.
Proof. apply length_le_split. Qed.

Lemma encode_range_length T vs :
  length (encode_range T vs) = (length vs * sizeof T)%nat.
Proof.
  unfold encode_range. induction vs as [| v vs IH]; cbn [flat_map length].
  - reflexivity.
  - rewrite length_app, encode_length, IH. lia.
Qed.

Lemma decode_encode_U8 v : 0 <= v < 2 ^ 8 -> decode U8 (encode U8 v) = v.
Proof.
  intros H. unfold decode, encode. rewrite le_combine_split.
  apply Z.mod_small. exact H.
Qed.

Lemma decode_encode_U16 v : 0 <= v < 2 ^ 16 -> decode U16 (encode U16 v) = v.
Proof.
  intros H. unfold decode, encode. rewrite le_combine_split.
  apply Z.mod_small. exact H.
Qed.

Lemma decode_encode_U32 v : 0 <= v < 2 ^ 32 -> decode U32 (encode U32 v) = v.
Proof.
  intros H. unfold decode, encode. rewrite le_combine_split.
  apply Z.mod_small. exact H.
Qed.

Lemma firstn_prefix {A} (a b : list A) n : length a = n -> firstn n (a ++ b) = a.
Proof.
  intros <-. rewrite firstn_app, Nat.sub_diag, firstn_O, app_nil_r.
  apply firstn_all.
Qed.

Lemma skipn_prefix {A} (a b : list A) n : length a = n -> skipn n (a ++ b) = b.
Proof.
  intros <-. rewrite skipn_app, Nat.sub_diag, skipn_all. reflexivity.
Qed.

Lemma skipn_split {A} (pre rest data : list A) n :
  data = pre ++ rest -> n = length pre -> skipn n data = rest.
Proof. intros -> ->. apply skipn_prefix; reflexivity. Qed.

Lemma slice_split (pre piece rest data : list byte) pos n :
  data = pre ++ piece ++ rest -> pos = length pre -> n = length piece ->
  slice data pos n = piece.
Proof.
  intros -> -> ->. unfold slice.
  rewrite skipn_prefix by reflexivity. apply firstn_prefix; reflexivity.
Qed.

Lemma decode_range_encode_range vs rest :
  Forall (fun v => 0 <= v < 2 ^ 32) vs ->
  decode_range U32 (length vs) (encode_range U32 vs ++ rest) = vs.
Proof.
  induction 1 as [| v vs Hv _ IH]; cbn [length decode_range encode_range flat_map].
  - reflexivity.
  - rewrite <- app_assoc.
    rewrite firstn_prefix by apply encode_length.
    rewrite skipn_prefix by apply encode_length.
    rewrite decode_encode_U32 by assumption.
    fold (encode_range U32 vs). rewrite IH. reflexivity.
Qed.

End CodecFacts.

(** ** Saving and loading *)

Section SaveFacts.

Context {fmt : TexFormat}.

Lemma header_bytes_length h o l :
  length o = MipCount -> length l = MipCount ->
  length (header_bytes h o l) = header_size.
Proof.
  intros Ho Hl. unfold header_bytes, header_size.
  rewrite !length_app, !CodecFacts.encode_length, !CodecFacts.encode_range_length.
  rewrite Ho, Hl. cbn [sizeof]. lia.
Qed.

(** The [--info] branch reads back what the layout holds. *)
Lemma main_info_header_bytes (h : Header) (o l : list Z) (payload : list byte) :
  version h = Version_1_0 ->
  0 <= Version_1_0 < 2 ^ 32 ->
  0 <= compression h < 2 ^ 8 ->
  0 <= width h < 2 ^ 16 ->
  0 <= height h < 2 ^ 16 ->
  length o = MipCount -> length l = MipCount ->
  Forall (fun v => 0 <= v < 2 ^ 32) o ->
  Forall (fun v => 0 <= v < 2 ^ 32) l ->
  main_info (header_bytes h o l ++ payload)
  = (0, Some (put_lengths l (put_offsets o h))).
Proof.
  intros Hv HV Hc Hw Hh Ho Hl Fo Fl.
  pose proof (header_bytes_length h o l Ho Hl) as Hsize.
  unfold header_size in Hsize.
  set (data := header_bytes h o l ++ payload).
  assert (Hdata : (length magic + 4 + header_v1_size <= length data)%nat).
  { subst data. rewrite length_app, Hsize. unfold header_v1_size. lia. }
  assert (Edata : data = header_bytes h o l ++ payload) by reflexivity.
  unfold header_bytes in Edata. rewrite <- !app_assoc in Edata.
  unfold main_info, loadPreHeader, Reader.over, Source.over.
  rewrite ReaderFacts.fetch_spec. cbn [andb].
  destruct (Nat.leb_spec (0 + length magic) (length data)) as [_ | Hno];
    [| unfold header_v1_size in Hdata; lia].
  rewrite ReaderFacts.get_spec. cbn [andb].
  destruct (Nat.leb_spec (0 + length magic + sizeof U32) (length data)) as [_ | Hno];
    [| unfold header_v1_size in Hdata; cbn [sizeof] in Hno; lia].
  rewrite (CodecFacts.slice_split [] magic _ data 0 (length magic) Edata eq_refl eq_refl).
  rewrite (CodecFacts.slice_split magic (encode U32 (version h)) _ data
             (0 + length magic) (sizeof U32) Edata eq_refl)
    by (rewrite CodecFacts.encode_length; reflexivity).
  rewrite CodecFacts.decode_encode_U32 by (rewrite Hv; assumption).
  destruct (list_eq_dec Byte.byte_eq_dec magic magic) as [_ | Hne];
    [| contradiction].
  cbn [Reader.success pre_version andb]. rewrite Hv, Z.eqb_refl. cbn [negb].
  rewrite loadHeader_fits;
    [ | apply repeat_length | apply repeat_length
      | cbn [Source.data sizeof]; lia ].
  cbn [negb]. do 2 f_equal.
  unfold header_at, put_lengths, put_offsets, Header_new.
  cbn [version compression hasMips width height mipmapOffsets mipmapLengths sizeof].
  rewrite (CodecFacts.slice_split
             (magic ++ encode U32 (version h))
             (encode U8 (compression h)) _ data _ 1)
    by (rewrite <- ?app_assoc, ?length_app, ?CodecFacts.encode_length;
        first [exact Edata | reflexivity]).
  rewrite (CodecFacts.slice_split
             (magic ++ encode U32 (version h) ++ encode U8 (compression h))
             (encode U8 (if hasMips h then 1 else 0)) _ data _ 1)
    by (rewrite <- ?app_assoc, ?length_app, ?CodecFacts.encode_length;
        first [exact Edata | reflexivity | cbn [sizeof]; lia]).
  rewrite (CodecFacts.slice_split
             (magic ++ encode U32 (version h) ++ encode U8 (compression h)
                ++ encode U8 (if hasMips h then 1 else 0))
             (encode U16 (width h)) _ data _ 2)
    by (rewrite <- ?app_assoc, ?length_app, ?CodecFacts.encode_length;
        first [exact Edata | reflexivity | cbn [sizeof]; lia]).
  rewrite (CodecFacts.slice_split
             (magic ++ encode U32 (version h) ++ encode U8 (compression h)
                ++ encode U8 (if hasMips h then 1 else 0) ++ encode U16 (width h))
             (encode U16 (height h)) _ data _ 2)
    by (rewrite <- ?app_assoc, ?length_app, ?CodecFacts.encode_length;
        first [exact Edata | reflexivity | cbn [sizeof]; lia]).
  rewrite (CodecFacts.skipn_split
             (magic ++ encode U32 (version h) ++ encode U8 (compression h)
                ++ encode U8 (if hasMips h then 1 else 0) ++ encode U16 (width h)
                ++ encode U16 (height h))
             (encode_range U32 o ++ encode_range U32 l ++ payload) data)
    by (rewrite <- ?app_assoc, ?length_app, ?CodecFacts.encode_length;
        first [exact Edata | cbn [sizeof]; lia]).
  rewrite (CodecFacts.skipn_split
             (magic ++ encode U32 (version h) ++ encode U8 (compression h)
                ++ encode U8 (if hasMips h then 1 else 0) ++ encode U16 (width h)
                ++ encode U16 (height h) ++ encode_range U32 o)
             (encode_range U32 l ++ payload) data)
    by (rewrite <- ?app_assoc, ?length_app, ?CodecFacts.encode_length,
          ?CodecFacts.encode_range_length, ?Ho;
        first [exact Edata | cbn [sizeof]; lia]).
  rewrite <- Ho at 1. rewrite <- Hl at 1.
  rewrite !CodecFacts.decode_range_encode_range by assumption.
  rewrite CodecFacts.decode_encode_U8 by assumption.
  rewrite CodecFacts.decode_encode_U8 by (destruct (hasMips h); lia).
  rewrite !CodecFacts.decode_encode_U16 by assumption.
  rewrite Hv. f_equal. destruct (hasMips h); reflexivity.
Qed.

Lemma accepts_roomy room bytes n m :
  roomy room m -> (n <= m)%nat -> OStream.accepts (appended room bytes) n = true.
Proof.
  unfold roomy, OStream.accepts, appended. cbn [OStream.room].
  destruct room as [limit |]; [| reflexivity].
  intros H1 H2. apply Nat.leb_le. lia.
Qed.

Lemma write_appended room bytes src m :
  roomy room m -> (length bytes + length src <= m)%nat ->
  StreamSink.write (appended room bytes) src
  = (Z.of_nat (length src), appended room (bytes ++ src)).
Proof.
  intros Hroom Hfit.
  rewrite StreamSinkFacts.write_append;
    [reflexivity | reflexivity | reflexivity |].
  cbn [appended OStream.content]. apply (accepts_roomy room bytes _ m); assumption.
Qed.

Lemma put_appended room bytes bs m :
  roomy room m -> (length bytes + length bs <= m)%nat ->
  Writer.put (Writer.mk (appended room bytes) true) bs
  = Writer.mk (appended room (bytes ++ bs)) true.
Proof.
  intros Hroom Hfit. unfold Writer.put. cbn [Writer.success Writer.sink].
  rewrite (write_appended room bytes bs m) by assumption.
  rewrite Z.eqb_refl. reflexivity.
Qed.

Lemma write_range_appended room T vs m :
  roomy room m ->
  forall bytes,
    (length bytes + length vs * sizeof T <= m)%nat ->
    Writer.write_range T vs (Writer.mk (appended room bytes) true)
    = Writer.mk (appended room (bytes ++ encode_range T vs)) true.
Proof.
  intros Hroom. unfold Writer.write_range, Writer.write.
  induction vs as [| v vs IH]; intros bytes Hfit; cbn [fold_left encode_range flat_map].
  - rewrite app_nil_r. reflexivity.
  - rewrite (put_appended room bytes _ m)
      by (try assumption; rewrite CodecFacts.encode_length; cbn [length] in Hfit; lia).
    rewrite IH
      by (rewrite length_app, CodecFacts.encode_length; cbn [length] in Hfit; lia).
    rewrite <- app_assoc. reflexivity.
Qed.

Lemma position_appended room bytes :
  Z.of_nat (length bytes) < 2 ^ 64 ->
  StreamSink.position (appended room bytes) = Z.of_nat (length bytes).
Proof.
  intros H. unfold StreamSink.position, OStream.tellp, appended.
  cbn [OStream.failed OStream.pptr]. apply CastFacts.size_t_small. lia.
Qed.

(** The saver on a fresh file: the header with zero placeholders, and the
    positions of the two ranges. *)
Lemma HeaderSaver_new_fresh room h m :
  roomy room m -> (header_size <= m)%nat -> Z.of_nat header_size < 2 ^ 64 ->
  HeaderSaver_new (OStream.fresh room) h
  = (mkHeaderSaver (Z.of_nat (length magic + 10))
       (Z.of_nat (length magic + 10 + 4 * MipCount)),
     appended room (header_bytes h (repeat 0 MipCount) (repeat 0 MipCount))).
Proof.
  intros Hroom Hfit H64. unfold header_size in *.
  unfold HeaderSaver_new, Writer.over, Writer.write.
  change (OStream.fresh room) with (appended room []).
  repeat (rewrite (put_appended room _ _ m)
            by (try assumption; rewrite ?length_app, ?CodecFacts.encode_length;
                cbn [length sizeof]; lia)).
  cbn [Writer.sink].
  rewrite position_appended
    by (rewrite ?length_app, ?CodecFacts.encode_length; cbn [length sizeof]; lia).
  rewrite (write_range_appended room U32 _ m)
    by (try assumption;
        rewrite ?length_app, ?CodecFacts.encode_length, ?repeat_length;
        cbn [length sizeof]; lia).
  cbn [Writer.sink].
  rewrite position_appended
    by (rewrite ?length_app, ?CodecFacts.encode_length,
          ?CodecFacts.encode_range_length, ?repeat_length;
        cbn [length sizeof]; lia).
  rewrite (write_range_appended room U32 _ m)
    by (try assumption;
        rewrite ?length_app, ?CodecFacts.encode_length,
          ?CodecFacts.encode_range_length, ?repeat_length;
        cbn [length sizeof]; lia).
  cbn [Writer.sink]. unfold header_bytes.
  rewrite !length_app, !CodecFacts.encode_length,
    ?CodecFacts.encode_range_length, ?repeat_length.
  cbn [length sizeof app]. rewrite <- !app_assoc.
  f_equal. f_equal; f_equal; lia.
Qed.

Lemma overwrite_appended room (a b c src : list byte) m :
  roomy room m -> (length (a ++ b ++ c) <= m)%nat ->
  length src = length b ->
  Z.of_nat (length a) < 2 ^ 63 ->
  StreamSink.overwrite (appended room (a ++ b ++ c)) (Z.of_nat (length a)) src
  = (Z.of_nat (length src), appended room (a ++ src ++ c)).
Proof.
  intros Hroom Hfit Hlen H63.
  rewrite StreamSinkFacts.overwrite_good;
    [ | reflexivity | lia
      | apply (accepts_roomy room _ _ m);
        [assumption | rewrite !length_app in Hfit; rewrite Nat2Z.id; lia] ].
  unfold appended. cbn [OStream.content OStream.pptr OStream.room].
  rewrite Nat2Z.id, StreamSinkFacts.put_at_inside by assumption.
  do 2 f_equal. rewrite !length_app. lia.
Qed.

Lemma HeaderSaver_finish_appended room h o l payload header m :
  roomy room m ->
  (header_size + length payload <= m)%nat ->
  Z.of_nat header_size < 2 ^ 63 ->
  length o = MipCount -> length l = MipCount ->
  length (mipmapOffsets header) = MipCount ->
  length (mipmapLengths header) = MipCount ->
  HeaderSaver_finish
    (mkHeaderSaver (Z.of_nat (length magic + 10))
       (Z.of_nat (length magic + 10 + 4 * MipCount)))
    (appended room (header_bytes h o l ++ payload)) header
  = appended room
      (header_bytes h (mipmapOffsets header) (mipmapLengths header) ++ payload).
Proof.
  intros Hroom Hfit H63 Ho Hl Ho' Hl'. unfold header_size in *.
  unfold HeaderSaver_finish. cbn [m_offsetsPosition m_lengthsPosition].
  set (pre := magic ++ encode U32 (version h) ++ encode U8 (compression h)
                ++ encode U8 (if hasMips h then 1 else 0)
                ++ encode U16 (width h) ++ encode U16 (height h)).
  assert (Hpre : length pre = (length magic + 10)%nat).
  { subst pre. rewrite !length_app, !CodecFacts.encode_length. cbn [sizeof]. lia. }
  assert (E0 : header_bytes h o l ++ payload
               = pre ++ encode_range U32 o ++ (encode_range U32 l ++ payload)).
  { subst pre. unfold header_bytes. rewrite <- !app_assoc. reflexivity. }
  rewrite E0, <- Hpre.
  rewrite (overwrite_appended room pre _ _ _ m);
    [ | assumption
      | rewrite !length_app, !CodecFacts.encode_range_length, Hpre, Ho, Hl;
        cbn [sizeof]; lia
      | rewrite !CodecFacts.encode_range_length; lia
      | lia ].
  assert (E1 : pre ++ encode_range U32 (mipmapOffsets header)
                 ++ encode_range U32 l ++ payload
               = (pre ++ encode_range U32 (mipmapOffsets header))
                   ++ encode_range U32 l ++ payload)
    by (rewrite <- app_assoc; reflexivity).
  rewrite E1.
  replace (length pre + 4 * MipCount)%nat
    with (length (pre ++ encode_range U32 (mipmapOffsets header)))
    by (rewrite length_app, CodecFacts.encode_range_length, Ho'; cbn [sizeof]; lia).
  rewrite (overwrite_appended room _ _ _ _ m);
    [ | assumption
      | rewrite !length_app, !CodecFacts.encode_range_length, Hpre, Ho', Hl;
        cbn [sizeof]; lia
      | rewrite !CodecFacts.encode_range_length; lia
      | rewrite length_app, CodecFacts.encode_range_length, Hpre, Ho';
        cbn [sizeof]; lia ].
  f_equal. subst pre. unfold header_bytes. rewrite <- !app_assoc. reflexivity.
Qed.

Lemma save_header_fresh room h payload :
  length (mipmapOffsets h) = MipCount ->
  length (mipmapLengths h) = MipCount ->
  Z.of_nat header_size < 2 ^ 63 ->
  roomy room (header_size + length payload) ->
  save_header (OStream.fresh room) h payload
  = appended room (header_bytes h (mipmapOffsets h) (mipmapLengths h) ++ payload).
Proof.
  intros Ho Hl H63 Hroom. unfold save_header.
  rewrite (HeaderSaver_new_fresh room h (header_size + length payload))
    by (try assumption; lia).
  rewrite (write_appended room _ _ (header_size + length payload))
    by (try assumption;
        rewrite header_bytes_length by apply repeat_length; lia).
  apply (HeaderSaver_finish_appended room h _ _ payload h
           (header_size + length payload));
    try assumption; try apply repeat_length; lia.
Qed.

End SaveFacts.

(** C2.  For every header whose fields are values of their types, with the
    supported version, the save sequence (saver, payload, [finish()]) on a
    fresh file whose medium holds the whole file, followed by loading the
    bytes of that file, gives the header back, equal in every field. *)
Theorem save_then_load_roundtrip {fmt : TexFormat}
  (room : option nat) (h : Header) (payload : list byte) :
  header_valid h ->
  Z.of_nat header_size < 2 ^ 63 ->
  roomy room (header_size + length payload) ->
  main_info (OStream.content (save_header (OStream.fresh room) h payload))
  = (0, Some h).
Proof.
  intros (Hv & HV & Hc & Hw & Hh & Ho & Hl & Fo & Fl) H63 Hroom.
  rewrite save_header_fresh by assumption.
  cbn [appended OStream.content].
  rewrite main_info_header_bytes; try assumption.
  - destruct h; reflexivity.
  - rewrite <- Hv; assumption.
Qed.

Lemma save_then_load_roundtrip_witness :
  let h := mkHeader 256 0 true 256 128 [28; 36] [8; 2] in
  let payload := repeat Byte.x7f 10 in
  @main_info example_format
    (OStream.content (@save_header example_format (OStream.fresh (Some 64%nat)) h payload))
  = (0, Some h).
Proof.
  apply (@save_then_load_roundtrip example_format (Some 64%nat)
           (mkHeader 256 0 true 256 128 [28; 36] [8; 2]) (repeat Byte.x7f 10)).
  - unfold header_valid.
    cbn [version compression width height mipmapOffsets mipmapLengths
           example_format Version_1_0 MipCount length].
    repeat split; try lia;
      repeat (apply Forall_cons; [cbv beta; lia |]); apply Forall_nil.
  - vm_compute; reflexivity.
  - vm_compute. lia.
Defined.

(** ** What the segments leave in the header *)

Module RecordFacts.

Lemma assign_length i v a : length (assign i v a) = length a.
Proof.
  revert i; induction a as [| x a IH]; intros [| i]; cbn [assign length];
    try reflexivity.
  rewrite IH; reflexivity.
Qed.

Lemma assign_same i v a :
  (i < length a)%nat -> nth_error (assign i v a) i = Some v.
Proof.
  revert i; induction a as [| x a IH]; intros [| i] H; cbn in *; try lia.
  - reflexivity.
  - apply IH; lia.
Qed.

Lemma assign_other i j v a :
  i <> j -> nth_error (assign i v a) j = nth_error a j.
Proof.
  revert i j; induction a as [| x a IH]; intros [| i] [| j] H; cbn;
    try reflexivity; try contradiction.
  apply IH; congruence.
Qed.

Lemma assign_Forall (P : Z -> Prop) i v a :
  P v -> Forall P a -> Forall P (assign i v a).
Proof.
  intros Hv Ha; revert i; induction Ha as [| x a Hx Ha IH]; intros [| i];
    cbn [assign]; constructor; auto.
Qed.

Lemma uint32_range z : 0 <= Cast.uint32 z < 2 ^ 32.
Proof. apply Z.mod_pos_bound. reflexivity. Qed.

(** The segments touch the two arrays only, and keep their sizes. *)
Lemma scalars segs : forall i p h,
  let h' := record_segments i p segs h in
  version h' = version h /\ compression h' = compression h
  /\ hasMips h' = hasMips h /\ width h' = width h /\ height h' = height h
  /\ length (mipmapOffsets h') = length (mipmapOffsets h)
  /\ length (mipmapLengths h') = length (mipmapLengths h).
Proof.
  induction segs as [| s segs IH]; intros i p h; cbn [record_segments].
  - repeat split.
  - specialize (IH (S i) (p + length s)%nat
                  (set_mipmapLength i (Cast.uint32 (Z.of_nat (length s)))
                     (set_mipmapOffset i (Cast.uint32 (Z.of_nat p)) h))).
    cbn zeta in IH.
    cbn [set_mipmapLength set_mipmapOffset version compression hasMips
           width height mipmapOffsets mipmapLengths] in IH.
    rewrite !assign_length in IH. exact IH.
Qed.

Lemma ranges segs : forall i p h,
  Forall (fun v => 0 <= v < 2 ^ 32) (mipmapOffsets h) ->
  Forall (fun v => 0 <= v < 2 ^ 32) (mipmapLengths h) ->
  Forall (fun v => 0 <= v < 2 ^ 32) (mipmapOffsets (record_segments i p segs h))
  /\ Forall (fun v => 0 <= v < 2 ^ 32) (mipmapLengths (record_segments i p segs h)).
Proof.
  induction segs as [| s segs IH]; intros i p h Fo Fl; cbn [record_segments].
  - split; assumption.
  - apply IH; cbn [set_mipmapLength set_mipmapOffset mipmapOffsets mipmapLengths];
      try assumption; apply assign_Forall; try assumption; apply uint32_range.
Qed.

(** Slots below the first segment's are left alone. *)
Lemma below segs : forall i p h j,
  (j < i)%nat ->
  nth_error (mipmapOffsets (record_segments i p segs h)) j
  = nth_error (mipmapOffsets h) j
  /\ nth_error (mipmapLengths (record_segments i p segs h)) j
     = nth_error (mipmapLengths h) j.
Proof.
  induction segs as [| s segs IH]; intros i p h j Hj; cbn [record_segments].
  - split; reflexivity.
  - destruct (IH (S i) (p + length s)%nat
                (set_mipmapLength i (Cast.uint32 (Z.of_nat (length s)))
                   (set_mipmapOffset i (Cast.uint32 (Z.of_nat p)) h)) j) as [E1 E2];
      [lia |].
    rewrite E1, E2.
    cbn [set_mipmapLength set_mipmapOffset mipmapOffsets mipmapLengths].
    rewrite !assign_other by lia. split; reflexivity.
Qed.

(** Slot [i + k] holds where segment [k] starts and how long it is, as
    [uint32] values. *)
Lemma recorded segs : forall i p h k seg,
  nth_error segs k = Some seg ->
  (i + length segs <= length (mipmapOffsets h))%nat ->
  (i + length segs <= length (mipmapLengths h))%nat ->
  nth_error (mipmapOffsets (record_segments i p segs h)) (i + k)
  = Some (Cast.uint32 (Z.of_nat (p + length (concat (firstn k segs)))))
  /\ nth_error (mipmapLengths (record_segments i p segs h)) (i + k)
     = Some (Cast.uint32 (Z.of_nat (length seg))).
Proof.
  induction segs as [| s segs IH]; intros i p h k seg Hk Ho Hl.
  - destruct k; discriminate.
  - cbn [record_segments]. cbn [length] in Ho, Hl.
    destruct k as [| k].
    + injection Hk as <-. rewrite Nat.add_0_r.
      destruct (below segs (S i) (p + length s)%nat
                  (set_mipmapLength i (Cast.uint32 (Z.of_nat (length s)))
                     (set_mipmapOffset i (Cast.uint32 (Z.of_nat p)) h)) i) as [E1 E2];
        [lia |].
      rewrite E1, E2.
      cbn [set_mipmapLength set_mipmapOffset mipmapOffsets mipmapLengths
             firstn concat length].
      rewrite !assign_same by lia. rewrite Nat.add_0_r. split; reflexivity.
    + cbn [nth_error] in Hk.
      replace (i + S k)%nat with (S i + k)%nat by lia.
      destruct (IH (S i) (p + length s)%nat
                  (set_mipmapLength i (Cast.uint32 (Z.of_nat (length s)))
                     (set_mipmapOffset i (Cast.uint32 (Z.of_nat p)) h)) k seg Hk)
        as [E1 E2];
        try (cbn [set_mipmapLength set_mipmapOffset mipmapOffsets mipmapLengths];
             rewrite ?assign_length; lia).
      rewrite E1, E2. cbn [firstn concat]. rewrite length_app.
      split; [do 3 f_equal; lia | reflexivity].
Qed.

End RecordFacts.

Section SegmentFacts.

Context {fmt : TexFormat}.

Lemma write_segments_appended room m segs :
  roomy room m ->
  forall i bytes h,
    (length bytes + length (concat segs) <= m)%nat ->
    Z.of_nat (length bytes + length (concat segs)) < 2 ^ 64 ->
    write_segments i segs (appended room bytes) h
    = (appended room (bytes ++ concat segs),
       record_segments i (length bytes) segs h).
Proof.
  intros Hroom.
  induction segs as [| s segs IH]; intros i bytes h Hfit H64;
    cbn [write_segments record_segments concat].
  - rewrite app_nil_r. reflexivity.
  - cbn [concat] in Hfit, H64. rewrite length_app in Hfit, H64.
    rewrite position_appended by lia.
    rewrite (write_appended room bytes s m) by (try assumption; lia).
    rewrite IH by (rewrite length_app; lia).
    rewrite length_app, <- app_assoc. reflexivity.
Qed.

(** The whole protocol on a fresh file. *)
Lemma save_fresh room h segs :
  length (mipmapOffsets h) = MipCount ->
  length (mipmapLengths h) = MipCount ->
  Z.of_nat (header_size + length (concat segs)) < 2 ^ 63 ->
  roomy room (header_size + length (concat segs)) ->
  save (OStream.fresh room) h segs
  = (appended room
       (header_bytes h
          (mipmapOffsets (record_segments 0 header_size segs h))
          (mipmapLengths (record_segments 0 header_size segs h))
        ++ concat segs),
     record_segments 0 header_size segs h).
Proof.
  intros Ho Hl H63 Hroom. unfold save.
  pose proof (header_bytes_length h (repeat 0 MipCount) (repeat 0 MipCount)
                (repeat_length _ _) (repeat_length _ _)) as Hsize.
  rewrite (HeaderSaver_new_fresh room h (header_size + length (concat segs)))
    by (try assumption; lia).
  rewrite (write_segments_appended room (header_size + length (concat segs)))
    by (try assumption; rewrite Hsize; lia).
  rewrite Hsize.
  destruct (RecordFacts.scalars segs 0 header_size h)
    as (_ & _ & _ & _ & _ & Ho' & Hl').
  rewrite (HeaderSaver_finish_appended room h _ _ (concat segs) _
             (header_size + length (concat segs)));
    try assumption; try apply repeat_length; try lia; try reflexivity;
    congruence.
Qed.

Lemma header_bytes_scalars h h' o l :
  version h' = version h -> compression h' = compression h ->
  hasMips h' = hasMips h -> width h' = width h -> height h' = height h ->
  header_bytes h' o l = header_bytes h o l.
Proof.
  intros E1 E2 E3 E4 E5. unfold header_bytes.
  rewrite E1, E2, E3, E4, E5. reflexivity.
Qed.

(** Loading what the protocol wrote gives the header as the segments left
    it. *)
Lemma save_then_info room h segs :
  header_valid h ->
  Z.of_nat (header_size + length (concat segs)) < 2 ^ 63 ->
  roomy room (header_size + length (concat segs)) ->
  main_info (OStream.content (fst (save (OStream.fresh room) h segs)))
  = (0, Some (snd (save (OStream.fresh room) h segs))).
Proof.
  intros (Hv & HV & Hc & Hw & Hh & Ho & Hl & Fo & Fl) H63 Hroom.
  rewrite save_fresh by assumption.
  cbn [fst snd appended OStream.content].
  set (h' := record_segments 0 header_size segs h).
  destruct (RecordFacts.scalars segs 0 header_size h)
    as (E1 & E2 & E3 & E4 & E5 & Ho' & Hl').
  destruct (RecordFacts.ranges segs 0 header_size h Fo Fl) as [Fo' Fl'].
  fold h' in E1, E2, E3, E4, E5, Ho', Hl', Fo', Fl'.
  rewrite <- (header_bytes_scalars h h') by assumption.
  rewrite main_info_header_bytes; try congruence; try assumption.
  clearbody h'. destruct h'; reflexivity.
Qed.

End SegmentFacts.

Section ProtocolFacts.

Context {fmt : TexFormat}.

Lemma main_write_save (dstFile : OStream.t) (w h : Z) (pixelData : list byte) :
  main_write dstFile w h pixelData
  = fst (save dstFile (main_header w h) [pixelData]).
Proof.
  unfold main_write, save.
  destruct (HeaderSaver_new dstFile (main_header w h)) as [saver sink].
  cbn [write_segments].
  destruct (StreamSink.write sink pixelData) as [n sink'].
  reflexivity.
Qed.

Lemma concat_nth (segs : list (list byte)) : forall i seg,
  nth_error segs i = Some seg ->
  concat segs = concat (firstn i segs) ++ seg ++ concat (skipn (S i) segs).
Proof.
  induction segs as [| s segs IH]; intros [| i] seg H; try discriminate.
  - injection H as <-. reflexivity.
  - cbn [nth_error] in H. cbn [firstn skipn concat].
    rewrite (IH i seg H) at 1. rewrite <- app_assoc. reflexivity.
Qed.

Lemma concat_firstn_le (segs : list (list byte)) i :
  (length (concat (firstn i segs)) <= length (concat segs))%nat.
Proof.
  rewrite <- (firstn_skipn i segs) at 2. rewrite concat_app, length_app. lia.
Qed.

Lemma main_header_valid w h :
  0 <= w < 2 ^ 16 -> 0 <= h < 2 ^ 16 -> 0 <= Version_1_0 < 2 ^ 32 ->
  header_valid (main_header w h)
  /\ width (main_header w h) = w /\ height (main_header w h) = h
  /\ compression (main_header w h) = NotCompressed.
Proof.
  intros Hw Hh HV. unfold main_header, header_valid.
  destruct (mip_scan _ _) as [[wp hp] n].
  cbn [version compression width height hasMips mipmapOffsets mipmapLengths
         set_width set_height set_compression Header_new].
  rewrite !repeat_length. unfold NotCompressed.
  repeat split; try lia; apply Forall_forall; intros x Hx;
    apply repeat_spec in Hx; subst x; lia.
Qed.

End ProtocolFacts.

(** C1, as amended.  On a fresh file whose medium holds the whole output,
    for every valid header and every sequence of at most [MipCount] payload
    segments that ends below byte 2^32: after the saver, the segments and
    [finish()], the file loads, and for every segment [i] the loaded
    [mipmapOffsets[i]] is the byte position at which the segment starts in
    the file, [mipmapLengths[i]] is its byte count, and the file holds the
    segment there.  For the one segment that [main] writes, [mipmapOffsets[0]]
    is the first byte after the header and [mipmapLengths[0]] the number of
    pixel bytes, and the loaded width and height are the image's. *)
Theorem deferred_patch_records_segments {fmt : TexFormat} :
  (forall (room : option nat) (h : Header) (segs : list (list byte)),
      header_valid h ->
      (length segs <= MipCount)%nat ->
      Z.of_nat (header_size + length (concat segs)) < 2 ^ 32 ->
      roomy room (header_size + length (concat segs)) ->
      exists loaded,
        main_info (OStream.content (fst (save (OStream.fresh room) h segs)))
        = (0, Some loaded)
        /\ forall i seg,
            nth_error segs i = Some seg ->
            nth_error (mipmapOffsets loaded) i
            = Some (Z.of_nat (header_size + length (concat (firstn i segs))))
            /\ nth_error (mipmapLengths loaded) i = Some (Z.of_nat (length seg))
            /\ slice (OStream.content (fst (save (OStream.fresh room) h segs)))
                 (header_size + length (concat (firstn i segs))) (length seg)
               = seg)
  /\
  (forall (room : option nat) (w h : Z) (pixelData : list byte),
      0 <= w < 2 ^ 16 -> 0 <= h < 2 ^ 16 ->
      0 <= Version_1_0 < 2 ^ 32 -> (0 < MipCount)%nat ->
      Z.of_nat (header_size + length pixelData) < 2 ^ 32 ->
      roomy room (header_size + length pixelData) ->
      exists loaded,
        main_info (OStream.content (main_write (OStream.fresh room) w h pixelData))
        = (0, Some loaded)
        /\ width loaded = w /\ height loaded = h
        /\ compression loaded = NotCompressed
        /\ hasMips loaded = hasMips (main_header w h)
        /\ nth_error (mipmapOffsets loaded) 0 = Some (Z.of_nat header_size)
        /\ nth_error (mipmapLengths loaded) 0 = Some (Z.of_nat (length pixelData))).
Proof.
  assert (General :
    forall (room : option nat) (h : Header) (segs : list (list byte)),
      header_valid h ->
      (length segs <= MipCount)%nat ->
      Z.of_nat (header_size + length (concat segs)) < 2 ^ 32 ->
      roomy room (header_size + length (concat segs)) ->
      main_info (OStream.content (fst (save (OStream.fresh room) h segs)))
      = (0, Some (record_segments 0 header_size segs h))
      /\ forall i seg,
          nth_error segs i = Some seg ->
          nth_error (mipmapOffsets (record_segments 0 header_size segs h)) i
          = Some (Z.of_nat (header_size + length (concat (firstn i segs))))
          /\ nth_error (mipmapLengths (record_segments 0 header_size segs h)) i
             = Some (Z.of_nat (length seg))
          /\ slice (OStream.content (fst (save (OStream.fresh room) h segs)))
               (header_size + length (concat (firstn i segs))) (length seg)
             = seg).
  { intros room h segs Hvalid Hcount H32 Hroom.
    assert (H63 : Z.of_nat (header_size + length (concat segs)) < 2 ^ 63) by lia.
    split.
    - rewrite save_then_info by assumption.
      destruct Hvalid as (_ & _ & _ & _ & _ & Ho & Hl & _).
      rewrite save_fresh by assumption. reflexivity.
    - intros i seg Hi.
      destruct Hvalid as (_ & _ & _ & _ & _ & Ho & Hl & _).
      destruct (RecordFacts.recorded segs 0 header_size h i seg Hi) as [E1 E2];
        [cbn; lia | cbn; lia |].
      cbn [Nat.add] in E1, E2. rewrite E1, E2.
      pose proof (concat_nth segs i seg Hi) as Hcat.
      pose proof (concat_firstn_le segs i) as Hle.
      assert (Hseg : (length seg <= length (concat segs))%nat)
        by (rewrite Hcat, !length_app; lia).
      rewrite !CastFacts.uint32_small by lia.
      repeat split.
      rewrite save_fresh by assumption. cbn [fst appended OStream.content].
      destruct (RecordFacts.scalars segs 0 header_size h)
        as (_ & _ & _ & _ & _ & Ho' & Hl').
      apply (CodecFacts.slice_split
               (header_bytes h
                  (mipmapOffsets (record_segments 0 header_size segs h))
                  (mipmapLengths (record_segments 0 header_size segs h))
                ++ concat (firstn i segs))
               seg (concat (skipn (S i) segs))).
      + rewrite Hcat at 1. rewrite <- !app_assoc. reflexivity.
      + rewrite length_app, header_bytes_length by congruence. reflexivity.
      + reflexivity. }
  split.
  - intros room h segs Hvalid Hcount H32 Hroom.
    exists (record_segments 0 header_size segs h).
    apply General; assumption.
  - intros room w h pixelData Hw Hh HV Hmip H32 Hroom.
    destruct (main_header_valid w h Hw Hh HV) as (Hvalid & Ew & Eh & Ec).
    assert (Hcat : concat [pixelData] = pixelData) by apply app_nil_r.
    pose proof (General room (main_header w h) [pixelData] Hvalid) as G.
    rewrite Hcat in G.
    assert (Hone : (length [pixelData] <= MipCount)%nat) by (cbn [length]; lia).
    destruct (G Hone H32 Hroom) as [Hload Hseg].
    exists (record_segments 0 header_size [pixelData] (main_header w h)).
    rewrite main_write_save. split; [exact Hload |].
    destruct (RecordFacts.scalars [pixelData] 0 header_size (main_header w h))
      as (_ & E2 & E3 & E4 & E5 & _).
    destruct (Hseg 0%nat pixelData eq_refl) as (Eo & El & _).
    cbn [firstn concat length] in Eo. rewrite Nat.add_0_r in Eo.
    repeat split; congruence.
Qed.

Lemma deferred_patch_records_segments_witness :
  (exists loaded,
      @main_info example_format
        (OStream.content
           (fst (@save example_format (OStream.fresh None) (@Header_new example_format 256)
                   [[Byte.x01; Byte.x02; Byte.x03]; [Byte.x04]])))
      = (0, Some loaded)
      /\ forall i seg,
          nth_error [[Byte.x01; Byte.x02; Byte.x03]; [Byte.x04]] i = Some seg ->
          nth_error (mipmapOffsets loaded) i
          = Some (Z.of_nat
                    (@header_size example_format
                     + length (concat (firstn i [[Byte.x01; Byte.x02; Byte.x03]; [Byte.x04]]))))
          /\ nth_error (mipmapLengths loaded) i = Some (Z.of_nat (length seg))
          /\ slice
               (OStream.content
                  (fst (@save example_format (OStream.fresh None)
                          (@Header_new example_format 256)
                          [[Byte.x01; Byte.x02; Byte.x03]; [Byte.x04]])))
               (@header_size example_format
                + length (concat (firstn i [[Byte.x01; Byte.x02; Byte.x03]; [Byte.x04]])))
               (length seg)
             = seg)
  /\
  (exists loaded,
      @main_info example_format
        (OStream.content
           (@main_write example_format (OStream.fresh None) 256 256
              (repeat Byte.x80 (Z.to_nat 196608))))
      = (0, Some loaded)
      /\ width loaded = 256 /\ height loaded = 256
      /\ compression loaded = NotCompressed
      /\ hasMips loaded = @hasMips (@main_header example_format 256 256)
      /\ nth_error (mipmapOffsets loaded) 0 = Some (Z.of_nat (@header_size example_format))
      /\ nth_error (mipmapLengths loaded) 0
         = Some (Z.of_nat (length (repeat Byte.x80 (Z.to_nat 196608))))).
Proof.
  split.
  - apply (proj1 (@deferred_patch_records_segments example_format)
             None (@Header_new example_format 256)
             [[Byte.x01; Byte.x02; Byte.x03]; [Byte.x04]]).
    + unfold header_valid.
      cbn [version compression width height mipmapOffsets mipmapLengths
             Header_new example_format Version_1_0 MipCount length repeat].
      repeat split; try lia;
        repeat (apply Forall_cons; [cbv beta; lia |]); apply Forall_nil.
    + simpl; lia.
    + vm_compute; reflexivity.
    + exact I.
  - apply (proj2 (@deferred_patch_records_segments example_format)
             None 256 256 (repeat Byte.x80 (Z.to_nat 196608))).
    + lia.
    + lia.
    + simpl; lia.
    + simpl; lia.
    + vm_compute; reflexivity.
    + exact I.
Defined.

Section WrapFacts.

Context {fmt : TexFormat}.

(** What [main] leaves in slot 0 of the lengths, whatever the size of the
    pixel data. *)
Lemma main_write_loaded room w h pixelData :
  0 <= w < 2 ^ 16 -> 0 <= h < 2 ^ 16 ->
  0 <= Version_1_0 < 2 ^ 32 -> (0 < MipCount)%nat ->
  Z.of_nat (header_size + length pixelData) < 2 ^ 63 ->
  roomy room (header_size + length pixelData) ->
  exists loaded,
    main_info (OStream.content (main_write (OStream.fresh room) w h pixelData))
    = (0, Some loaded)
    /\ nth_error (mipmapLengths loaded) 0
       = Some (Cast.uint32 (Z.of_nat (length pixelData))).
Proof.
  intros Hw Hh HV Hmip H63 Hroom.
  destruct (main_header_valid w h Hw Hh HV) as (Hvalid & _).
  assert (Hcat : concat [pixelData] = pixelData) by apply app_nil_r.
  exists (snd (save (OStream.fresh room) (main_header w h) [pixelData])).
  rewrite main_write_save. split.
  - apply save_then_info; rewrite ?Hcat; assumption.
  - destruct Hvalid as (_ & _ & _ & _ & _ & Ho & Hl & _).
    rewrite save_fresh by (rewrite ?Hcat; assumption).
    cbn [snd].
    apply (RecordFacts.recorded [pixelData] 0 header_size (main_header w h)
             0 pixelData eq_refl); cbn [length]; lia.
Qed.

End WrapFacts.

Lemma main_write_wraps (pixelData : list byte) :
  Z.of_nat (length pixelData) = 4295032830 ->
  exists loaded,
    @main_info example_format
      (OStream.content
         (@main_write example_format (OStream.fresh None) 65535 21846 pixelData))
    = (0, Some loaded)
    /\ nth_error (mipmapLengths loaded) 0 = Some 65534.
Proof.
  intros Hlen.
  destruct (@main_write_loaded example_format None 65535 21846 pixelData)
    as (loaded & Hload & Hnth).
  - lia.
  - lia.
  - cbn [Version_1_0 example_format]; lia.
  - cbn [MipCount example_format]; lia.
  - rewrite Nat2Z.inj_add, Hlen.
    change (Z.of_nat (@header_size example_format)) with 28. lia.
  - exact I.
  - exists loaded. split; [exact Hload |]. rewrite Hnth, Hlen. reflexivity.
Qed.

(** C1 as stated fails: the pixel data of a 65535 x 21846 image are
    3 * 65535 * 21846 = 4295032830 bytes, one segment, and the file that
    [main] writes for it loads with [mipmapLengths[0]] = 65534, the byte
    count modulo 2^32. *)
Lemma main_write_of_4GiB_segment_wraps :
  Z.of_nat (length (repeat Byte.x00 (Z.to_nat 4295032830))) = 3 * 65535 * 21846
  /\ exists loaded,
       @main_info example_format
         (OStream.content
            (@main_write example_format (OStream.fresh None) 65535 21846
               (repeat Byte.x00 (Z.to_nat 4295032830))))
       = (0, Some loaded)
       /\ nth_error (mipmapLengths loaded) 0 = Some 65534.
Proof.
  assert (Hlen : Z.of_nat (length (repeat Byte.x00 (Z.to_nat 4295032830)))
                 = 4295032830)
    by (rewrite repeat_length; apply Z2Nat.id; discriminate).
  split.
  - rewrite Hlen. reflexivity.
  - apply main_write_wraps. exact Hlen.
Qed.

(** ** The bitmap parser *)

Module WordFacts.

Lemma LOWORD_spec v : LOWORD v = (v mod 2 ^ 32) mod 2 ^ 16.
Proof.
  unfold LOWORD, Cast.uint16, Cast.uint32, Cast.unsigned.
  change 65535 with (Z.ones 16). rewrite Z.land_ones by lia.
  apply Z.mod_mod. discriminate.
Qed.

Lemma HIWORD_spec v : HIWORD v = ((v mod 2 ^ 32) / 2 ^ 16) mod 2 ^ 16.
Proof.
  unfold HIWORD, Cast.uint16, Cast.uint32, Cast.unsigned.
  change 65535 with (Z.ones 16).
  rewrite Z.land_ones, Z.shiftr_div_pow2 by lia.
  apply Z.mod_mod. discriminate.
Qed.

(** The sum exchanges the two 16-bit words. *)
Lemma swap_words_spec v :
  0 <= v < 2 ^ 32 ->
  swap_words v = (v mod 2 ^ 16) * 2 ^ 16 + v / 2 ^ 16.
Proof.
  intros Hv. unfold swap_words. rewrite LOWORD_spec, HIWORD_spec.
  unfold Cast.uint32, Cast.unsigned. rewrite Z.shiftl_mul_pow2 by lia.
  change (2 ^ 32) with 4294967296 in *. change (2 ^ 16) with 65536.
  Z.div_mod_to_equations. lia.
Qed.

Lemma swap_words_int32 v : swap_words (Cast.int32 v) = swap_words v.
Proof.
  unfold swap_words. rewrite !LOWORD_spec, !HIWORD_spec.
  assert (E : Cast.int32 v mod 2 ^ 32 = v mod 2 ^ 32).
  { unfold Cast.int32, Cast.signed. change (2 ^ (32 - 1)) with 2147483648.
    change (2 ^ 32) with 4294967296. Z.div_mod_to_equations. lia. }
  rewrite E. reflexivity.
Qed.

(** What the parser takes from a field of four bytes read as [int32] is the
    16-bit word in the last two of them.  (The parser skips two bytes where
    a bitmap has a size of four, so it reads each field two bytes early:
    those last two bytes are the low word of the bitmap's own field.) *)
Lemma parsed_word_of_field (bs : list byte) :
  length bs = 4%nat ->
  Cast.uint16 (Cast.int32 (swap_words (decode I32 bs))) = decode U16 (skipn 2 bs).
Proof.
  intros Hlen. unfold decode. rewrite swap_words_int32.
  pose proof (le_combine_bound bs) as Hb. rewrite Hlen in Hb.
  change (2 ^ (8 * Z.of_nat 4)) with (2 ^ 32) in Hb.
  rewrite (swap_words_spec _ Hb).
  rewrite <- (split_le_combine' bs 4 Hlen) at 3.
  rewrite skipn_le_split by lia. rewrite le_combine_split.
  rewrite Z.shiftr_div_pow2 by lia.
  unfold Cast.uint16, Cast.int32, Cast.unsigned, Cast.signed.
  change (2 ^ (32 - 1)) with 2147483648.
  change (2 ^ 32) with 4294967296 in *. change (2 ^ 16) with 65536.
  change (8 * Z.of_nat 2) with 16. change (Z.of_nat (4 - 2) * 8) with 16.
  change (2 ^ 16) with 65536.
  Z.div_mod_to_equations. lia.
Qed.

End WordFacts.

(** C9, as amended.  The sum [HIWORD(v) + (LOWORD(v) << 16)] exchanges the
    two 16-bit words of a 32-bit value.  The width the parser takes from the
    result (its low 16 bits) is therefore the high word of [v]; for every
    [v] below 2^16 the result is [v * 2^16] and that width is 0; and the
    result is [v] again exactly when the two words of [v] are equal. *)
Theorem swap_words_exchanges_halves (v : Z) :
  0 <= v < 2 ^ 32 ->
  swap_words v = (v mod 2 ^ 16) * 2 ^ 16 + v / 2 ^ 16
  /\ Cast.uint16 (Cast.int32 (swap_words v)) = v / 2 ^ 16
  /\ (v < 2 ^ 16 ->
      swap_words v = v * 2 ^ 16 /\ Cast.uint16 (Cast.int32 (swap_words v)) = 0)
  /\ (swap_words v = v <-> v / 2 ^ 16 = v mod 2 ^ 16).
Proof.
  intros Hv. rewrite (WordFacts.swap_words_spec v Hv).
  unfold Cast.uint16, Cast.int32, Cast.unsigned, Cast.signed.
  change (2 ^ 32) with 4294967296 in *. change (2 ^ 16) with 65536.
  change (2 ^ (32 - 1)) with 2147483648.
  repeat split; intros; Z.div_mod_to_equations; lia.
Qed.

Lemma swap_words_exchanges_halves_witness :
  swap_words 16777216 = (16777216 mod 2 ^ 16) * 2 ^ 16 + 16777216 / 2 ^ 16
  /\ Cast.uint16 (Cast.int32 (swap_words 16777216)) = 16777216 / 2 ^ 16
  /\ (16777216 < 2 ^ 16 ->
      swap_words 16777216 = 16777216 * 2 ^ 16
      /\ Cast.uint16 (Cast.int32 (swap_words 16777216)) = 0)
  /\ (swap_words 16777216 = 16777216 <-> 16777216 / 2 ^ 16 = 16777216 mod 2 ^ 16).
Proof.
  apply (swap_words_exchanges_halves 16777216). lia.
Defined.

(** C9 as stated fails at [v = 256], below 2^16: the transformed value is
    16777216, the width taken from it is 0 where the width taken from [v]
    itself is 256, and the parser rejects an input whose width field decodes
    to 256, with width 0; a pixel offset of 54 becomes 3538944. *)
Lemma swap_words_changes_value_below_16_bits :
  256 < 2 ^ 16
  /\ swap_words 256 = 16777216
  /\ Cast.uint16 (Cast.int32 (swap_words 256)) = 0
  /\ Cast.uint16 (Cast.int32 256) = 256
  /\ swap_words 54 = 3538944
  /\ BmpImageParser.Parse
       [Byte.x42; Byte.x4d; Byte.x00; Byte.x00; Byte.x00; Byte.x00; Byte.x00; Byte.x00;
        Byte.x36; Byte.x00; Byte.x00; Byte.x00; Byte.x00; Byte.x00; Byte.x00; Byte.x00;
        Byte.x00; Byte.x01; Byte.x00; Byte.x00; Byte.x00; Byte.x01; Byte.x00; Byte.x00]
       (BmpImageParser.mkOut 7 7 RGBA [])
     = returned (false, BmpImageParser.mkOut 0 0 RGBA []).
Proof. repeat split; vm_compute; reflexivity. Qed.

Local Ltac advance Hfit :=
  first [rewrite ReaderFacts.skip_spec | rewrite ReaderFacts.get_spec];
  cbn [andb sizeof Nat.add]; rewrite Hfit by lia;
  cbv beta iota zeta; cbn [Reader.success negb orb].

(** C10.  For every input that passes the parser's checks of the header
    (the 34 bytes it decodes are there, the magic is "BM", the pixel offset
    field is at least 54, width and height come out non-zero, 24 or 32 bits
    per pixel) and whose compression field is not 0, [Parse] returns true
    and reads no pixel: [pixels] is left as it was passed in (empty, as
    [main] passes it), and so is [format]. *)
Theorem Parse_accepts_compressed_without_pixels
  (data : list byte) (o : BmpImageParser.out) :
  let bmWidth := Cast.int32 (swap_words (decode I32 (slice data 16 4))) in
  let bmHeight := Cast.int32 (swap_words (decode I32 (slice data 20 4))) in
  (34 <= length data)%nat ->
  decode U16 (slice data 0 2) = 19778 ->
  54 <= decode U32 (slice data 8 4) ->
  Cast.uint16 bmWidth <> 0 ->
  Cast.uint16 (Z.abs bmHeight) <> 0 ->
  decode U16 (slice data 28 2) = 24 \/ decode U16 (slice data 28 2) = 32 ->
  decode U32 (slice data 30 4) <> 0 ->
  BmpImageParser.Parse data o
  = returned
      (true,
       BmpImageParser.mkOut (Cast.uint16 bmWidth) (Cast.uint16 (Z.abs bmHeight))
         (BmpImageParser.o_format o) (BmpImageParser.o_pixels o)).
Proof.
  intros bmWidth bmHeight Hlen Hmagic Hoff Hw Hh Hbpp Hcomp.
  subst bmWidth bmHeight.
  assert (Hfit : forall n, (n <= 34)%nat -> (n <=? length data)%nat = true)
    by (intros n Hn; apply Nat.leb_le; lia).
  unfold BmpImageParser.Parse, Reader.over, Source.over.
  advance Hfit. rewrite Hmagic. cbn [Z.eqb Pos.eqb negb].
  advance Hfit. advance Hfit. advance Hfit.
  unfold BmpImageParser.minSupportedPixelOffset.
  rewrite (proj2 (Z.ltb_ge _ _) Hoff).
  advance Hfit. advance Hfit. advance Hfit.
  rewrite (proj2 (Z.eqb_neq _ _) Hw), (proj2 (Z.eqb_neq _ _) Hh).
  cbn [orb].
  advance Hfit. advance Hfit.
  assert (Hb : negb (decode U16 (slice data 28 2) =? 24)
               && negb (decode U16 (slice data 28 2) =? 32) = false)
    by (destruct Hbpp as [E | E]; rewrite E; reflexivity).
  rewrite Hb.
  advance Hfit.
  rewrite (proj2 (Z.eqb_neq _ _) Hcomp).
  reflexivity.
Qed.

Lemma Parse_accepts_compressed_without_pixels_witness :
  BmpImageParser.Parse example_bmp_compressed (BmpImageParser.mkOut 0 0 RGBA [])
  = returned (true, BmpImageParser.mkOut 1 1 RGBA []).
Proof.
  apply (Parse_accepts_compressed_without_pixels example_bmp_compressed
           (BmpImageParser.mkOut 0 0 RGBA [])).
  - vm_compute; lia.
  - reflexivity.
  - vm_compute; discriminate.
  - vm_compute; discriminate.
  - vm_compute; discriminate.
  - left; reflexivity.
  - vm_compute; discriminate.
Defined.

(** ** The tool *)

Section ToolFacts.

Context {fmt : TexFormat}.

Lemma overwrite_failed s pos src :
  OStream.failed s = true ->
  StreamSink.overwrite s pos src = (Z.of_nat (length src), s).
Proof.
  intros H. unfold StreamSink.overwrite, StreamSink.write.
  rewrite (StreamSinkFacts.seekp_failed s) by assumption.
  rewrite StreamSinkFacts.write_failed by assumption.
  rewrite StreamSinkFacts.seekp_failed by assumption.
  reflexivity.
Qed.

Lemma write_refused limit bytes src :
  (length bytes <= limit < length bytes + length src)%nat ->
  StreamSink.write (appended (Some limit) bytes) src
  = (Z.of_nat (length src),
     OStream.mk (bytes ++ firstn (limit - length bytes) src)
       (length bytes + length (firstn (limit - length bytes) src))
       true (Some limit)).
Proof.
  intros H. unfold StreamSink.write, OStream.write, appended, OStream.accepts,
    OStream.fitting.
  cbn [OStream.failed OStream.room OStream.pptr OStream.content].
  destruct (Nat.leb_spec (length bytes + length src) limit); [lia |].
  cbv zeta. rewrite StreamSinkFacts.put_at_end.
  assert (Hcut : (length (firstn (limit - length bytes) src) <? length src)%nat
                 = true)
    by (apply Nat.ltb_lt; rewrite length_firstn; lia).
  rewrite Hcut. reflexivity.
Qed.

(** When the medium holds the header and not all of the pixel data, what
    is left of [main]'s writing is the header with its placeholders and the
    pixel bytes that fit. *)
Lemma main_write_refused limit w h pixelData :
  Z.of_nat header_size < 2 ^ 64 ->
  (header_size <= limit < header_size + length pixelData)%nat ->
  OStream.content (main_write (OStream.fresh (Some limit)) w h pixelData)
  = header_bytes (main_header w h) (repeat 0 MipCount) (repeat 0 MipCount)
      ++ firstn (limit - header_size) pixelData.
Proof.
  intros H64 Hlimit. unfold main_write.
  rewrite (HeaderSaver_new_fresh (Some limit) _ limit) by (cbn; lia).
  pose proof (header_bytes_length (main_header w h) (repeat 0 MipCount)
                (repeat 0 MipCount) (repeat_length _ _) (repeat_length _ _))
    as Hsize.
  rewrite write_refused by (rewrite Hsize; lia).
  unfold HeaderSaver_finish.
  rewrite !overwrite_failed by reflexivity.
  cbn [OStream.content]. rewrite Hsize. reflexivity.
Qed.

End ToolFacts.

(** C8, as amended.  The tool writes to the target path itself and looks at
    the result of no write.  When the image parses, the target opens, and
    the medium holds the header but not all of the pixel data, the tool
    exits with status 0 and the file left at the target path is the header
    with zero in every offset and length slot, followed by the pixel bytes
    that the medium had room for. *)
Theorem main_convert_leaves_placeholder_file {fmt : TexFormat}
  (limit : nat) (srcFile : list byte) (o : BmpImageParser.out) :
  BmpImageParser.Parse srcFile (BmpImageParser.mkOut 0 0 RGB [])
  = returned (true, o) ->
  Z.of_nat header_size < 2 ^ 64 ->
  (header_size <= limit < header_size + length (BmpImageParser.o_pixels o))%nat ->
  main_convert (mkTarget true (Some limit)) srcFile
  = (0, Some (header_bytes
                (main_header (BmpImageParser.o_width o) (BmpImageParser.o_height o))
                (repeat 0 MipCount) (repeat 0 MipCount)
              ++ firstn (limit - header_size) (BmpImageParser.o_pixels o))).
Proof.
  intros Hparse H64 Hlimit. unfold main_convert. rewrite Hparse.
  cbn [negb can_open capacity].
  rewrite main_write_refused by assumption. reflexivity.
Qed.

Lemma main_convert_leaves_placeholder_file_witness :
  @main_convert example_format (mkTarget true (Some 30%nat)) example_bmp
  = (0, Some (@header_bytes example_format (@main_header example_format 1 1)
                [0; 0] [0; 0]
              ++ firstn (30 - @header_size example_format)
                   [Byte.x1e; Byte.x14; Byte.x0a])).
Proof.
  apply (@main_convert_leaves_placeholder_file example_format 30 example_bmp
           (BmpImageParser.mkOut 1 1 RGB [Byte.x1e; Byte.x14; Byte.x0a])).
  - reflexivity.
  - vm_compute; reflexivity.
  - vm_compute; lia.
Defined.

(** C8 as stated fails: with room for 30 bytes, the header of 28 bytes and
    two of the 3 pixel bytes are written; the tool exits with status 0, and
    the file of 30 bytes left at the target path loads as a 1 x 1 texture
    whose offsets and lengths are all 0.  With room enough the same image
    gives offset 28 and length 3. *)
Lemma main_convert_failed_save_leaves_loadable_file :
  exists file,
    @main_convert example_format (mkTarget true (Some 30%nat)) example_bmp
    = (0, Some file)
    /\ length file = 30%nat
    /\ skipn 28 file = [Byte.x1e; Byte.x14]
    /\ @main_info example_format file
       = (0, Some (mkHeader 256 0 true 1 1 [0; 0] [0; 0]))
    /\ exists whole,
         @main_convert example_format (mkTarget true None) example_bmp
         = (0, Some whole)
         /\ @main_info example_format whole
            = (0, Some (mkHeader 256 0 true 1 1 [28; 0] [3; 0])).
Proof.
  eexists. split; [vm_compute; reflexivity |].
  split; [reflexivity |]. split; [reflexivity |].
  split; [vm_compute; reflexivity |].
  eexists. split; [vm_compute; reflexivity |]. vm_compute; reflexivity.
Qed.

(** * More properties *)

(** ** More on the sink *)

Module SinkMoreFacts.

Import OStream.

Lemma accepts_le s n m :
  accepts s m = true -> (n <= m)%nat -> accepts s n = true.
Proof.
  unfold accepts. destruct (room s) as [limit |]; [| reflexivity].
  intros H Hle. apply Nat.leb_le in H. apply Nat.leb_le. lia.
Qed.

Lemma put_at_in_range file pos src :
  (pos + length src <= length file)%nat ->
  put_at file pos src = firstn pos file ++ src ++ skipn (pos + length src) file.
Proof.
  intros H. rewrite StreamSinkFacts.put_at_stored by (left; lia).
  replace (pos - length file)%nat with 0%nat by lia. reflexivity.
Qed.

Lemma put_at_after_prefix (pre rest src : list byte) :
  put_at (pre ++ rest) (length pre) src = pre ++ src ++ skipn (length src) rest.
Proof.
  rewrite StreamSinkFacts.put_at_stored by (left; rewrite length_app; lia).
  rewrite CodecFacts.firstn_prefix by reflexivity.
  replace (length pre - length (pre ++ rest))%nat with 0%nat
    by (rewrite length_app; lia).
  cbn [repeat app].
  rewrite skipn_app, skipn_all2 by lia.
  replace (length pre + length src - length pre)%nat with (length src) by lia.
  reflexivity.
Qed.

Lemma put_at_shape file pos src :
  src <> [] ->
  exists pre,
    length pre = pos
    /\ pre = firstn pos file ++ repeat Byte.x00 (pos - length file)
    /\ put_at file pos src = pre ++ src ++ skipn (pos + length src) file.
Proof.
  intros Hne.
  exists (firstn pos file ++ repeat Byte.x00 (pos - length file)). split.
  - rewrite length_app, length_firstn, repeat_length. lia.
  - split; [reflexivity |].
    rewrite StreamSinkFacts.put_at_stored by (right; exact Hne).
    rewrite <- app_assoc. reflexivity.
Qed.

Lemma put_at_twice file pos src :
  put_at (put_at file pos src) pos src = put_at file pos src.
Proof.
  destruct src as [| x src]; [reflexivity |].
  destruct (put_at_shape file pos (x :: src) ltac:(discriminate))
    as (pre & Hpre & _ & E).
  rewrite E. rewrite <- Hpre at 2.
  rewrite put_at_after_prefix.
  rewrite CodecFacts.skipn_prefix by reflexivity. reflexivity.
Qed.

Lemma put_at_then_put_at file pos a b :
  put_at (put_at file pos a) (pos + length a) b = put_at file pos (a ++ b).
Proof.
  destruct (list_eq_dec Byte.byte_eq_dec a []) as [-> | Ha].
  { cbn [put_at length app]. rewrite Nat.add_0_r. reflexivity. }
  destruct (list_eq_dec Byte.byte_eq_dec b []) as [-> | Hb].
  { rewrite app_nil_r. reflexivity. }
  assert (Hab : a ++ b <> [])
    by (intros E; apply app_eq_nil in E; destruct E; contradiction).
  destruct (put_at_shape file pos a Ha) as (pre & Hpre & Epre & E).
  destruct (put_at_shape file pos (a ++ b) Hab) as (pre' & _ & Epre' & E').
  rewrite E, E', Epre', <- Epre. clear Epre Epre' E E' pre'.
  rewrite app_assoc. replace (pos + length a)%nat with (length (pre ++ a))
    by (rewrite length_app; lia).
  rewrite put_at_after_prefix, skipn_skipn, <- !app_assoc.
  do 3 f_equal. rewrite !length_app. f_equal. lia.
Qed.

(** The stream after [overwrite], case by case. *)
Lemma overwrite_cases s pos src :
  snd (StreamSink.overwrite s pos src) =
  if failed s then s
  else if Cast.streamoff pos <? 0 then mk (content s) (pptr s) true (room s)
  else if accepts s (Z.to_nat (Cast.streamoff pos) + length src)
       then mk (put_at (content s) (Z.to_nat (Cast.streamoff pos)) src)
              (pptr s) false (room s)
       else
         let stored :=
           fitting (mk (content s) (Z.to_nat (Cast.streamoff pos)) false (room s))
             src in
         if (length stored <? length src)%nat
         then mk (put_at (content s) (Z.to_nat (Cast.streamoff pos)) stored)
                (Z.to_nat (Cast.streamoff pos) + length stored) true (room s)
         else mk (put_at (content s) (Z.to_nat (Cast.streamoff pos)) stored)
                (pptr s) false (room s).
Proof.
  rewrite StreamSinkFacts.overwrite_stream.
  destruct (failed s) eqn:Hs.
  - rewrite (StreamSinkFacts.seekp_failed s) by assumption.
    rewrite StreamSinkFacts.write_failed by assumption.
    apply StreamSinkFacts.seekp_failed; assumption.
  - unfold tellp, seekp at 2. rewrite Hs.
    destruct (Cast.streamoff pos <? 0).
    + rewrite StreamSinkFacts.write_failed by reflexivity.
      apply StreamSinkFacts.seekp_failed; reflexivity.
    + unfold write. cbn [failed pptr content room].
      unfold accepts. cbn [room].
      destruct (match room s with
                | Some limit => (Z.to_nat (Cast.streamoff pos) + length src <=? limit)%nat
                | None => true
                end).
      * unfold seekp. cbn [failed pptr content room].
        destruct (Z.ltb_spec (Z.of_nat (pptr s)) 0) as [Hn | _]; [lia |].
        rewrite Nat2Z.id. reflexivity.
      * cbv zeta.
        destruct (length (fitting _ src) <? length src)%nat.
        -- apply StreamSinkFacts.seekp_failed; reflexivity.
        -- unfold seekp. cbn [failed pptr content room].
           destruct (Z.ltb_spec (Z.of_nat (pptr s)) 0) as [Hn | _]; [lia |].
           rewrite Nat2Z.id. reflexivity.
Qed.

End SinkMoreFacts.

(** X1.  An overwrite that lies within the bytes written so far, on a good
    stream whose medium holds the file, replaces the bytes of its region and
    nothing else: the file keeps its length, every byte outside the region
    keeps its value, and the put position is where it was. *)
Theorem overwrite_replaces_region_only (s : OStream.t) (pos : Z) (src : list byte) :
  OStream.failed s = false ->
  0 <= pos ->
  (Z.to_nat pos + length src <= OStream.frontier s)%nat ->
  Z.of_nat (OStream.frontier s) < 2 ^ 63 ->
  OStream.accepts s (OStream.frontier s) = true ->
  StreamSink.overwrite s pos src
  = (Z.of_nat (length src),
     OStream.mk
       (firstn (Z.to_nat pos) (OStream.content s) ++ src
          ++ skipn (Z.to_nat pos + length src) (OStream.content s))
       (OStream.pptr s) false (OStream.room s))
  /\ OStream.frontier (snd (StreamSink.overwrite s pos src)) = OStream.frontier s
  /\ forall i,
      (i < Z.to_nat pos \/ Z.to_nat pos + length src <= i)%nat ->
      nth_error (OStream.content (snd (StreamSink.overwrite s pos src))) i
      = nth_error (OStream.content s) i.
Proof.
  intros Hgood Hpos Hin H63 Hroom. unfold OStream.frontier in *.
  assert (E : StreamSink.overwrite s pos src
              = (Z.of_nat (length src),
                 OStream.mk
                   (firstn (Z.to_nat pos) (OStream.content s) ++ src
                      ++ skipn (Z.to_nat pos + length src) (OStream.content s))
                   (OStream.pptr s) false (OStream.room s))).
  { rewrite StreamSinkFacts.overwrite_good;
      [ | assumption | lia | apply (SinkMoreFacts.accepts_le s _ _ Hroom); lia ].
    rewrite SinkMoreFacts.put_at_in_range by lia. reflexivity. }
  rewrite E. cbn [snd OStream.content]. split; [reflexivity | split].
  - rewrite !length_app, length_firstn, length_skipn. lia.
  - intros i [Hi | Hi].
    + rewrite nth_error_app1 by (rewrite length_firstn; lia).
      rewrite nth_error_firstn.
      destruct (Nat.ltb_spec i (Z.to_nat pos)); [reflexivity | lia].
    + rewrite nth_error_app2 by (rewrite length_firstn; lia).
      rewrite nth_error_app2 by (rewrite length_firstn; lia).
      rewrite nth_error_skipn, length_firstn. f_equal. lia.
Qed.

Lemma overwrite_replaces_region_only_witness :
  let s := OStream.mk [Byte.x0a; Byte.x0b; Byte.x0c; Byte.x0d] 4 false (Some 4%nat) in
  StreamSink.overwrite s 1 [Byte.xf1; Byte.xf2]
  = (2, OStream.mk [Byte.x0a; Byte.xf1; Byte.xf2; Byte.x0d] 4 false (Some 4%nat))
  /\ OStream.frontier (snd (StreamSink.overwrite s 1 [Byte.xf1; Byte.xf2])) = 4%nat
  /\ forall i,
      (i < 1 \/ 3 <= i)%nat ->
      nth_error (OStream.content (snd (StreamSink.overwrite s 1 [Byte.xf1; Byte.xf2]))) i
      = nth_error [Byte.x0a; Byte.x0b; Byte.x0c; Byte.x0d] i.
Proof.
  apply (overwrite_replaces_region_only
           (OStream.mk [Byte.x0a; Byte.x0b; Byte.x0c; Byte.x0d] 4 false (Some 4%nat))
           1 [Byte.xf1; Byte.xf2]).
  - reflexivity.
  - lia.
  - vm_compute; lia.
  - vm_compute; reflexivity.
  - reflexivity.
Defined.

(** X2.  Two writes in a row store what one write of the two byte strings
    joined stores, and leave the same stream, whenever the medium takes the
    bytes up to the end of the second. *)
Theorem write_twice_is_write_joined (s : OStream.t) (a b : list byte) :
  OStream.accepts s (OStream.pptr s + length a + length b) = true ->
  snd (StreamSink.write (snd (StreamSink.write s a)) b)
  = snd (StreamSink.write s (a ++ b))
  /\ fst (StreamSink.write s a) + fst (StreamSink.write (snd (StreamSink.write s a)) b)
     = fst (StreamSink.write s (a ++ b)).
Proof.
  intros Hroom. split.
  - unfold StreamSink.write. cbn [snd]. unfold OStream.write.
    destruct (OStream.failed s) eqn:Hs.
    + rewrite Hs. reflexivity.
    + rewrite (SinkMoreFacts.accepts_le s _ _ Hroom) by lia.
      cbn [OStream.failed OStream.pptr OStream.content OStream.room].
      unfold OStream.accepts in *. cbn [OStream.room].
      rewrite length_app.
      replace (OStream.pptr s + (length a + length b))%nat
        with (OStream.pptr s + length a + length b)%nat by lia.
      rewrite Hroom. rewrite SinkMoreFacts.put_at_then_put_at. reflexivity.
  - unfold StreamSink.write. cbn [fst]. rewrite length_app. lia.
Qed.

Lemma write_twice_is_write_joined_witness :
  let s := OStream.mk [Byte.x0a; Byte.x0b] 1 false (Some 4%nat) in
  snd (StreamSink.write (snd (StreamSink.write s [Byte.x01])) [Byte.x02; Byte.x03])
  = snd (StreamSink.write s ([Byte.x01] ++ [Byte.x02; Byte.x03]))
  /\ fst (StreamSink.write s [Byte.x01])
     + fst (StreamSink.write (snd (StreamSink.write s [Byte.x01])) [Byte.x02; Byte.x03])
     = fst (StreamSink.write s ([Byte.x01] ++ [Byte.x02; Byte.x03])).
Proof.
  apply (write_twice_is_write_joined
           (OStream.mk [Byte.x0a; Byte.x0b] 1 false (Some 4%nat))
           [Byte.x01] [Byte.x02; Byte.x03]).
  reflexivity.
Defined.

(** X3.  [overwrite] is idempotent: the same call a second time leaves the
    stream as the first call left it, whatever the stream, the position and
    the bytes (also when the call fails). *)
Theorem overwrite_twice_is_overwrite (s : OStream.t) (pos : Z) (src : list byte) :
  snd (StreamSink.overwrite (snd (StreamSink.overwrite s pos src)) pos src)
  = snd (StreamSink.overwrite s pos src).
Proof.
  rewrite (SinkMoreFacts.overwrite_cases s pos src).
  destruct (OStream.failed s) eqn:Hs;
    [rewrite SinkMoreFacts.overwrite_cases, Hs; reflexivity |].
  destruct (Cast.streamoff pos <? 0) eqn:Hneg;
    [rewrite SinkMoreFacts.overwrite_cases; reflexivity |].
  unfold OStream.accepts, OStream.fitting.
  cbn [OStream.room OStream.pptr]. cbv zeta.
  destruct (match OStream.room s with
            | Some limit =>
                (Z.to_nat (Cast.streamoff pos) + length src <=? limit)%nat
            | None => true
            end) eqn:Hacc.
  - rewrite SinkMoreFacts.overwrite_cases.
    cbn [OStream.failed OStream.content OStream.pptr OStream.room].
    rewrite Hneg. unfold OStream.accepts. cbn [OStream.room]. rewrite Hacc.
    rewrite SinkMoreFacts.put_at_twice. reflexivity.
  - destruct (length
                match OStream.room s with
                | Some limit => firstn (limit - Z.to_nat (Cast.streamoff pos)) src
                | None => src
                end <? length src)%nat eqn:Hcut.
    + rewrite SinkMoreFacts.overwrite_cases. reflexivity.
    + rewrite SinkMoreFacts.overwrite_cases.
      cbn [OStream.failed OStream.content OStream.pptr OStream.room].
      rewrite Hneg. unfold OStream.accepts, OStream.fitting.
      cbn [OStream.room OStream.pptr]. rewrite Hacc. cbv zeta. rewrite Hcut.
      rewrite SinkMoreFacts.put_at_twice. reflexivity.
Qed.

(** X4.  No call on the sink brings a failed stream back: after any
    sequence of [write], [overwrite] and [flush] on a stream in error state
    the stream is as it was, and [position()] is [size_t(-1)]. *)
Theorem failed_stream_stays_failed (s : OStream.t) (calls : list sink_call) :
  OStream.failed s = true ->
  fold_left sink_do calls s = s
  /\ StreamSink.position (fold_left sink_do calls s) = 2 ^ 64 - 1.
Proof.
  intros Hs.
  assert (E : fold_left sink_do calls s = s).
  { induction calls as [| c calls IH]; cbn [fold_left]; [reflexivity |].
    assert (Ec : sink_do s c = s).
    { destruct c as [src | position src |]; cbn [sink_do].
      - unfold StreamSink.write. cbn [snd].
        apply StreamSinkFacts.write_failed; assumption.
      - rewrite StreamSinkFacts.overwrite_stream.
        rewrite (StreamSinkFacts.seekp_failed s) by assumption.
        rewrite StreamSinkFacts.write_failed by assumption.
        apply StreamSinkFacts.seekp_failed; assumption.
      - reflexivity. }
    rewrite Ec. exact IH. }
  rewrite E. split; [reflexivity |].
  unfold StreamSink.position, OStream.tellp. rewrite Hs. reflexivity.
Qed.

Lemma failed_stream_stays_failed_witness :
  let s := OStream.mk [Byte.x0a] 1 true None in
  fold_left sink_do
    [call_write [Byte.x01]; call_overwrite 0 [Byte.x02]; call_flush] s = s
  /\ StreamSink.position
       (fold_left sink_do
          [call_write [Byte.x01]; call_overwrite 0 [Byte.x02]; call_flush] s)
     = 2 ^ 64 - 1.
Proof.
  apply (failed_stream_stays_failed (OStream.mk [Byte.x0a] 1 true None)
           [call_write [Byte.x01]; call_overwrite 0 [Byte.x02]; call_flush]).
  reflexivity.
Defined.

(** X5.  On a good stream in append position, an overwrite within the bytes
    written so far and a following [write] give the stream that the [write]
    followed by the overwrite gives: the appended bytes come after the
    patched file, neither shifted nor doubled. *)
Theorem overwrite_and_write_commute (s : OStream.t) (pos : Z) (src w : list byte) :
  OStream.failed s = false ->
  OStream.pptr s = OStream.frontier s ->
  0 <= pos ->
  (Z.to_nat pos + length src <= OStream.frontier s)%nat ->
  Z.of_nat (OStream.frontier s) < 2 ^ 63 ->
  OStream.accepts s (OStream.frontier s + length w) = true ->
  snd (StreamSink.write (snd (StreamSink.overwrite s pos src)) w)
  = snd (StreamSink.overwrite (snd (StreamSink.write s w)) pos src)
  /\ OStream.content (snd (StreamSink.write (snd (StreamSink.overwrite s pos src)) w))
     = firstn (Z.to_nat pos) (OStream.content s) ++ src
         ++ skipn (Z.to_nat pos + length src) (OStream.content s) ++ w.
Proof.
  intros Hgood Hend Hpos Hin H63 Hroom. unfold OStream.frontier in *.
  assert (Hoff : Cast.streamoff pos = pos)
    by (apply CastFacts.streamoff_small; lia).
  assert (Hneg : (pos <? 0) = false) by (apply Z.ltb_ge; lia).
  rewrite !SinkMoreFacts.overwrite_cases, Hgood, Hoff, Hneg.
  rewrite (SinkMoreFacts.accepts_le s _ _ Hroom) by lia.
  unfold StreamSink.write. cbn [snd]. unfold OStream.write.
  rewrite Hgood.
  cbn [OStream.failed OStream.pptr OStream.content OStream.room].
  unfold OStream.accepts in *. cbn [OStream.room].
  rewrite Hend, Hroom.
  cbn [OStream.failed OStream.pptr OStream.content OStream.room].
  assert (Hacc : match OStream.room s with
                 | Some limit => (Z.to_nat pos + length src <=? limit)%nat
                 | None => true
                 end = true).
  { destruct (OStream.room s); [| reflexivity].
    apply Nat.leb_le in Hroom. apply Nat.leb_le. lia. }
  rewrite Hacc.
  assert (Hlen : length (OStream.put_at (OStream.content s) (Z.to_nat pos) src)
                 = length (OStream.content s))
    by (rewrite PutAtFacts.put_at_length; lia).
  assert (E1 : OStream.put_at (OStream.put_at (OStream.content s) (Z.to_nat pos) src)
                 (length (OStream.content s)) w
               = OStream.put_at (OStream.content s) (Z.to_nat pos) src ++ w).
  { rewrite <- Hlen.
    rewrite <- (app_nil_r (OStream.put_at (OStream.content s) (Z.to_nat pos) src)) at 1.
    rewrite SinkMoreFacts.put_at_after_prefix, skipn_nil, app_nil_r. reflexivity. }
  assert (E2 : OStream.put_at (OStream.content s) (length (OStream.content s)) w
               = OStream.content s ++ w).
  { rewrite <- (app_nil_r (OStream.content s)) at 1.
    rewrite SinkMoreFacts.put_at_after_prefix, skipn_nil, app_nil_r. reflexivity. }
  assert (E3 : OStream.put_at (OStream.content s ++ w) (Z.to_nat pos) src
               = OStream.put_at (OStream.content s) (Z.to_nat pos) src ++ w).
  { rewrite !SinkMoreFacts.put_at_in_range by (rewrite ?length_app; lia).
    rewrite firstn_app, skipn_app.
    replace (Z.to_nat pos - length (OStream.content s))%nat with 0%nat by lia.
    replace (Z.to_nat pos + length src - length (OStream.content s))%nat
      with 0%nat by lia.
    cbn [firstn skipn]. rewrite app_nil_r, <- !app_assoc. reflexivity. }
  rewrite E1, E2, E3. split; [reflexivity |].
  rewrite SinkMoreFacts.put_at_in_range by lia.
  rewrite <- !app_assoc. reflexivity.
Qed.

Lemma overwrite_and_write_commute_witness :
  let s := OStream.mk [Byte.x0a; Byte.x0b; Byte.x0c] 3 false None in
  snd (StreamSink.write (snd (StreamSink.overwrite s 1 [Byte.xf1])) [Byte.x0d])
  = snd (StreamSink.overwrite (snd (StreamSink.write s [Byte.x0d])) 1 [Byte.xf1])
  /\ OStream.content
       (snd (StreamSink.write (snd (StreamSink.overwrite s 1 [Byte.xf1])) [Byte.x0d]))
     = [Byte.x0a; Byte.xf1; Byte.x0c; Byte.x0d].
Proof.
  apply (overwrite_and_write_commute
           (OStream.mk [Byte.x0a; Byte.x0b; Byte.x0c] 3 false None)
           1 [Byte.xf1] [Byte.x0d]).
  - reflexivity.
  - reflexivity.
  - lia.
  - vm_compute; lia.
  - vm_compute; reflexivity.
  - reflexivity.
Defined.

(** ** The name of the target file *)

Module StrFacts.

Import Str.

Lemma starts_with_prefix p b : starts_with p (p ++ b) = true.
Proof.
  induction p as [| a p IH]; cbn [starts_with app].
  - reflexivity.
  - rewrite IH, (Byte.byte_dec_lb (eq_refl a)). reflexivity.
Qed.

Lemma starts_with_inv p s :
  starts_with p s = true -> exists b, s = p ++ b.
Proof.
  revert s. induction p as [| a p IH]; intros s H.
  - exists s. reflexivity.
  - destruct s as [| x s]; cbn [starts_with] in H; [discriminate |].
    apply andb_prop in H. destruct H as [Hax Hp].
    apply Byte.byte_dec_bl in Hax. subst x.
    destruct (IH s Hp) as [b Hb]. exists b. rewrite Hb. reflexivity.
Qed.

(** [rfind] finds no place exactly when there is none. *)
Lemma rfind_none p s : rfind p s = None -> ~ occurs p s.
Proof.
  induction s as [| x s IH]; cbn [rfind]; intros H [a [b E]].
  - destruct a; [| discriminate]. cbn [app] in E.
    destruct p; [| discriminate]. discriminate.
  - destruct (rfind p s) eqn:R; [discriminate |].
    destruct (starts_with p (x :: s)) eqn:S; [discriminate |].
    destruct a as [| y a]; cbn [app] in E.
    + rewrite E, starts_with_prefix in S. discriminate.
    + injection E as _ E. apply IH; [reflexivity |]. exists a, b. exact E.
Qed.

Lemma rfind_some p s i : rfind p s = Some i -> occurs p s.
Proof.
  revert i. induction s as [| x s IH]; cbn [rfind]; intros i H.
  - destruct (starts_with p []) eqn:S; [| discriminate].
    destruct (starts_with_inv _ _ S) as [b Hb]. exists [], b. exact Hb.
  - destruct (rfind p s) as [j |] eqn:R.
    + destruct (IH j eq_refl) as [a [b E]]. exists (x :: a), b.
      rewrite E. reflexivity.
    + destruct (starts_with p (x :: s)) eqn:S; [| discriminate].
      destruct (starts_with_inv _ _ S) as [b Hb]. exists [], b. exact Hb.
Qed.

(** The last place of a character. *)
Lemma rfind_char_absent ch s : ~ In ch s -> rfind [ch] s = None.
Proof.
  intros H. destruct (rfind [ch] s) as [i |] eqn:R; [| reflexivity].
  exfalso. apply H. destruct (rfind_some _ _ _ R) as [a [b E]].
  rewrite E. apply in_or_app. right. left. reflexivity.
Qed.

Lemma rfind_char_last ch stem ext :
  ~ In ch ext -> rfind [ch] (stem ++ ch :: ext) = Some (length stem).
Proof.
  intros H. induction stem as [| x stem IH]; cbn [app length].
  - cbn [rfind]. rewrite (rfind_char_absent _ _ H).
    cbn [starts_with]. rewrite (Byte.byte_dec_lb (eq_refl ch)). reflexivity.
  - cbn [rfind]. fold (rfind [ch] (stem ++ ch :: ext)). rewrite IH.
    destruct (stem ++ ch :: ext); reflexivity.
Qed.

Lemma last_place (ch : byte) s :
  In ch s -> exists stem ext, s = stem ++ ch :: ext /\ ~ In ch ext.
Proof.
  induction s as [| x s IH]; intros H; [destruct H |].
  destruct (in_dec Byte.byte_eq_dec ch s) as [Hs | Hs].
  - destruct (IH Hs) as [stem [ext [E Hext]]].
    exists (x :: stem), ext. rewrite E. split; [reflexivity | exact Hext].
  - destruct H as [H | H]; [| contradiction].
    subst x. exists [], s. split; [reflexivity | exact Hs].
Qed.

End StrFacts.

(** X6.  A target name that was given is left as it is exactly when
    [".htex"] occurs in it, at the end or anywhere else ([rfind] looks for
    the last occurrence, not for a suffix); otherwise [".htex"] is appended.
    Either way the name used holds [".htex"], and the source name plays no
    part. *)
Theorem target_name_given (sourceFile targetFile : list byte) :
  targetFile <> [] ->
  (occurs htex targetFile -> target_name sourceFile targetFile = targetFile)
  /\ (~ occurs htex targetFile ->
      target_name sourceFile targetFile = targetFile ++ htex)
  /\ occurs htex (target_name sourceFile targetFile).
Proof.
  intros Hne. destruct targetFile as [| x t]; [congruence |].
  unfold target_name.
  destruct (Str.rfind htex (x :: t)) as [i |] eqn:R.
  - pose proof (StrFacts.rfind_some _ _ _ R) as Hocc.
    split; [reflexivity |]. split; [intros Hn; contradiction | exact Hocc].
  - pose proof (StrFacts.rfind_none _ _ R) as Hocc.
    split; [intros Hn; contradiction |]. split; [reflexivity |].
    exists (x :: t), []. rewrite app_nil_r. reflexivity.
Qed.

Lemma target_name_given_witness :
  let src := [Byte.x61; Byte.x2e; Byte.x62] in
  let t := htex ++ [Byte.x2e; Byte.x62; Byte.x61; Byte.x6b] in
  (occurs htex t -> target_name src t = t)
  /\ (~ occurs htex t -> target_name src t = t ++ htex)
  /\ occurs htex (target_name src t).
Proof.
  apply (target_name_given [Byte.x61; Byte.x2e; Byte.x62]
           (htex ++ [Byte.x2e; Byte.x62; Byte.x61; Byte.x6b])).
  vm_compute. discriminate.
Defined.

(** X7.  Without a target name, the name is the source name up to its last
    dot, followed by [".htex"]: of [stem ++ "." ++ ext] with no dot in [ext]
    it is [stem ++ ".htex"]. *)
Theorem target_name_from_source (stem ext : list byte) :
  ~ In Byte.x2e ext ->
  target_name (stem ++ [Byte.x2e] ++ ext) [] = stem ++ htex.
Proof.
  intros H. unfold target_name. cbn [app].
  rewrite (StrFacts.rfind_char_last _ stem ext H).
  unfold Str.substr. cbn [skipn].
  rewrite firstn_app, Nat.sub_diag, firstn_all. cbn [firstn].
  rewrite app_nil_r. reflexivity.
Qed.

Lemma target_name_from_source_witness :
  target_name ([Byte.x61; Byte.x2e; Byte.x62] ++ [Byte.x2e] ++ [Byte.x63]) []
  = [Byte.x61; Byte.x2e; Byte.x62] ++ htex.
Proof.
  apply (target_name_from_source [Byte.x61; Byte.x2e; Byte.x62] [Byte.x63]).
  vm_compute. intros [H | []]. discriminate H.
Defined.

(** X8.  Without a target name and without a dot in the source name, the
    target name stays empty: the tool goes on to open a file of the empty
    name. *)
Theorem target_name_stays_empty (sourceFile : list byte) :
  ~ In Byte.x2e sourceFile <-> target_name sourceFile [] = [].
Proof.
  unfold target_name. split.
  - intros H. rewrite (StrFacts.rfind_char_absent _ _ H). reflexivity.
  - intros E Hin.
    pose proof (StrFacts.last_place _ _ Hin) as Hlast.
    destruct Hlast as [stem [ext [Hs' Hext]]].
    rewrite Hs', (StrFacts.rfind_char_last _ stem ext Hext) in E.
    apply app_eq_nil in E. destruct E as [_ E]. discriminate E.
Qed.

(** ** The scan for powers of two *)

Module MipFacts.

(** The flags of the scan, over any range of exponents and from any start. *)
Lemma scan_flags (w h : Z) (l : list Z) (a b : bool) (m : Z) :
  let r :=
    fold_left
      (fun '(widthIsPow2, heightIsPow2, mipCount) i =>
         let '(widthIsPow2, mipCount) :=
           if w =? Z.shiftl 1 i
           then (true, if mipCount =? 0 then Cast.uint32 (i + 1) else mipCount)
           else (widthIsPow2, mipCount) in
         let '(heightIsPow2, mipCount) :=
           if h =? Z.shiftl 1 i
           then (true, if mipCount =? 0 then Cast.uint32 (i + 1) else mipCount)
           else (heightIsPow2, mipCount) in
         (widthIsPow2, heightIsPow2, mipCount))
      l (a, b, m) in
  fst (fst r) = a || existsb (fun i => w =? Z.shiftl 1 i) l
  /\ snd (fst r) = b || existsb (fun i => h =? Z.shiftl 1 i) l.
Proof.
  revert a b m. induction l as [| i l IH]; intros a b m; cbn [fold_left existsb].
  - cbn [fst snd]. rewrite !orb_false_r. split; reflexivity.
  - destruct (w =? Z.shiftl 1 i), (h =? Z.shiftl 1 i);
      cbv zeta in IH |- *;
      match goal with
      | |- context [fold_left _ l (?x, ?y, ?z)] =>
          destruct (IH x y z) as [E1 E2]; rewrite E1, E2
      end;
      cbn [orb]; rewrite ?orb_true_r; split; reflexivity.
Qed.

Lemma scan_width w h :
  fst (fst (mip_scan w h))
  = existsb (fun i => w =? Z.shiftl 1 i) (map Z.of_nat (seq 0 16)).
Proof. exact (proj1 (scan_flags w h _ false false 0)). Qed.

Lemma scan_height w h :
  snd (fst (mip_scan w h))
  = existsb (fun i => h =? Z.shiftl 1 i) (map Z.of_nat (seq 0 16)).
Proof. exact (proj2 (scan_flags w h _ false false 0)). Qed.

(** One of the sixteen tests succeeds exactly for the powers of two below
    [2 ^ 16]. *)
Lemma pow2_test v :
  existsb (fun i => v =? Z.shiftl 1 i) (map Z.of_nat (seq 0 16)) = true
  <-> exists i : nat, (i < 16)%nat /\ v = 2 ^ Z.of_nat i.
Proof.
  rewrite existsb_exists. split.
  - intros [x [Hin Hx]]. apply in_map_iff in Hin. destruct Hin as [i [Hi Hin]].
    apply in_seq in Hin. exists i. split; [lia |].
    apply Z.eqb_eq in Hx. subst x. rewrite Hx, Z.shiftl_1_l. reflexivity.
  - intros [i [Hi Hv]]. exists (Z.of_nat i). split.
    + apply in_map. apply in_seq. lia.
    + apply Z.eqb_eq. rewrite Z.shiftl_1_l. exact Hv.
Qed.

(** The count the scan ends with, for every pair of exponents. *)
Lemma scan_count_table :
  forallb (fun i => forallb (fun j =>
     snd (mip_scan (2 ^ Z.of_nat i) (2 ^ Z.of_nat j))
       =? Z.of_nat (Nat.min i j) + 1) (seq 0 16)) (seq 0 16) = true.
Proof. vm_compute. reflexivity. Qed.

End MipFacts.

Section MipTheorems.

Context {fmt : TexFormat}.

(** X9.  The header [main] sets up has [hasMips] set exactly when width and
    height are both among the powers of two [1, 2, 4, ..., 32768], each with
    an exponent of its own. *)
Theorem main_header_hasMips_iff_powers_of_two (w h : Z) :
  hasMips (main_header w h) = true
  <-> exists i j : nat,
        (i < 16)%nat /\ (j < 16)%nat /\ w = 2 ^ Z.of_nat i /\ h = 2 ^ Z.of_nat j.
Proof.
  unfold main_header.
  cbn [width height set_compression set_height set_width Header_new].
  pose proof (MipFacts.scan_width w h) as Hw.
  pose proof (MipFacts.scan_height w h) as Hh.
  destruct (mip_scan w h) as [[wp hp] n]. cbn [fst snd hasMips] in *.
  rewrite andb_true_iff, Hw, Hh, !MipFacts.pow2_test. split.
  - intros [[i [Hi Ew]] [j [Hj Eh]]]. exists i, j. auto.
  - intros [i [j [Hi [Hj [Ew Eh]]]]]. split; [exists i | exists j]; auto.
Qed.

End MipTheorems.

(** X10.  For a width [2 ^ i] and a height [2 ^ j] with [i, j < 16], the
    number of mip maps the tool counts is one more than the smaller of the
    two exponents: the first round of the loop that matches either dimension
    fixes it. *)
Theorem mip_scan_counts_from_smaller_side (i j : nat) :
  (i < 16)%nat -> (j < 16)%nat ->
  mip_scan (2 ^ Z.of_nat i) (2 ^ Z.of_nat j)
  = (true, true, Z.of_nat (Nat.min i j) + 1).
Proof.
  intros Hi Hj.
  pose proof (MipFacts.scan_width (2 ^ Z.of_nat i) (2 ^ Z.of_nat j)) as Hw.
  pose proof (MipFacts.scan_height (2 ^ Z.of_nat i) (2 ^ Z.of_nat j)) as Hh.
  pose proof MipFacts.scan_count_table as Ht.
  rewrite forallb_forall in Ht.
  assert (Hin : forall k, (k < 16)%nat -> In k (seq 0 16))
    by (intros k Hk; apply in_seq; lia).
  specialize (Ht i (Hin i Hi)). rewrite forallb_forall in Ht.
  specialize (Ht j (Hin j Hj)). apply Z.eqb_eq in Ht.
  destruct (mip_scan _ _) as [[wp hp] n]. cbn [fst snd] in *.
  assert (Ew : wp = true).
  { rewrite Hw. apply MipFacts.pow2_test. exists i. auto. }
  assert (Eh : hp = true).
  { rewrite Hh. apply MipFacts.pow2_test. exists j. auto. }
  rewrite Ew, Eh, Ht. reflexivity.
Qed.

Lemma mip_scan_counts_from_smaller_side_witness :
  mip_scan (2 ^ Z.of_nat 8) (2 ^ Z.of_nat 0) = (true, true, Z.of_nat (Nat.min 8 0) + 1).
Proof.
  apply (mip_scan_counts_from_smaller_side 8 0); lia.
Defined.

(** ** The bitmap parser, further *)

Module ParseFacts.

Import BmpImageParser.

(** One operation of the reader, whether or not its bytes are there. *)
Ltac attempt :=
  first [rewrite ReaderFacts.skip_spec | rewrite ReaderFacts.get_spec];
  cbn [andb sizeof Nat.add];
  try match goal with
  | |- context [(?a <=? length ?d)%nat] =>
      destruct (Nat.leb_spec a (length d))
  end;
  cbv beta iota zeta; cbn [Reader.success negb orb andb].

(** An input that ends before the 34 bytes [Parse] decodes is refused. *)
Lemma Parse_short data o :
  (length data < 34)%nat -> exists o', Parse data o = returned (false, o').
Proof.
  intros Hlen. unfold Parse, Reader.over, Source.over.
  repeat attempt; try lia;
    repeat match goal with
           | |- context [if ?c then _ else _] => destruct c
           end;
    eexists; reflexivity.
Qed.

(** The pixel loop only ever appends, three bytes a round. *)
Lemma read_pixels_grows count r px :
  exists added,
    snd (read_pixels count r px) = px ++ added
    /\ (fst (fst (read_pixels count r px)) = true ->
        length added = (3 * count)%nat).
Proof.
  revert r px. induction count as [| count IH]; intros r px; cbn [read_pixels].
  - exists []. rewrite app_nil_r. split; reflexivity.
  - destruct (Reader.get U8 r 0) as [r1 b].
    destruct (Reader.get U8 r1 0) as [r2 g].
    destruct (Reader.get U8 r2 0) as [r3 rd].
    destruct (Reader.success r3); cbn [negb].
    + destruct (IH r3 (px ++ [byte.of_Z rd; byte.of_Z g; byte.of_Z b]))
        as [added [E L]].
      exists ([byte.of_Z rd; byte.of_Z g; byte.of_Z b] ++ added).
      rewrite E, <- app_assoc. split; [reflexivity |].
      intros H. rewrite length_app, (L H). cbn [length]. lia.
    + exists []. rewrite app_nil_r. split; [reflexivity | discriminate].
Qed.

(** Three bytes at a position. *)
Lemma slice_three data c k :
  (c + 3 <= length data)%nat ->
  exists x0 x1 x2,
    slice data c 1 = [x0] /\ slice data (c + 1) 1 = [x1]
    /\ slice data (c + 1 + 1) 1 = [x2]
    /\ slice data c (3 + k) = x0 :: x1 :: x2 :: slice data (c + 3) k.
Proof.
  intros H. unfold slice.
  replace (c + 1 + 1)%nat with (2 + c)%nat by lia.
  replace (c + 1)%nat with (1 + c)%nat by lia.
  replace (c + 3)%nat with (3 + c)%nat by lia.
  rewrite <- !skipn_skipn.
  pose proof (length_skipn c data) as L.
  destruct (skipn c data) as [| x0 [| x1 [| x2 l]]]; cbn [length] in L; try lia.
  exists x0, x1, x2. repeat split; reflexivity.
Qed.

Lemma byte_of_decode x : byte.of_Z (decode U8 [x]) = x.
Proof.
  unfold decode. rewrite le_combine_1. apply byte.of_Z_unsigned.
Qed.

(** The pixel loop when the bytes are there. *)
Lemma read_pixels_fits count data c px :
  (c + 3 * count <= length data)%nat ->
  read_pixels count (Reader.mk (Source.mk data c) true) px
  = (true, Reader.mk (Source.mk data (c + 3 * count)) true,
     px ++ bgr_to_rgb (slice data c (3 * count))).
Proof.
  revert c px. induction count as [| count IH]; intros c px H.
  - cbn [read_pixels]. unfold slice. cbn [Nat.mul firstn bgr_to_rgb].
    rewrite app_nil_r, Nat.add_0_r. reflexivity.
  - cbn [read_pixels].
    assert (Hfit : forall n, (n <= c + 3)%nat -> (n <=? length data)%nat = true)
      by (intros n Hn; apply Nat.leb_le; lia).
    destruct (slice_three data c (3 * count)) as [x0 [x1 [x2 [E0 [E1 [E2 E]]]]]];
      [lia |].
    rewrite !ReaderFacts.get_spec. cbn [andb sizeof].
    rewrite !Hfit by lia. cbv beta iota zeta. cbn [Reader.success negb].
    rewrite !ReaderFacts.get_spec. cbn [andb sizeof].
    rewrite !Hfit by lia. cbv beta iota zeta. cbn [Reader.success negb].
    rewrite !ReaderFacts.get_spec. cbn [andb sizeof].
    rewrite !Hfit by lia. cbv beta iota zeta. cbn [Reader.success negb].
    rewrite E0, E1, E2, !byte_of_decode.
    rewrite IH by lia.
    replace (3 * S count)%nat with (3 + 3 * count)%nat by lia.
    rewrite E. cbn [bgr_to_rgb].
    replace (c + 1 + 1 + 1)%nat with (c + 3)%nat by lia.
    replace (c + 3 + 3 * count)%nat with (c + (3 + 3 * count))%nat by lia.
    rewrite <- app_assoc. reflexivity.
Qed.

(** The pixel loop when the bytes end before the last pixel. *)
Lemma read_pixels_short count data c px :
  (c <= length data < c + 3 * count)%nat ->
  fst (fst (read_pixels count (Reader.mk (Source.mk data c) true) px)) = false.
Proof.
  revert c px. induction count as [| count IH]; intros c px H; [lia |].
  cbn [read_pixels].
  attempt; [attempt; [attempt |] |];
    repeat (rewrite ReaderFacts.get_spec; cbn [andb];
            cbv beta iota zeta; cbn [Reader.success negb]);
    try reflexivity.
  apply IH. lia.
Qed.

Lemma bgr_to_rgb_length bs :
  (exists k, length bs = (3 * k)%nat) -> length (bgr_to_rgb bs) = length bs.
Proof.
  intros [k Hk]. revert bs Hk. induction k as [| k IH]; intros bs Hk.
  - destruct bs; [reflexivity | discriminate].
  - destruct bs as [| b [| g [| r bs]]]; cbn [length] in Hk; try lia.
    cbn [bgr_to_rgb length]. rewrite IH by lia. reflexivity.
Qed.

(** The product of two 16-bit values, as the loop bound computes it. *)
Lemma pixel_count w h :
  0 <= w < 2 ^ 16 -> 0 <= h < 2 ^ 16 ->
  Cast.uint32 (Cast.uint32 w * Cast.uint32 h) = w * h.
Proof.
  intros Hw Hh. rewrite !(CastFacts.uint32_small w), !(CastFacts.uint32_small h) by lia.
  apply CastFacts.uint32_small. nia.
Qed.

Lemma uint16_range z : 0 <= Cast.uint16 z < 2 ^ 16.
Proof. unfold Cast.uint16, Cast.unsigned. apply Z.mod_pos_bound. lia. Qed.

(** The ten operations on the 34 bytes of the header, when they are there. *)
Ltac header Hfit :=
  unfold Parse, Reader.over, Source.over;
  do 10 (first [rewrite ReaderFacts.skip_spec | rewrite ReaderFacts.get_spec];
         cbn [andb sizeof Nat.add]; rewrite Hfit by lia;
         cbv beta iota zeta; cbn [Reader.success negb orb]);
  unfold minSupportedPixelOffset;
  cbn [o_pixels o_format o_width o_height Reader.source].

(** [Parse] on an input that passes the checks of the header: what is left
    is the pixel loop. *)
Lemma Parse_checked data o :
  bmp_header_ok data ->
  Parse data o
  = if bmp_compression data =? 0 then
      if reserve_throws (bmp_width data) (bmp_height data) then thrown
      else
      let '(ok, _, pixels) :=
        read_pixels
          (Z.to_nat (Cast.uint32 (Cast.uint32 (bmp_width data)
                                  * Cast.uint32 (bmp_height data))))
          (Reader.mk (snd (Source.seek (Source.mk data 34) (bmp_pixels_at data)))
             true)
          (o_pixels o) in
      returned (ok, mkOut (bmp_width data) (bmp_height data) RGB pixels)
    else returned
           (true,
            mkOut (bmp_width data) (bmp_height data) (o_format o) (o_pixels o)).
Proof.
  intros [Hlen [Hm [Ho [Hw [Hh Hb]]]]].
  assert (Hfit : forall n, (n <= 34)%nat -> (n <=? length data)%nat = true)
    by (intros n Hn; apply Nat.leb_le; lia).
  revert Hw Hh. unfold bmp_width, bmp_height, bmp_compression, bmp_pixels_at.
  header Hfit. intros Hw Hh.
  rewrite Hm, (proj2 (Z.ltb_ge _ _) Ho).
  rewrite (proj2 (Z.eqb_neq _ _) Hw), (proj2 (Z.eqb_neq _ _) Hh).
  assert (Eb : negb (decode U16 (slice data 28 2) =? 24)
               && negb (decode U16 (slice data 28 2) =? 32) = false)
    by (destruct Hb as [E | E]; rewrite E; reflexivity).
  rewrite Eb. reflexivity.
Qed.

Lemma pixels_at_range data : 0 <= bmp_pixels_at data.
Proof.
  unfold bmp_pixels_at, swap_words, Cast.uint32, Cast.unsigned.
  apply Z.mod_pos_bound. lia.
Qed.

Lemma size_range data :
  0 <= bmp_width data < 65536 /\ 0 <= bmp_height data < 65536.
Proof.
  unfold bmp_width, bmp_height. split; apply uint16_range.
Qed.

(** The number of rounds of the pixel loop. *)
Lemma rounds data :
  Z.to_nat (Cast.uint32 (Cast.uint32 (bmp_width data)
                         * Cast.uint32 (bmp_height data)))
  = Z.to_nat (bmp_width data * bmp_height data).
Proof.
  destruct (size_range data) as [Hw Hh].
  rewrite pixel_count by (change (2 ^ 16) with 65536; lia). reflexivity.
Qed.

(** A product within [int] is reserved without an exception. *)
Lemma reserve_fits w h :
  0 <= w < 65536 -> 0 <= h < 65536 -> 3 * w * h < 2 ^ 31 ->
  reserve_throws w h = false.
Proof.
  intros Hw Hh Hfit. unfold reserve_throws, reserve_size, Cast.int32.
  change (2 ^ 31) with 2147483648 in Hfit.
  assert (E32 : forall z, - 2147483648 <= z < 2147483648 -> Cast.signed 32 z = z)
    by (intros z Hz; apply CastFacts.signed_small; simpl; lia).
  rewrite (E32 (w * h)) by nia.
  rewrite (E32 (w * h * 3)) by nia.
  rewrite CastFacts.size_t_small by (change (2 ^ 64) with 18446744073709551616; nia).
  apply Z.ltb_ge. change (2 ^ 63) with 9223372036854775808. nia.
Qed.

(** The place at which the pixel loop starts, for a pixel offset within the
    file. *)
Lemma seek_pixels data :
  bmp_pixels_at data <= Z.of_nat (length data) ->
  snd (Source.seek (Source.mk data 34) (bmp_pixels_at data))
  = Source.mk data (Z.to_nat (bmp_pixels_at data)).
Proof.
  intros H. pose proof (pixels_at_range data) as RP.
  unfold Source.seek. cbn [Source.data].
  rewrite (proj2 (Z.leb_le 0 _) RP), (proj2 (Z.leb_le _ _) H). reflexivity.
Qed.

End ParseFacts.

(** X11.  [Parse] returns true only for an input that passes every check
    of the header: 34 bytes, the magic "BM", a pixel offset field of at
    least 54, a width and a height that come out non-zero, 24 or 32 bits per
    pixel.  Width and height are then in 1..65535; with a compression other
    than 0 [format] and [pixels] are as passed in, with compression 0 the
    format is RGB and [pixels] has grown by three bytes for each of
    width * height pixels. *)
Theorem Parse_true_only_for_checked_header
  (data : list byte) (o o' : BmpImageParser.out) :
  BmpImageParser.Parse data o = returned (true, o') ->
  bmp_header_ok data
  /\ BmpImageParser.o_width o' = bmp_width data
  /\ BmpImageParser.o_height o' = bmp_height data
  /\ 1 <= bmp_width data <= 65535 /\ 1 <= bmp_height data <= 65535
  /\ (bmp_compression data <> 0 ->
      BmpImageParser.o_format o' = BmpImageParser.o_format o
      /\ BmpImageParser.o_pixels o' = BmpImageParser.o_pixels o)
  /\ (bmp_compression data = 0 ->
      BmpImageParser.o_format o' = RGB
      /\ exists added,
           BmpImageParser.o_pixels o' = BmpImageParser.o_pixels o ++ added
           /\ Z.of_nat (length added) = 3 * bmp_width data * bmp_height data).
Proof.
  intros HP.
  destruct (Nat.le_gt_cases 34 (length data)) as [Hlen | Hlen];
    [| destruct (ParseFacts.Parse_short data o Hlen) as [o'' Hs];
       rewrite HP in Hs; discriminate Hs].
  assert (Hfit : forall n, (n <= 34)%nat -> (n <=? length data)%nat = true)
    by (intros n Hn; apply Nat.leb_le; lia).
  revert HP.
  unfold bmp_header_ok, bmp_width, bmp_height, bmp_compression.
  ParseFacts.header Hfit.
  pose proof (ParseFacts.uint16_range
                (Cast.int32 (swap_words (decode I32 (slice data 16 4))))) as RW.
  pose proof (ParseFacts.uint16_range
                (Z.abs (Cast.int32 (swap_words (decode I32 (slice data 20 4))))))
    as RH.
  set (W := Cast.uint16 (Cast.int32 (swap_words (decode I32 (slice data 16 4)))))
    in *.
  set (H := Cast.uint16
              (Z.abs (Cast.int32 (swap_words (decode I32 (slice data 20 4))))))
    in *.
  destruct (decode U16 (slice data 0 2) =? 19778) eqn:Em; cbn [negb];
    [| discriminate].
  destruct (decode U32 (slice data 8 4) <? 54) eqn:Eo; [discriminate |].
  destruct (W =? 0) eqn:Ew; cbn [orb]; [discriminate |].
  destruct (H =? 0) eqn:Eh; [discriminate |].
  destruct (negb (decode U16 (slice data 28 2) =? 24)
            && negb (decode U16 (slice data 28 2) =? 32)) eqn:Eb;
    [discriminate |].
  apply Z.eqb_eq in Em. apply Z.ltb_ge in Eo.
  apply Z.eqb_neq in Ew. apply Z.eqb_neq in Eh.
  assert (Hbpp : decode U16 (slice data 28 2) = 24
                 \/ decode U16 (slice data 28 2) = 32).
  { apply andb_false_iff in Eb. destruct Eb as [Eb | Eb];
      apply negb_false_iff, Z.eqb_eq in Eb; auto. }
  change (2 ^ 16) with 65536 in RW, RH.
  destruct (decode U32 (slice data 30 4) =? 0) eqn:Ec.
  - apply Z.eqb_eq in Ec.
    destruct (BmpImageParser.reserve_throws W H); [discriminate |].
    match goal with
    | |- context [BmpImageParser.read_pixels ?n ?r ?px] =>
        destruct (ParseFacts.read_pixels_grows n r px) as [added [Ea La]];
        destruct (BmpImageParser.read_pixels n r px) as [[ok r'] px']
    end.
    cbn [fst snd] in Ea, La. intros E. injection E as Eok Eo'. subst o' ok px'.
    cbn [BmpImageParser.o_width BmpImageParser.o_height
         BmpImageParser.o_format BmpImageParser.o_pixels].
    repeat split; try assumption; try lia.
    exists added. split; [reflexivity |].
    rewrite (La eq_refl), ParseFacts.pixel_count by (change (2 ^ 16) with 65536; lia).
    rewrite Nat2Z.inj_mul, Z2Nat.id by nia. lia.
  - apply Z.eqb_neq in Ec. intros E. injection E as Eo'. subst o'.
    cbn [BmpImageParser.o_width BmpImageParser.o_height
         BmpImageParser.o_format BmpImageParser.o_pixels].
    repeat split; try assumption; try lia; contradiction.
Qed.

Lemma Parse_true_only_for_checked_header_witness :
  bmp_header_ok example_bmp
  /\ BmpImageParser.o_width (BmpImageParser.mkOut 1 1 RGB [Byte.x1e; Byte.x14; Byte.x0a])
     = bmp_width example_bmp
  /\ BmpImageParser.o_height (BmpImageParser.mkOut 1 1 RGB [Byte.x1e; Byte.x14; Byte.x0a])
     = bmp_height example_bmp
  /\ 1 <= bmp_width example_bmp <= 65535 /\ 1 <= bmp_height example_bmp <= 65535
  /\ (bmp_compression example_bmp <> 0 ->
      BmpImageParser.o_format (BmpImageParser.mkOut 1 1 RGB [Byte.x1e; Byte.x14; Byte.x0a])
      = BmpImageParser.o_format (BmpImageParser.mkOut 0 0 RGBA [])
      /\ BmpImageParser.o_pixels (BmpImageParser.mkOut 1 1 RGB [Byte.x1e; Byte.x14; Byte.x0a])
         = BmpImageParser.o_pixels (BmpImageParser.mkOut 0 0 RGBA []))
  /\ (bmp_compression example_bmp = 0 ->
      BmpImageParser.o_format (BmpImageParser.mkOut 1 1 RGB [Byte.x1e; Byte.x14; Byte.x0a])
      = RGB
      /\ exists added,
           BmpImageParser.o_pixels (BmpImageParser.mkOut 1 1 RGB [Byte.x1e; Byte.x14; Byte.x0a])
           = BmpImageParser.o_pixels (BmpImageParser.mkOut 0 0 RGBA []) ++ added
           /\ Z.of_nat (length added) = 3 * bmp_width example_bmp * bmp_height example_bmp).
Proof.
  apply (Parse_true_only_for_checked_header example_bmp
           (BmpImageParser.mkOut 0 0 RGBA [])
           (BmpImageParser.mkOut 1 1 RGB [Byte.x1e; Byte.x14; Byte.x0a])).
  vm_compute. reflexivity.
Defined.

(** X12.  For an input that passes the checks of the header, with
    compression 0, a byte count 3 * width * height of the pixels below 2^31
    (so that the [int] of [reserve] does not overflow; memory for it is
    taken to be there) and all pixels present from the pixel offset on,
    [Parse] returns true, sets the format to RGB and appends to [pixels],
    for each of the width * height pixels in the order of the file, the
    three bytes it reads as b, g, r in the order r, g, b.  It reads three
    bytes a pixel whether the header says 24 or 32 bits per pixel, and rows
    are taken as they come, without padding. *)
Theorem Parse_uncompressed_converts_bgr_to_rgb
  (data : list byte) (o : BmpImageParser.out) :
  bmp_header_ok data ->
  bmp_compression data = 0 ->
  3 * bmp_width data * bmp_height data < 2 ^ 31 ->
  bmp_pixels_at data + 3 * bmp_width data * bmp_height data
    <= Z.of_nat (length data) ->
  BmpImageParser.Parse data o
  = returned
      (true,
       BmpImageParser.mkOut (bmp_width data) (bmp_height data) RGB
         (BmpImageParser.o_pixels o
            ++ bgr_to_rgb (slice data (Z.to_nat (bmp_pixels_at data))
                             (Z.to_nat (3 * bmp_width data * bmp_height data))))).
Proof.
  intros Hok Hc Hint Hpix.
  pose proof (ParseFacts.pixels_at_range data) as RP.
  destruct (ParseFacts.size_range data) as [RW RH].
  rewrite ParseFacts.Parse_checked by exact Hok.
  rewrite Hc. cbn [Z.eqb].
  rewrite ParseFacts.reserve_fits by assumption.
  rewrite ParseFacts.seek_pixels by nia.
  rewrite ParseFacts.rounds, ParseFacts.read_pixels_fits by nia.
  replace (3 * Z.to_nat (bmp_width data * bmp_height data))%nat
    with (Z.to_nat (3 * bmp_width data * bmp_height data)) by nia.
  reflexivity.
Qed.

Lemma Parse_uncompressed_converts_bgr_to_rgb_witness :
  BmpImageParser.Parse example_bmp (BmpImageParser.mkOut 0 0 RGBA [])
  = returned
      (true,
       BmpImageParser.mkOut (bmp_width example_bmp) (bmp_height example_bmp) RGB
         (BmpImageParser.o_pixels (BmpImageParser.mkOut 0 0 RGBA [])
            ++ bgr_to_rgb
                 (slice example_bmp (Z.to_nat (bmp_pixels_at example_bmp))
                    (Z.to_nat (3 * bmp_width example_bmp * bmp_height example_bmp))))).
Proof.
  apply (Parse_uncompressed_converts_bgr_to_rgb example_bmp
           (BmpImageParser.mkOut 0 0 RGBA [])).
  - unfold bmp_header_ok. repeat split; try (vm_compute; discriminate).
    + vm_compute; lia.
    + left; reflexivity.
  - reflexivity.
  - vm_compute; reflexivity.
  - vm_compute; discriminate.
Defined.

Section ConvertFacts.

Context {fmt : TexFormat}.

(** An image that does not parse ends the tool before the target is
    opened. *)
Lemma main_convert_unparsed target srcFile :
  (exists o,
      BmpImageParser.Parse srcFile (BmpImageParser.mkOut 0 0 RGB [])
      = returned (false, o)) ->
  main_convert target srcFile = (1, None).
Proof.
  intros [o H]. unfold main_convert. rewrite H. reflexivity.
Qed.

(** X13.  A source file that ends before the 34 bytes of header that
    [Parse] decodes makes the tool exit with status 1 before it opens the
    target: no file is created, whatever the target. *)
Theorem main_convert_short_source_creates_no_file
  (target : Target) (srcFile : list byte) :
  (length srcFile < 34)%nat ->
  main_convert target srcFile = (1, None).
Proof.
  intros H. apply main_convert_unparsed. apply ParseFacts.Parse_short. exact H.
Qed.

(** X14.  An uncompressed bitmap with a good header and a byte count
    3 * width * height of its pixels below 2^31 (so that the [int] of
    [reserve] does not overflow; memory for it is taken to be there), whose
    bytes end before the last of its pixels (the pixel offset lying within
    the file), makes the tool exit with status 1 before it opens the target:
    no file is created. *)
Theorem main_convert_truncated_pixels_creates_no_file
  (target : Target) (srcFile : list byte) :
  bmp_header_ok srcFile ->
  bmp_compression srcFile = 0 ->
  3 * bmp_width srcFile * bmp_height srcFile < 2 ^ 31 ->
  bmp_pixels_at srcFile <= Z.of_nat (length srcFile)
    < bmp_pixels_at srcFile + 3 * bmp_width srcFile * bmp_height srcFile ->
  main_convert target srcFile = (1, None).
Proof.
  intros Hok Hc Hint Hpix. apply main_convert_unparsed.
  pose proof (ParseFacts.pixels_at_range srcFile) as RP.
  destruct (ParseFacts.size_range srcFile) as [RW RH].
  rewrite ParseFacts.Parse_checked by exact Hok.
  rewrite Hc. cbn [Z.eqb].
  rewrite ParseFacts.reserve_fits by assumption.
  rewrite ParseFacts.seek_pixels, ParseFacts.rounds by lia.
  match goal with
  | |- context [BmpImageParser.read_pixels ?n ?r ?px] =>
      pose proof (ParseFacts.read_pixels_short n srcFile
                    (Z.to_nat (bmp_pixels_at srcFile)) px) as Hs;
      destruct (BmpImageParser.read_pixels n r px) as [[ok r'] px']
  end.
  cbn [fst] in Hs. rewrite Hs by nia. eexists. reflexivity.
Qed.

(** X28.  Conversion and description fit together: for an uncompressed
    bitmap that passes the checks of the header, has a byte count
    3 * width * height of its pixels below 2^31 (so that the [int] of
    [reserve] does not overflow; memory for it is taken to be there) and has
    all its pixels, a
    target that opens and a medium that holds the output, the tool exits with
    status 0, and the file it leaves is one the [--info] branch accepts:
    the header described has the width and the height of the bitmap, no
    compression, the mip flag of [main], the size of the header as offset
    and the byte count of the pixels as length of level 0; after the header
    the file holds the pixels in the order r, g, b. *)
Theorem main_convert_then_main_info
  (target : Target) (srcFile : list byte) :
  bmp_header_ok srcFile ->
  bmp_compression srcFile = 0 ->
  3 * bmp_width srcFile * bmp_height srcFile < 2 ^ 31 ->
  bmp_pixels_at srcFile + 3 * bmp_width srcFile * bmp_height srcFile
    <= Z.of_nat (length srcFile) ->
  can_open target = true ->
  0 <= Version_1_0 < 2 ^ 32 ->
  Z.of_nat header_size + 3 * bmp_width srcFile * bmp_height srcFile < 2 ^ 63 ->
  roomy (capacity target)
    (header_size + Z.to_nat (3 * bmp_width srcFile * bmp_height srcFile)) ->
  exists file,
    main_convert target srcFile = (0, Some file)
    /\ main_info file
       = (0, Some (set_mipmapLength 0
                     (Cast.uint32 (3 * bmp_width srcFile * bmp_height srcFile))
                     (set_mipmapOffset 0 (Cast.uint32 (Z.of_nat header_size))
                        (main_header (bmp_width srcFile) (bmp_height srcFile)))))
    /\ skipn header_size file
       = bgr_to_rgb (slice srcFile (Z.to_nat (bmp_pixels_at srcFile))
                       (Z.to_nat (3 * bmp_width srcFile * bmp_height srcFile))).
Proof.
  intros Hok Hc Hint Hpix Hopen HV H63 Hroom.
  pose proof (ParseFacts.pixels_at_range srcFile) as RP.
  destruct (ParseFacts.size_range srcFile) as [RW RH].
  set (W := bmp_width srcFile) in *. set (H := bmp_height srcFile) in *.
  set (pixels := bgr_to_rgb (slice srcFile (Z.to_nat (bmp_pixels_at srcFile))
                               (Z.to_nat (3 * W * H)))).
  assert (Hlen : length pixels = Z.to_nat (3 * W * H)).
  { assert (Hs : length (slice srcFile (Z.to_nat (bmp_pixels_at srcFile))
                           (Z.to_nat (3 * W * H))) = Z.to_nat (3 * W * H))
      by (unfold slice; rewrite length_firstn, length_skipn; lia).
    subst pixels. rewrite ParseFacts.bgr_to_rgb_length; [exact Hs |].
    exists (Z.to_nat (W * H)). rewrite Hs. nia. }
  assert (EP : BmpImageParser.Parse srcFile (BmpImageParser.mkOut 0 0 RGB [])
               = returned (true, BmpImageParser.mkOut W H RGB pixels)).
  { rewrite ParseFacts.Parse_checked by exact Hok.
    rewrite Hc. cbn [Z.eqb].
    rewrite ParseFacts.reserve_fits by (fold W H; assumption).
    rewrite ParseFacts.seek_pixels by (fold W H; nia).
    rewrite ParseFacts.rounds. fold W H.
    rewrite ParseFacts.read_pixels_fits by nia.
    replace (3 * Z.to_nat (W * H))%nat with (Z.to_nat (3 * W * H)) by nia.
    reflexivity. }
  destruct (main_header_valid W H) as (Hvalid & _);
    [change (2 ^ 16) with 65536; lia .. | exact HV |].
  assert (Hcat : concat [pixels] = pixels) by apply app_nil_r.
  exists (OStream.content (main_write (OStream.fresh (capacity target)) W H pixels)).
  split; [| split].
  - unfold main_convert. rewrite EP, Hopen. reflexivity.
  - rewrite main_write_save.
    rewrite save_then_info by (rewrite ?Hcat, ?Hlen; try assumption; lia).
    destruct Hvalid as (_ & _ & _ & _ & _ & Ho & Hl & _).
    rewrite save_fresh by (rewrite ?Hcat, ?Hlen; try assumption; lia).
    cbn [snd record_segments]. rewrite Hlen, Z2Nat.id by nia.
    reflexivity.
  - rewrite main_write_save.
    destruct Hvalid as (_ & _ & _ & _ & _ & Ho & Hl & _).
    rewrite save_fresh by (rewrite ?Hcat, ?Hlen; try assumption; lia).
    cbn [fst appended OStream.content]. rewrite Hcat.
    apply CodecFacts.skipn_prefix.
    destruct (RecordFacts.scalars [pixels] 0 header_size (main_header W H))
      as (_ & _ & _ & _ & _ & Ho' & Hl').
    apply header_bytes_length; congruence.
Qed.

End ConvertFacts.

Lemma main_convert_short_source_creates_no_file_witness :
  main_convert (fmt := example_format) (mkTarget true None) (firstn 33 example_bmp)
  = (1, None).
Proof.
  apply (main_convert_short_source_creates_no_file (fmt := example_format)
           (mkTarget true None) (firstn 33 example_bmp)).
  vm_compute; lia.
Defined.

Lemma main_convert_truncated_pixels_creates_no_file_witness :
  main_convert (fmt := example_format) (mkTarget true None) (firstn 56 example_bmp)
  = (1, None).
Proof.
  apply (main_convert_truncated_pixels_creates_no_file (fmt := example_format)
           (mkTarget true None) (firstn 56 example_bmp)).
  - unfold bmp_header_ok. repeat split; try (vm_compute; discriminate).
    + vm_compute; lia.
    + left; reflexivity.
  - reflexivity.
  - vm_compute; reflexivity.
  - vm_compute. split; [discriminate | reflexivity].
Defined.

Lemma main_convert_then_main_info_witness :
  exists file,
    main_convert (fmt := example_format) (mkTarget true (Some 64%nat)) example_bmp
    = (0, Some file)
    /\ main_info (fmt := example_format) file
       = (0, Some (set_mipmapLength 0
                     (Cast.uint32 (3 * bmp_width example_bmp * bmp_height example_bmp))
                     (set_mipmapOffset 0
                        (Cast.uint32 (Z.of_nat (header_size (fmt := example_format))))
                        (main_header (fmt := example_format)
                           (bmp_width example_bmp) (bmp_height example_bmp)))))
    /\ skipn (header_size (fmt := example_format)) file
       = bgr_to_rgb (slice example_bmp (Z.to_nat (bmp_pixels_at example_bmp))
                       (Z.to_nat (3 * bmp_width example_bmp * bmp_height example_bmp))).
Proof.
  apply (main_convert_then_main_info (fmt := example_format)
           (mkTarget true (Some 64%nat)) example_bmp).
  - unfold bmp_header_ok. repeat split; try (vm_compute; discriminate).
    + vm_compute; lia.
    + left; reflexivity.
  - reflexivity.
  - vm_compute; reflexivity.
  - vm_compute; discriminate.
  - reflexivity.
  - vm_compute. split; [discriminate | reflexivity].
  - vm_compute; reflexivity.
  - vm_compute; lia.
Defined.

(** ** What a chain keeps *)

Module ChainFacts.

Import Reader.

Lemma read_into_keeps {D} (I : D -> Prop) T (store : Z -> D -> D) st :
  (forall v d, I d -> I (store v d)) ->
  I (snd st) -> I (snd (read_into T store st)).
Proof.
  intros Hs Hi. unfold read_into.
  destruct (fetch (fst st) (sizeof T)) as [[bs |] r]; cbn [snd]; auto.
Qed.

Lemma read_slots_keeps {D} (I : D -> Prop) T (store : nat -> Z -> D -> D)
  slots st :
  (forall i v d, I d -> I (store i v d)) ->
  I (snd st) -> I (snd (read_slots T store slots st)).
Proof.
  intros Hs. unfold read_slots. revert st.
  induction slots as [| i slots IH]; intros st Hi; cbn [fold_left].
  - exact Hi.
  - apply IH. apply read_into_keeps; [apply Hs | exact Hi].
Qed.

Lemma step_keeps {D} (I : D -> Prop) (f : field D) st :
  field_keeps I f -> I (snd st) -> I (snd (step f st)).
Proof.
  destruct f as [T store | T | T size store]; cbn [field_keeps step]; intros Hk Hi.
  - apply read_into_keeps; assumption.
  - exact Hi.
  - apply read_slots_keeps; assumption.
Qed.

Lemma chain_keeps {D} (I : D -> Prop) (fs : list (field D)) st :
  Forall (field_keeps I) fs -> I (snd st) -> I (snd (chain fs st)).
Proof.
  unfold chain. intros Hk. revert st.
  induction Hk as [| f fs Hf Hfs IH]; intros st Hi; cbn [fold_left].
  - exact Hi.
  - apply IH. apply step_keeps; assumption.
Qed.

End ChainFacts.

Section InfoFacts.

Context {fmt : TexFormat}.

(** X15.  Whatever the bytes and whether or not it succeeds, [loadHeader]
    leaves the version of the header and the number of slots of its two
    arrays as they were: the bytes of a file decide the values in the slots,
    never how many there are. *)
Theorem loadHeader_keeps_version_and_slots (header : Header) (reader : Reader.t) :
  let header' := snd (fst (loadHeader header reader)) in
  version header' = version header
  /\ length (mipmapOffsets header') = length (mipmapOffsets header)
  /\ length (mipmapLengths header') = length (mipmapLengths header).
Proof.
  cbv zeta.
  pose (I := fun h' : Header =>
               version h' = version header
               /\ length (mipmapOffsets h') = length (mipmapOffsets header)
               /\ length (mipmapLengths h') = length (mipmapLengths header)).
  assert (H : I (snd (Reader.chain loadHeader_fields (reader, header)))).
  { apply ChainFacts.chain_keeps; [| cbn [snd]; repeat split].
    unfold loadHeader_fields.
    repeat apply Forall_cons; try apply Forall_nil;
      cbn [field_keeps]; unfold I; intros;
      cbn [version mipmapOffsets mipmapLengths set_compression
           set_hasMips set_width set_height set_mipmapOffset
           set_mipmapLength];
      rewrite ?RecordFacts.assign_length; assumption. }
  unfold loadHeader.
  destruct (Reader.chain loadHeader_fields (reader, header)) as [r h'].
  exact H.
Qed.

(** X16.  The [--info] branch accepts a file that has the bytes of a
    pre-header and a header, begins with the magic and carries the supported
    version; the header it describes is the one decoded from the bytes after
    the pre-header, whatever follows the header. *)
Theorem main_info_describes_decoded_header (srcFile : list byte) :
  (header_size <= length srcFile)%nat ->
  firstn (length magic) srcFile = magic ->
  decode U32 (slice srcFile (length magic) 4) = Version_1_0 ->
  main_info srcFile
  = (0, Some (header_at Version_1_0 srcFile (length magic + 4))).
Proof.
  intros Hlen Hm Hv. unfold header_size in Hlen.
  unfold main_info, loadPreHeader, Reader.over, Source.over.
  rewrite ReaderFacts.fetch_spec. cbn [andb].
  destruct (Nat.leb_spec (0 + length magic) (length srcFile)) as [_ | Hno];
    [| lia].
  rewrite ReaderFacts.get_spec. cbn [andb sizeof Nat.add].
  destruct (Nat.leb_spec (length magic + 4) (length srcFile)) as [_ | Hno];
    [| lia].
  unfold slice at 1. cbn [skipn].
  destruct (list_eq_dec Byte.byte_eq_dec (firstn (length magic) srcFile) magic)
    as [_ | Hne]; [| contradiction].
  rewrite Hv.
  cbn [Reader.success pre_version andb]. rewrite Z.eqb_refl. cbn [negb].
  rewrite loadHeader_fits;
    [ | apply repeat_length | apply repeat_length
      | unfold header_v1_size; lia ].
  reflexivity.
Qed.

(** X17.  The [--info] branch exits with status 1 and describes nothing
    for every other file: one that is shorter than pre-header and header,
    does not begin with the magic, or carries another version. *)
Theorem main_info_rejects_other_files (srcFile : list byte) :
  ~ ((header_size <= length srcFile)%nat
     /\ firstn (length magic) srcFile = magic
     /\ decode U32 (slice srcFile (length magic) 4) = Version_1_0) ->
  main_info srcFile = (1, None).
Proof.
  intros Hnot. unfold header_size in Hnot.
  unfold main_info, loadPreHeader, Reader.over, Source.over.
  rewrite ReaderFacts.fetch_spec. cbn [andb].
  destruct (Nat.leb_spec (0 + length magic) (length srcFile)) as [Hm | Hm].
  - rewrite ReaderFacts.get_spec. cbn [andb sizeof Nat.add].
    destruct (Nat.leb_spec (length magic + 4) (length srcFile)) as [Hv | Hv].
    + unfold slice at 1. cbn [skipn Reader.success andb pre_version].
      destruct (list_eq_dec Byte.byte_eq_dec (firstn (length magic) srcFile) magic)
        as [Em | Em]; cbn [andb negb]; [| reflexivity].
      destruct (decode U32 (slice srcFile (length magic) 4) =? Version_1_0)
        eqn:Ev; cbn [negb]; [| reflexivity].
      apply Z.eqb_eq in Ev.
      destruct (Nat.le_gt_cases (length magic + 4 + header_v1_size)
                  (length srcFile)) as [Hh | Hh].
      * exfalso. apply Hnot. unfold header_v1_size in Hh.
        repeat split; [lia | exact Em | exact Ev].
      * pose proof (loadHeader_short
                      (Header_new (decode U32 (slice srcFile (length magic) 4)))
                      srcFile (length magic + 4)
                      (repeat_length _ _) (repeat_length _ _) Hh) as Hs.
        destruct (loadHeader _ _) as [[ok h] r]. cbn [fst] in Hs.
        subst ok. reflexivity.
    + cbn [Reader.success andb negb]. reflexivity.
  - rewrite ReaderFacts.get_spec. cbn [andb Reader.success negb]. reflexivity.
Qed.

End InfoFacts.

Lemma main_info_describes_decoded_header_witness :
  let srcFile :=
    [Byte.x48; Byte.x54; Byte.x00; Byte.x01; Byte.x00; Byte.x00;
     Byte.x00; Byte.x01; Byte.x02; Byte.x00; Byte.x01; Byte.x00;
     Byte.x1c; Byte.x00; Byte.x00; Byte.x00; Byte.x00; Byte.x00; Byte.x00; Byte.x00;
     Byte.x03; Byte.x00; Byte.x00; Byte.x00; Byte.x00; Byte.x00; Byte.x00; Byte.x00;
     Byte.xaa; Byte.xbb; Byte.xcc] in
  main_info (fmt := example_format) srcFile
  = (0, Some (header_at (fmt := example_format) 256 srcFile 6)).
Proof.
  apply (main_info_describes_decoded_header (fmt := example_format)).
  - vm_compute; lia.
  - reflexivity.
  - reflexivity.
Defined.

Lemma main_info_rejects_other_files_witness :
  main_info (fmt := example_format)
    [Byte.x48; Byte.x54; Byte.x00; Byte.x02; Byte.x00; Byte.x00] = (1, None).
Proof.
  apply (main_info_rejects_other_files (fmt := example_format)
           [Byte.x48; Byte.x54; Byte.x00; Byte.x02; Byte.x00; Byte.x00]).
  vm_compute. intros [H _]. lia.
Defined.

(** ** The console *)

Module ConsoleFacts.

Import Str.

Lemma find_none ch s : find ch s = None -> ~ In ch s.
Proof.
  induction s as [| x s IH]; cbn [find]; intros H Hin; [destruct Hin |].
  destruct (Byte.eqb x ch) eqn:E; [discriminate |].
  destruct (find ch s); [discriminate |].
  destruct Hin as [Hx | Hs]; [| exact (IH eq_refl Hs)].
  subst x. rewrite (Byte.byte_dec_lb (eq_refl ch)) in E. discriminate.
Qed.

Lemma find_some ch s i :
  find ch s = Some i ->
  s = firstn i s ++ ch :: skipn (i + 1) s /\ ~ In ch (firstn i s).
Proof.
  revert i. induction s as [| x s IH]; cbn [find]; intros i H; [discriminate |].
  destruct (Byte.eqb x ch) eqn:E.
  - injection H as <-. apply Byte.byte_dec_bl in E. subst x.
    split; [reflexivity | intros []].
  - destruct (find ch s) as [j |]; [| discriminate]. injection H as <-.
    destruct (IH j eq_refl) as [Es Hn]. cbn [firstn skipn Nat.add app].
    split; [rewrite <- Es; reflexivity |].
    intros [Hx | Hin]; [| exact (Hn Hin)].
    subst x. rewrite (Byte.byte_dec_lb (eq_refl ch)) in E. discriminate.
Qed.

(** The two parts of a command line. *)
Lemma split_command_parts commandLine :
  let '(command, arguments) := Console.split_command commandLine in
  ~ In Byte.x20 command
  /\ ((commandLine = command /\ arguments = [])
      \/ commandLine = command ++ Byte.x20 :: arguments).
Proof.
  unfold Console.split_command.
  destruct (find Byte.x20 commandLine) as [space |] eqn:F.
  - destruct (find_some _ _ _ F) as [E Hn].
    unfold substr, substr_from. cbn [skipn].
    split; [exact Hn | right; exact E].
  - split; [exact (find_none _ _ F) | left; split; reflexivity].
Qed.

(** The log never holds more than its fifty entries. *)
Lemma log_entry_firstn {M} (log : list M) (m : M) :
  (length log <= 50)%nat -> Console.log_entry log m = firstn 50 (m :: log).
Proof.
  intros H. unfold Console.log_entry.
  destruct (Nat.ltb_spec 50 (length (m :: log))) as [Hl | Hl].
  - rewrite removelast_firstn_len. cbn [length] in *.
    replace (Nat.pred (S (length log))) with 50%nat by lia. reflexivity.
  - symmetry. apply firstn_all2. lia.
Qed.

Lemma log_entries {M} (msgs log : list M) :
  (length log <= 50)%nat ->
  fold_left Console.log_entry msgs log = firstn 50 (rev msgs ++ log).
Proof.
  revert log. induction msgs as [| m msgs IH]; intros log H; cbn [fold_left rev].
  - symmetry. apply firstn_all2. exact H.
  - rewrite IH by (rewrite log_entry_firstn by exact H;
                   rewrite length_firstn; lia).
    rewrite log_entry_firstn by exact H.
    rewrite <- app_assoc. cbn [app].
    rewrite !firstn_app.
    destruct (Nat.le_gt_cases 50 (length (rev msgs))) as [Hr | Hr].
    + replace (50 - length (rev msgs))%nat with 0%nat by lia. reflexivity.
    + f_equal. remember (50 - length (rev msgs))%nat as k eqn:Ek.
      destruct k as [| k]; [lia |].
      change 50%nat with (S 49). rewrite !firstn_cons. f_equal.
      rewrite firstn_firstn. f_equal. lia.
Qed.

(** One key event. *)
Lemma KeyDown_step (w : Console.window) (key : Z) :
  (Console.s_consoleVisible w = true -> 0 < Console.s_consoleWindowHeight w) ->
  (Console.s_consoleVisible (snd (Console.KeyDown w key)) = true ->
   0 < Console.s_consoleWindowHeight (snd (Console.KeyDown w key)))
  /\ Console.s_consoleVisible (snd (Console.KeyDown w key))
     = xorb (Console.s_consoleVisible w) (Console.console_key key).
Proof.
  intros Hw. unfold Console.KeyDown, Console.console_key.
  destruct ((key =? 192) || (key =? 220)); cbn [snd].
  - cbn [Console.s_consoleVisible Console.s_consoleWindowHeight].
    destruct (Console.s_consoleVisible w); cbn [negb andb xorb].
    + split; [discriminate | reflexivity].
    + split; [| reflexivity]. intros _.
      destruct (Z.leb_spec (Console.s_consoleWindowHeight w) 0); lia.
  - rewrite xorb_false_r. split; [exact Hw | reflexivity].
Qed.

Section Registry.

Context {V : Type}.
Variable same : list byte -> list byte -> bool.

Lemma erase_absent (m : list (list byte * V)) k :
  KeyMap.find same m k = None -> KeyMap.erase same m k = m.
Proof.
  induction m as [| [k' v] m IH]; cbn [KeyMap.find KeyMap.erase]; intros H.
  - reflexivity.
  - destruct (same k' k); [discriminate |]. rewrite IH by exact H. reflexivity.
Qed.

Lemma find_erase (m : list (list byte * V)) k :
  KeyMap.find same (KeyMap.erase same m k) k = None.
Proof.
  induction m as [| [k' v] m IH]; cbn [KeyMap.find KeyMap.erase].
  - reflexivity.
  - destruct (same k' k) eqn:E; [exact IH |].
    cbn [KeyMap.find]. rewrite E. exact IH.
Qed.

(** Keys that no entry tells apart resolve to the same entry. *)
Lemma find_alike (m : list (list byte * V)) k1 k2 :
  (forall k, same k k1 = same k k2) ->
  KeyMap.find same m k1 = KeyMap.find same m k2.
Proof.
  intros H. induction m as [| [k' v] m IH]; cbn [KeyMap.find].
  - reflexivity.
  - rewrite (H k'), IH. reflexivity.
Qed.

Lemma find_erase_other (m : list (list byte * V)) k k2 :
  (forall k', same k' k = true -> same k' k2 = false) ->
  KeyMap.find same (KeyMap.erase same m k) k2 = KeyMap.find same m k2.
Proof.
  intros H. induction m as [| [k' v] m IH]; cbn [KeyMap.find KeyMap.erase].
  - reflexivity.
  - destruct (same k' k) eqn:E.
    + rewrite (H k' E). exact IH.
    + cbn [KeyMap.find]. rewrite IH. reflexivity.
Qed.

End Registry.

End ConsoleFacts.

(** X18.  Through any sequence of key events a console window that is
    visible only with a positive height stays so, and its visibility in the
    end is the one it began with, flipped once for each console key (0xC0,
    0xDC) among the events. *)
Theorem KeyDown_toggles_with_positive_height (w : Console.window) (keys : list Z) :
  (Console.s_consoleVisible w = true -> 0 < Console.s_consoleWindowHeight w) ->
  let w' := Console.keys_down w keys in
  (Console.s_consoleVisible w' = true -> 0 < Console.s_consoleWindowHeight w')
  /\ Console.s_consoleVisible w'
     = xorb (Console.s_consoleVisible w)
         (Nat.odd (length (filter Console.console_key keys))).
Proof.
  cbv zeta. unfold Console.keys_down. revert w.
  induction keys as [| key keys IH]; intros w Hw; cbn [fold_left filter].
  - split; [exact Hw |]. cbn [length Nat.odd]. rewrite xorb_false_r. reflexivity.
  - destruct (ConsoleFacts.KeyDown_step w key Hw) as [H1 H2].
    destruct (IH _ H1) as [H3 H4]. split; [exact H3 |].
    rewrite H4, H2.
    destruct (Console.console_key key); cbn [length].
    + rewrite Nat.odd_succ, <- Nat.negb_odd.
      destruct (Console.s_consoleVisible w), (Nat.odd _); reflexivity.
    + rewrite xorb_false_r. reflexivity.
Qed.

Lemma KeyDown_toggles_with_positive_height_witness :
  let w := Console.mkWindow false 0 in
  let w' := Console.keys_down w [192; 65; 220; 192] in
  (Console.s_consoleVisible w' = true -> 0 < Console.s_consoleWindowHeight w')
  /\ Console.s_consoleVisible w'
     = xorb (Console.s_consoleVisible w)
         (Nat.odd (length (filter Console.console_key [192; 65; 220; 192]))).
Proof.
  apply (KeyDown_toggles_with_positive_height (Console.mkWindow false 0)
           [192; 65; 220; 192]).
  simpl. discriminate.
Defined.

(** X19.  After any number of log entries the console log holds the latest
    fifty messages, the newest first. *)
Theorem console_log_holds_latest_fifty {M : Type} (messages : list M) :
  fold_left Console.log_entry messages [] = firstn 50 (rev messages).
Proof.
  rewrite ConsoleFacts.log_entries by (cbn [length]; lia).
  rewrite app_nil_r. reflexivity.
Qed.

Section ConsoleTheorems.

Context {Handler Category : Type}.
Variable same_name : list byte -> list byte -> bool.

(** X20.  When [ExecuteCommand] calls a handler, the handler is the one
    registered under a name the comparator takes for the first word of the
    line; it is called with that word as it was typed, which is not empty
    and holds no space, and with everything after the first space, further
    spaces included, or with empty arguments when the line has no space. *)
Theorem ExecuteCommand_calls_with_first_word
  (s_consoleCommands : Console.Commands) (commandLine : list byte)
  (h : Handler) (command arguments : list byte) :
  Console.ExecuteCommand same_name s_consoleCommands commandLine
    = Console.Called h command arguments ->
  command <> [] /\ ~ In Byte.x20 command
  /\ ((commandLine = command /\ arguments = [])
      \/ commandLine = command ++ Byte.x20 :: arguments)
  /\ exists cmd : Console.ConsoleCommand (Handler := Handler) (Category := Category),
       KeyMap.find same_name s_consoleCommands command = Some cmd
       /\ Console.handler cmd = Some h.
Proof.
  unfold Console.ExecuteCommand.
  pose proof (ConsoleFacts.split_command_parts commandLine) as Hs.
  destruct (Console.split_command commandLine) as [c a].
  destruct Hs as [Hn Hl].
  destruct c as [| x c]; [discriminate |].
  destruct (KeyMap.find same_name s_consoleCommands (x :: c)) as [cmd |] eqn:F;
    [| discriminate].
  destruct (Console.handler cmd) as [h' |] eqn:Hh; [| discriminate].
  intros E. injection E as -> <- <-.
  split; [discriminate |]. split; [exact Hn |]. split; [exact Hl |].
  exists cmd. split; [exact F | exact Hh].
Qed.

(** X21.  [ExecuteCommand] returns without calling a handler and without
    a word to the log in exactly three cases: the line is empty, the line
    begins with a space, or the first word of the line is registered with an
    empty handler. *)
Theorem ExecuteCommand_silent_iff
  (s_consoleCommands : Console.Commands (Handler := Handler) (Category := Category))
  (commandLine : list byte) :
  (Console.ExecuteCommand same_name s_consoleCommands commandLine = Console.Ignored
   \/ Console.ExecuteCommand same_name s_consoleCommands commandLine
      = Console.NoHandler)
  <-> (commandLine = []
       \/ (exists rest, commandLine = Byte.x20 :: rest)
       \/ exists cmd,
            KeyMap.find same_name s_consoleCommands
              (fst (Console.split_command commandLine)) = Some cmd
            /\ Console.handler cmd = None).
Proof.
  unfold Console.ExecuteCommand.
  pose proof (ConsoleFacts.split_command_parts commandLine) as Hs.
  destruct (Console.split_command commandLine) as [c a] eqn:Es.
  destruct Hs as [Hn Hl]. cbn [fst]. split.
  - destruct c as [| x c].
    + intros _. destruct Hl as [[E _] | E]; [left; exact E |].
      right. left. exists a. exact E.
    + destruct (KeyMap.find same_name s_consoleCommands (x :: c)) as [cmd |];
        [| intros [E | E]; discriminate E].
      destruct (Console.handler cmd) eqn:Hh; [intros [E | E]; discriminate E |].
      intros _. right. right. exists cmd. split; [reflexivity | exact Hh].
  - intros H. destruct c as [| x c]; [left; reflexivity |].
    destruct H as [E | [[rest E] | [cmd [F Hh]]]].
    + exfalso. subst commandLine. discriminate Es.
    + exfalso. subst commandLine. unfold Console.split_command in Es.
      cbn [Str.find] in Es. cbn in Es. discriminate Es.
    + rewrite F, Hh. right. reflexivity.
Qed.

(** X22.  Registering a command under a name that is not registered and
    unregistering that name again leaves the registry as it was, for a
    comparator that takes a name for itself. *)
Theorem Unregister_undoes_Register
  (s_consoleCommands : Console.Commands) (command : list byte)
  (h : option Handler) (c : Category) (help : list byte) :
  same_name command command = true ->
  KeyMap.find same_name s_consoleCommands command = None ->
  Console.UnregisterCommand same_name
    (Console.RegisterCommand same_name s_consoleCommands command h c help) command
  = s_consoleCommands.
Proof.
  intros Hrefl Hnone. unfold Console.RegisterCommand, Console.UnregisterCommand.
  rewrite Hnone. unfold KeyMap.emplace. cbn [KeyMap.find KeyMap.erase].
  rewrite Hrefl. apply ConsoleFacts.erase_absent. exact Hnone.
Qed.

(** X23.  [RegisterCommand] never replaces a command: a name that resolved
    to a command before the call resolves to the same command after it,
    whatever is registered and under whatever name, for a comparator under
    which names it takes for one another are taken alike by every key. *)
Theorem Register_keeps_registered_commands
  (s_consoleCommands : Console.Commands) (command : list byte)
  (h : option Handler) (c : Category) (help : list byte)
  (name : list byte) (old : Console.ConsoleCommand) :
  (same_name command name = true ->
   forall k, same_name k command = same_name k name) ->
  KeyMap.find same_name s_consoleCommands name = Some old ->
  KeyMap.find same_name
    (Console.RegisterCommand same_name s_consoleCommands command h c help) name
  = Some old.
Proof.
  intros Hsame Hold. unfold Console.RegisterCommand.
  destruct (KeyMap.find same_name s_consoleCommands command) eqn:F;
    [exact Hold |].
  unfold KeyMap.emplace. cbn [KeyMap.find].
  destruct (same_name command name) eqn:E; [| exact Hold].
  rewrite (ConsoleFacts.find_alike same_name _ _ _ (Hsame eq_refl)) in F.
  rewrite F in Hold. discriminate Hold.
Qed.

End ConsoleTheorems.

Lemma ExecuteCommand_calls_with_first_word_witness :
  let ver := [Byte.x76; Byte.x65; Byte.x72] in
  let registry := [(ver, Console.mkConsoleCommand tt [] (Some 7%nat))] in
  let line := ver ++ [Byte.x20; Byte.x20; Byte.x61] in
  ver <> [] /\ ~ In Byte.x20 ver
  /\ ((line = ver /\ [Byte.x20; Byte.x61] = [])
      \/ line = ver ++ Byte.x20 :: [Byte.x20; Byte.x61])
  /\ exists cmd : Console.ConsoleCommand (Handler := nat) (Category := unit),
       KeyMap.find Str.eqb registry ver = Some cmd
       /\ Console.handler cmd = Some 7%nat.
Proof.
  apply (ExecuteCommand_calls_with_first_word Str.eqb
           [([Byte.x76; Byte.x65; Byte.x72],
             Console.mkConsoleCommand tt [] (Some 7%nat))]
           ([Byte.x76; Byte.x65; Byte.x72] ++ [Byte.x20; Byte.x20; Byte.x61])
           7%nat [Byte.x76; Byte.x65; Byte.x72] [Byte.x20; Byte.x61]).
  vm_compute. reflexivity.
Defined.

Lemma Unregister_undoes_Register_witness :
  let run := [Byte.x72; Byte.x75; Byte.x6e] in
  let registry :=
    [([Byte.x76; Byte.x65; Byte.x72], Console.mkConsoleCommand tt [] (Some 7%nat))] in
  Console.UnregisterCommand Str.eqb
    (Console.RegisterCommand Str.eqb registry run (Some 8%nat) tt []) run
  = registry.
Proof.
  apply (Unregister_undoes_Register Str.eqb
           [([Byte.x76; Byte.x65; Byte.x72],
             Console.mkConsoleCommand tt [] (Some 7%nat))]
           [Byte.x72; Byte.x75; Byte.x6e] (Some 8%nat) tt []).
  - vm_compute; reflexivity.
  - vm_compute; reflexivity.
Defined.

Lemma Register_keeps_registered_commands_witness :
  let ver := [Byte.x76; Byte.x65; Byte.x72] in
  let old := Console.mkConsoleCommand tt [] (Some 7%nat) in
  KeyMap.find Str.eqb
    (Console.RegisterCommand Str.eqb [(ver, old)] ver (Some 8%nat) tt [Byte.x68]) ver
  = Some old.
Proof.
  apply (Register_keeps_registered_commands Str.eqb
           [([Byte.x76; Byte.x65; Byte.x72],
             Console.mkConsoleCommand tt [] (Some 7%nat))]
           [Byte.x76; Byte.x65; Byte.x72] (Some 8%nat) tt [Byte.x68]
           [Byte.x76; Byte.x65; Byte.x72]
           (Console.mkConsoleCommand tt [] (Some 7%nat))).
  - intros _ k. reflexivity.
  - vm_compute; reflexivity.
Defined.

(** ** Style *)

Module StyleFacts.

Lemma eqb_eq a b : Str.eqb a b = true <-> a = b.
Proof.
  unfold Str.eqb. destruct (list_eq_dec Byte.byte_eq_dec a b); split;
    intros H; congruence.
Qed.

Lemma eqb_neq a b : a <> b -> Str.eqb a b = false.
Proof.
  intros H. destruct (Str.eqb a b) eqn:E; [| reflexivity].
  apply eqb_eq in E. contradiction.
Qed.

End StyleFacts.

Section StyleTheorems.

Context {StateImagery : Type}.
Variable GetName : StateImagery -> list byte.

(** X24.  When [AddStateImagery] goes through, the imagery is found under
    its own name, and every other name resolves as before. *)
Theorem AddStateImagery_then_found
  (m m' : Style.t) (imagery : StateImagery) :
  Style.AddStateImagery GetName m (Some imagery) = Some m' ->
  Style.GetStateImageryByName m' (GetName imagery) = Some imagery
  /\ forall name, name <> GetName imagery ->
       Style.GetStateImageryByName m' name = Style.GetStateImageryByName m name.
Proof.
  unfold Style.AddStateImagery, Style.GetStateImageryByName.
  destruct (KeyMap.find Str.eqb m (GetName imagery)); [discriminate |].
  intros E. injection E as <-. unfold KeyMap.emplace. cbn [KeyMap.find]. split.
  - rewrite (proj2 (StyleFacts.eqb_eq _ _) eq_refl). reflexivity.
  - intros name Hne. rewrite StyleFacts.eqb_neq by congruence. reflexivity.
Qed.

(** X25.  When [RemoveStateImagery] goes through, nothing is found under
    the name any more, every other name resolves as before, and adding an
    imagery of that name goes through again. *)
Theorem RemoveStateImagery_then_absent
  (m m' : Style.t (StateImagery := StateImagery)) (name : list byte) :
  Style.RemoveStateImagery m name = Some m' ->
  Style.GetStateImageryByName m' name = None
  /\ (forall other, other <> name ->
        Style.GetStateImageryByName m' other = Style.GetStateImageryByName m other)
  /\ forall imagery, GetName imagery = name ->
       Style.AddStateImagery GetName m' (Some imagery)
       = Some (KeyMap.emplace m' name imagery).
Proof.
  unfold Style.RemoveStateImagery, Style.GetStateImageryByName,
    Style.AddStateImagery.
  destruct (KeyMap.find Str.eqb m name); [| discriminate].
  intros E. injection E as <-.
  split; [apply ConsoleFacts.find_erase |]. split.
  - intros other Hne. apply ConsoleFacts.find_erase_other.
    intros k' Hk. apply StyleFacts.eqb_eq in Hk. subst k'.
    apply StyleFacts.eqb_neq. congruence.
  - intros imagery <-. rewrite ConsoleFacts.find_erase. reflexivity.
Qed.

End StyleTheorems.

Lemma AddStateImagery_then_found_witness :
  let GetName := fun i : list byte * nat => fst i in
  let a := ([Byte.x61], 1%nat) in
  let b := ([Byte.x62], 2%nat) in
  Style.GetStateImageryByName [(fst b, b); (fst a, a)] (GetName b) = Some b
  /\ forall name, name <> GetName b ->
       Style.GetStateImageryByName [(fst b, b); (fst a, a)] name
       = Style.GetStateImageryByName [(fst a, a)] name.
Proof.
  apply (AddStateImagery_then_found (fun i : list byte * nat => fst i)
           [([Byte.x61], ([Byte.x61], 1%nat))]
           [([Byte.x62], ([Byte.x62], 2%nat)); ([Byte.x61], ([Byte.x61], 1%nat))]
           ([Byte.x62], 2%nat)).
  vm_compute. reflexivity.
Defined.

Lemma RemoveStateImagery_then_absent_witness :
  let GetName := fun i : list byte * nat => fst i in
  let a := ([Byte.x61], 1%nat) in
  let b := ([Byte.x62], 2%nat) in
  Style.GetStateImageryByName [(fst a, a)] [Byte.x62] = None
  /\ (forall other, other <> [Byte.x62] ->
        Style.GetStateImageryByName [(fst a, a)] other
        = Style.GetStateImageryByName [(fst b, b); (fst a, a)] other)
  /\ forall imagery, GetName imagery = [Byte.x62] ->
       Style.AddStateImagery GetName [(fst a, a)] (Some imagery)
       = Some (KeyMap.emplace [(fst a, a)] [Byte.x62] imagery).
Proof.
  apply (RemoveStateImagery_then_absent (fun i : list byte * nat => fst i)
           [([Byte.x62], ([Byte.x62], 2%nat)); ([Byte.x61], ([Byte.x61], 1%nat))]
           [([Byte.x61], ([Byte.x61], 1%nat))] [Byte.x62]).
  vm_compute. reflexivity.
Defined.

(** ** The configuration of the login server *)

Module ConfigurationFacts.

Import Configuration.

Section Tables.

Context {constants : Constants} {sff : Sff}.

Lemma load_mysqlDatabase_maxRealms global c :
  maxRealms (load_mysqlDatabase global c) = maxRealms c.
Proof.
  unfold load_mysqlDatabase. destruct (getTable global k_mysqlDatabase);
    reflexivity.
Qed.

Lemma load_webServer_maxRealms global c :
  maxRealms (load_webServer global c) = maxRealms c.
Proof.
  unfold load_webServer. destruct (getTable global k_webServer); reflexivity.
Qed.

Lemma load_playerManager_maxRealms global c :
  maxRealms (load_playerManager global c) = maxRealms c.
Proof.
  unfold load_playerManager. destruct (getTable global k_playerManager);
    reflexivity.
Qed.

Lemma load_log_maxRealms global c :
  maxRealms (load_log global c) = maxRealms c.
Proof.
  unfold load_log. destruct (getTable global k_log); reflexivity.
Qed.

Lemma load_realmManager_clamps global c :
  maxRealms c <= MaxRealmCount ->
  maxRealms (load_realmManager global c) <= MaxRealmCount.
Proof.
  intros H. unfold load_realmManager.
  destruct (getTable global k_realmManager) as [realmManager |]; [| exact H].
  cbn [maxRealms].
  destruct (Z.ltb_spec MaxRealmCount
              (getInteger realmManager k_maxCount (maxRealms c))); lia.
Qed.

End Tables.

End ConfigurationFacts.

Section ConfigurationTheorems.

Context {constants : Configuration.Constants} {sff : Configuration.Sff}.

(** X26.  A configuration whose [maxRealms] is at most [MaxRealmCount], as
    that of the constructor is, stays so through [load], whatever the file
    holds and whether or not [load] succeeds. *)
Theorem load_keeps_maxRealms_clamped
  (writable : list byte -> bool) (c : Configuration.t) (fileName : list byte)
  (file : Configuration.file_state) :
  Configuration.maxRealms c <= Configuration.MaxRealmCount ->
  Configuration.maxRealms
    (snd (fst (Configuration.load writable c fileName file)))
  <= Configuration.MaxRealmCount.
Proof.
  intros H. unfold Configuration.load.
  destruct file as [| | global]; cbn [fst snd]; try exact H.
  destruct (negb _); cbn [fst snd]; [exact H |].
  rewrite ConfigurationFacts.load_log_maxRealms.
  apply ConfigurationFacts.load_realmManager_clamps.
  rewrite ConfigurationFacts.load_playerManager_maxRealms,
    ConfigurationFacts.load_webServer_maxRealms,
    ConfigurationFacts.load_mysqlDatabase_maxRealms.
  exact H.
Qed.

(** X27.  Whenever [load] writes a file it returns false and leaves the
    configuration as it was; the file holds the settings of the
    configuration as it is, and it is either the file that could not be
    opened, or, for a file that was read and has no version or another one,
    a file of the name with [".updated"] appended: never the file that was
    read. *)
Theorem load_writes_only_beside_a_readable_file
  (writable : list byte -> bool) (c : Configuration.t) (fileName : list byte)
  (file : Configuration.file_state) (name : list byte)
  (items : list Configuration.item) :
  In (name, items) (snd (Configuration.load writable c fileName file)) ->
  fst (Configuration.load writable c fileName file) = (false, c)
  /\ items = Configuration.save_items c
  /\ ((file = Configuration.unreadable /\ name = fileName)
      \/ ((exists global, file = Configuration.parsed global)
          /\ name = fileName ++ Configuration.dot_updated
          /\ name <> fileName)).
Proof.
  unfold Configuration.load, Configuration.save.
  destruct file as [| | global]; cbn [fst snd].
  - destruct (negb (writable fileName)); cbn [snd]; [intros [] |].
    intros [E | []].
    injection E as <- <-. repeat split. left. split; reflexivity.
  - intros [].
  - destruct (negb match Configuration.tryGetInteger global Configuration.k_version with
                   | Some fileVersion => fileVersion =? Configuration.LoginConfigVersion
                   | None => false
                   end); cbn [fst snd]; [| intros []].
    destruct (negb (writable (fileName ++ Configuration.dot_updated)));
      cbn [snd]; [intros [] |].
    intros [E | []].
    injection E as <- <-. repeat split. right.
    split; [exists global; reflexivity |]. split; [reflexivity |].
    intros E. apply (f_equal (@length byte)) in E.
    rewrite length_app in E. cbn [Configuration.dot_updated length] in E. lia.
Qed.

End ConfigurationTheorems.

Lemma load_keeps_maxRealms_clamped_witness :
  Configuration.maxRealms
    (snd (fst (Configuration.load (constants := example_constants)
                 (sff := example_sff) (fun _ => true)
                 (Configuration.default (constants := example_constants))
                 [Byte.x63]
                 (Configuration.parsed (sff := example_sff)
                    [(Configuration.k_version, 1)]))))
  <= Configuration.MaxRealmCount (Constants := example_constants).
Proof.
  apply (load_keeps_maxRealms_clamped (constants := example_constants)
           (sff := example_sff) (fun _ => true)
           (Configuration.default (constants := example_constants))
           [Byte.x63]
           (Configuration.parsed (sff := example_sff)
              [(Configuration.k_version, 1)])).
  vm_compute. discriminate.
Defined.

Lemma load_writes_only_beside_a_readable_file_witness :
  let c := Configuration.default (constants := example_constants) in
  let file := Configuration.parsed (sff := example_sff) [(Configuration.k_version, 2)] in
  let name := [Byte.x63] ++ Configuration.dot_updated in
  fst (Configuration.load (constants := example_constants) (fun _ => true)
         c [Byte.x63] file) = (false, c)
  /\ Configuration.save_items c = Configuration.save_items c
  /\ ((file = Configuration.unreadable /\ name = [Byte.x63])
      \/ ((exists global, file = Configuration.parsed global)
          /\ name = [Byte.x63] ++ Configuration.dot_updated
          /\ name <> [Byte.x63])).
Proof.
  apply (load_writes_only_beside_a_readable_file (constants := example_constants)
           (sff := example_sff) (fun _ => true)
           (Configuration.default (constants := example_constants))
           [Byte.x63]
           (Configuration.parsed (sff := example_sff)
              [(Configuration.k_version, 2)])
           ([Byte.x63] ++ Configuration.dot_updated)
           (Configuration.save_items
              (Configuration.default (constants := example_constants)))).
  vm_compute. left. reflexivity.
Defined.
